(** * Stratified, diversity-aware sampling of repository entries

    A shallow embedding of the two sampling scripts of [query_nomad]:

    - [script.py]: [RepoEntry.from_api_result], [fetch_all_orca_entries],
      [stratified_sample], [write_json], [write_csv] and [main];
    - [script_distinct_authors.py]: [RepoEntry.from_api_result],
      [fetch_all_entries], [main_author_diverse_stratified_sample],
      [write_json], [write_csv] and [main].

    Python integers are [Z]; [len] is [Z.of_nat (length _)]; a [dict] is an
    association list in insertion order (the scripts iterate over
    [buckets.items()] and sort [buckets.keys()] with a stable sort, so order
    matters); a [set] is a [gset]; exceptions are an explicit [outcome].
    An [entry_id] is a string or [None]: the scripts never check it. *)

From Stdlib Require Import ZArith Lia.
From stdpp Require Import base option list sorting strings pretty gmap sets.

Local Open Scope Z_scope.
Set Warnings "-clear-no-such-hyp".

(** ** Exceptions and outcomes *)

Inductive exn :=
  | ValueError (msg : string)
  | KeyError (key : string)
  | TypeError
  | AttributeError
  | ZeroDivisionError
  | HTTPError.

(** The result of running a piece of Python: a value, an exception, or the
    loop budget of the model ran out ([OutOfFuel] is an artefact of the
    model; it is shown never to happen for the sampling functions). *)
Inductive outcome (A : Type) :=
  | Return (a : A)
  | Raise (e : exn)
  | OutOfFuel.
Arguments Return {A} a.
Arguments Raise {A} e.
Arguments OutOfFuel {A}.

Definition outcome_bind {A B} (f : A → outcome B) (m : outcome A) : outcome B :=
  match m with
  | Return a => f a
  | Raise e => Raise e
  | OutOfFuel => OutOfFuel
  end.

#[global] Instance outcome_mret : MRet outcome := @Return.
#[global] Instance outcome_mbind : MBind outcome := @outcome_bind.

Definition returns {A} (m : outcome A) : Prop := ∃ a, m = Return a.

Definition raises_KeyError {A} (m : outcome A) : bool :=
  match m with
  | Raise (KeyError _) => true
  | _ => false
  end.

(** ** Dictionaries in insertion order *)

Definition dict (V : Type) : Type := list (string * V).

Definition keys {V} (d : dict V) : list string := d.*1.
Definition values {V} (d : dict V) : list V := d.*2.

(** [d.get(k)] *)
Fixpoint dict_get {V} (d : dict V) (k : string) : option V :=
  match d with
  | [] => None
  | (k', v) :: d' => if decide (k' = k) then Some v else dict_get d' k
  end.

(** [d[k] = v]: overwrite in place when the key exists, else append. *)
Fixpoint dict_set {V} (k : string) (v : V) (d : dict V) : dict V :=
  match d with
  | [] => [(k, v)]
  | (k', v') :: d' =>
      if decide (k' = k) then (k', v) :: d' else (k', v') :: dict_set k v d'
  end.

(** [d[k]], raising [KeyError] when the key is absent. *)
Definition dict_item {V} (d : dict V) (k : string) : outcome V :=
  match dict_get d k with
  | Some v => Return v
  | None => Raise (KeyError k)
  end.

(** [sum(alloc.values())] *)
Definition sum_values (alloc : dict Z) : Z := foldr Z.add 0 (values alloc).

(** [any(v > 1 for v in alloc.values())] *)
Definition any_above_one (alloc : dict Z) : bool :=
  existsb (λ v, bool_decide (1 < v)) (values alloc).

(** ** [sorted(xs, key=..., reverse=True)]

    Python's sort is stable, and with [reverse=True] elements with equal keys
    keep their original relative order.  [insert_desc x l] puts [x] in front
    of the first element whose key is not larger than its own. *)

Section sorting.
Context {A : Type} (key : A → nat).

Fixpoint insert_desc (x : A) (l : list A) : list A :=
  match l with
  | [] => [x]
  | y :: l' =>
      if decide (key y ≤ key x)%nat then x :: y :: l'
      else y :: insert_desc x l'
  end.

Definition sorted_reverse (l : list A) : list A := foldr insert_desc [] l.

(** Descending by key. *)
Definition descending : relation A := λ x y, (key y ≤ key x)%nat.
End sorting.

(** ** The random number generator

    [random.Random] is library code.  Both [shuffle] and [sample] choose by
    position only and never look at the elements, so the generator is
    modelled by the positions it produces: [shuffle_order g n] is the order
    in which [shuffle] leaves a list of length [n], [sample_positions g n k]
    are the positions [sample] draws for [k] out of [n]. *)

Class PyRandom := {
  rng_state : Type;
  (** [random.Random(seed)] *)
  Random : Z → rng_state;
  shuffle_order : rng_state → nat → list nat * rng_state;
  sample_positions : rng_state → nat → nat → list nat * rng_state;
  shuffle_order_perm g n : (shuffle_order g n).1 ≡ₚ seq 0 n;
  sample_positions_length g n k :
    (k ≤ n)%nat → length (sample_positions g n k).1 = k;
  sample_positions_NoDup g n k :
    (k ≤ n)%nat → NoDup (sample_positions g n k).1;
  sample_positions_bound g n k :
    (k ≤ n)%nat → Forall (λ i, i < n)%nat (sample_positions g n k).1;
}.

(** The elements of [l] at the given positions, in that order. *)
Definition at_positions {A} (l : list A) (ps : list nat) : list A :=
  omap (λ i, l !! i) ps.

Section rng.
Context `{PyRandom} {A : Type}.

(** [rng.shuffle(x)]: the new contents of [x] and the new generator. *)
Definition rng_shuffle (g : rng_state) (x : list A) : list A * rng_state :=
  let '(ps, g') := shuffle_order g (length x) in (at_positions x ps, g').

(** [rng.sample(population, k)]; raises [ValueError] unless
    [0 <= k <= len(population)]. *)
Definition rng_sample (g : rng_state) (population : list A) (k : Z)
    : outcome (list A * rng_state) :=
  if decide (0 ≤ k ≤ Z.of_nat (length population)) then
    let '(ps, g') := sample_positions g (length population) (Z.to_nat k) in
    Return (at_positions population ps, g')
  else Raise (ValueError "Sample larger than population or is negative").
End rng.

(** ** The sampling engine

    The two scripts share the guard, the bucketing, the allocation and the
    final trim / top-up verbatim; they differ in the per-stratum selection.
    The shared code is embedded once, over any entry type with the fields
    the algorithm reads. *)

(** What the functions print. *)
Inductive notice :=
  | WarnReduced (target_size n_total : Z).

Abbreviation len l := (Z.of_nat (length l)).

Section sampling.
Context {E : Type} `{EqDecision E}.
(** [K] is the type of what [e.entry_id] holds; the functions put ids in a
    [set] and test membership, nothing else. *)
Context {K : Type} `{Countable K}.
Context (entry_id : E → K) (system : E → string).
Context (main_author : E → option string).
Context `{PyRandom}.
(** [round_quota n n_total target_size] stands for
    [int(round(n / n_total * target_size))], a floating point computation;
    nothing below depends on its value. *)
Variable round_quota : Z → Z → Z → Z.

(** [buckets.setdefault(k, []).append(e)] *)
Fixpoint setdefault_append (k : string) (e : E) (buckets : dict (list E))
    : dict (list E) :=
  match buckets with
  | [] => [(k, [e])]
  | (k', bucket) :: buckets' =>
      if decide (k' = k) then (k', bucket ++ [e]) :: buckets'
      else (k', bucket) :: setdefault_append k e buckets'
  end.

Definition bucket_entries (entries : list E) : dict (list E) :=
  foldl (λ buckets e, setdefault_append (system e) e buckets) [] entries.

Definition initial_quota (bucket : list E) (n_total target_size : Z) : Z :=
  let k := round_quota (len bucket) n_total target_size in
  if decide (k < 1 ∧ 0 < len bucket) then 1 else k.

Definition initial_alloc (buckets : dict (list E)) (n_total target_size : Z)
    : dict Z :=
  foldl (λ alloc '(system, bucket),
           dict_set system (initial_quota bucket n_total target_size) alloc)
        [] buckets.

(** [len(buckets[s])], the sort key; [s] always comes from
    [buckets.keys()]. *)
Definition bucket_size (buckets : dict (list E)) (s : string) : nat :=
  length (default [] (dict_get buckets s)).

Definition systems_sorted (buckets : dict (list E)) : list string :=
  sorted_reverse (bucket_size buckets) (keys buckets).

(** [systems_sorted[idx % len(systems_sorted)]] *)
Definition cyclic_item (systems : list string) (idx : nat) : outcome string :=
  match systems !! (idx mod length systems)%nat with
  | Some s => Return s
  | None => Raise ZeroDivisionError
  end.

(** [while remaining > 0]: one unit per iteration, so the loop runs
    exactly [remaining] times. *)
Fixpoint distribute_remaining (systems : list string) (remaining idx : nat)
    (alloc : dict Z) : outcome (dict Z) :=
  match remaining with
  | O => Return alloc
  | S remaining' =>
      s ← cyclic_item systems idx;
      v ← dict_item alloc s;
      distribute_remaining systems remaining' (S idx) (dict_set s (v + 1) alloc)
  end.

(** [while surplus > 0 and any(v > 1 for v in alloc.values())] *)
Fixpoint remove_surplus (fuel : nat) (systems : list string) (surplus : Z)
    (idx : nat) (alloc : dict Z) : outcome (dict Z) :=
  if bool_decide (0 < surplus) && any_above_one alloc then
    match fuel with
    | O => OutOfFuel
    | S fuel' =>
        s ← cyclic_item systems idx;
        v ← dict_item alloc s;
        if decide (1 < v) then
          remove_surplus fuel' systems (surplus - 1) (S idx)
            (dict_set s (v - 1) alloc)
        else remove_surplus fuel' systems surplus (S idx) alloc
    end
  else Return alloc.

(** "Adjust allocation to match target_size exactly" *)
Definition adjust_alloc (systems : list string) (alloc : dict Z)
    (target_size : Z) : outcome (dict Z) :=
  let current := sum_values alloc in
  if decide (current < target_size) then
    distribute_remaining systems (Z.to_nat (target_size - current)) 0 alloc
  else if decide (target_size < current) then
    let surplus := current - target_size in
    remove_surplus (Z.to_nat surplus * length systems) systems surplus 0 alloc
  else Return alloc.

(** The guard and the clamp at the head of both functions: the effective
    target and what was printed. *)
Definition check_target (entries : list E) (target_size : Z)
    : outcome (Z * list notice) :=
  if decide (target_size ≤ 0) then
    Raise (ValueError "target_size must be positive")
  else
    let n_total := len entries in
    if decide (n_total = 0) then
      Raise (ValueError "no entries available for sampling")
    else if decide (n_total < target_size) then
      Return (n_total, [WarnReduced target_size n_total])
    else Return (target_size, []).

(** Buckets, adjusted allocation and the sorted stratum labels. *)
Definition allocate (entries : list E) (target_size : Z)
    : outcome (dict (list E) * dict Z * list string) :=
  let n_total := len entries in
  let buckets := bucket_entries entries in
  let alloc := initial_alloc buckets n_total target_size in
  let systems := systems_sorted buckets in
  alloc' ← adjust_alloc systems alloc target_size;
  Return (buckets, alloc', systems).

(** "Fix small mismatches by global trim / top-up" *)
Definition reconcile (entries : list E) (target_size : Z)
    (selected : list E) (g : rng_state) : outcome (list E * rng_state) :=
  if decide (target_size < len selected) then
    rng_sample g selected target_size
  else if decide (len selected < target_size) then
    let selected_ids : gset K := list_to_set (entry_id <$> selected) in
    let remaining_pool :=
      filter (λ e, entry_id e ∉ selected_ids) entries in
    let k_extra := Z.min (target_size - len selected) (len remaining_pool) in
    if decide (0 < k_extra) then
      '(extra, g') ← rng_sample g remaining_pool k_extra;
      Return (selected ++ extra, g')
    else Return (selected, g)
  else Return (selected, g).

(** *** [script.py]: [stratified_sample] *)

(** [for system, bucket in buckets.items(): ...] *)
Fixpoint draw_samples (alloc : dict Z) (items : dict (list E))
    (selected : list E) (g : rng_state) : outcome (list E * rng_state) :=
  match items with
  | [] => Return (selected, g)
  | (system, bucket) :: items' =>
      let k := Z.min (default 0 (dict_get alloc system)) (len bucket) in
      if decide (k ≤ 0) then draw_samples alloc items' selected g
      else
        '(drawn, g') ← rng_sample g bucket k;
        draw_samples alloc items' (selected ++ drawn) g'
  end.

Definition stratified_sample (entries : list E) (target_size : Z)
    (g : rng_state) : outcome (list E * rng_state * list notice) :=
  '(target_size, out) ← check_target entries target_size;
  '(buckets, alloc, _) ← allocate entries target_size;
  '(selected, g) ← draw_samples alloc buckets [] g;
  '(selected, g) ← reconcile entries target_size selected g;
  Return (selected, g, out).

(** *** [script_distinct_authors.py]:
    [main_author_diverse_stratified_sample] *)

(** "First pass: prefer unseen main_author" *)
Fixpoint first_pass (need : Z) (bucket_copy system_selected : list E)
    (used_authors : gset string) : list E * gset string :=
  match bucket_copy with
  | [] => (system_selected, used_authors)
  | e :: rest =>
      if decide (need ≤ len system_selected) then
        (system_selected, used_authors)
      else
        match main_author e with
        | None => first_pass need rest system_selected used_authors
        | Some a =>
            if decide (a ∈ used_authors) then
              first_pass need rest system_selected used_authors
            else
              first_pass need rest (system_selected ++ [e])
                ({[a]} ∪ used_authors)
        end
  end.

(** "Second pass: fill remaining slots ignoring author overlap" *)
Fixpoint second_pass (need : Z) (bucket_copy system_selected : list E)
    : list E :=
  match bucket_copy with
  | [] => system_selected
  | e :: rest =>
      if decide (need ≤ len system_selected) then system_selected
      else if decide (e ∈ system_selected) then
        second_pass need rest system_selected
      else second_pass need rest (system_selected ++ [e])
  end.

(** The state of the selection loop.  [first_picks] is not a variable of
    the script: it records what the first passes selected, so that
    properties of the first pass can be stated on the result. *)
Record selection := Selection {
  selected : list E;
  first_picks : list E;
  used_authors : gset string;
  rng : rng_state;
}.

(** The body of the loop for one stratum with [need > 0] and a non-empty
    bucket.  With [diversity_first = false] the first pass is left out;
    the script is [diversity_first = true]. *)
Definition select_system (diversity_first : bool) (need : Z)
    (bucket : list E) (st : selection) : selection :=
  let '(bucket_copy, g) := rng_shuffle (rng st) bucket in
  let '(system_selected, used) :=
    if diversity_first then first_pass need bucket_copy [] (used_authors st)
    else ([], used_authors st) in
  let filled :=
    if decide (len system_selected < need) then
      second_pass need bucket_copy system_selected
    else system_selected in
  Selection (selected st ++ filled) (first_picks st ++ system_selected)
    used g.

(** [for system in systems_sorted: ...] *)
Fixpoint selection_pass (diversity_first : bool) (buckets : dict (list E))
    (alloc : dict Z) (systems : list string) (st : selection)
    : outcome selection :=
  match systems with
  | [] => Return st
  | system :: systems' =>
      bucket ← dict_item buckets system;
      let need := default 0 (dict_get alloc system) in
      if decide (need ≤ 0 ∨ bucket = []) then
        selection_pass diversity_first buckets alloc systems' st
      else
        selection_pass diversity_first buckets alloc systems'
          (select_system diversity_first need bucket st)
  end.

(** Everything up to the global trim / top-up: the effective target, the
    output so far and the state after the selection loop. *)
Definition selection_stage (diversity_first : bool) (entries : list E)
    (target_size : Z) (g : rng_state)
    : outcome (Z * list notice * selection) :=
  '(target_size, out) ← check_target entries target_size;
  '(buckets, alloc, systems) ← allocate entries target_size;
  st ← selection_pass diversity_first buckets alloc systems
         (Selection [] [] ∅ g);
  Return (target_size, out, st).

Definition sample_with_selection (diversity_first : bool)
    (entries : list E) (target_size : Z) (g : rng_state)
    : outcome (list E * rng_state * list notice) :=
  '(target_size, out, st) ←
    selection_stage diversity_first entries target_size g;
  '(selected, g) ← reconcile entries target_size (selected st) (rng st);
  Return (selected, g, out).

Definition main_author_diverse_stratified_sample :=
  sample_with_selection true.

(** The same function with the first pass removed: each stratum takes the
    first [need] entries of its shuffled bucket. *)
Definition random_only_stratified_sample := sample_with_selection false.

(** [sample_authors] of [main]: the distinct non-absent authors. *)
Definition sample_authors (sample : list E) : gset string :=
  list_to_set (omap main_author sample).
End sampling.

(** ** The sampling functions on mutable lists

    The functions above work on list values.  Python lists are objects: the
    argument [entries] is a reference to a list the caller goes on using,
    and [append], [extend] and [rng.shuffle] change a list in place.  Here
    the same two functions run on a store of list objects.  A location is
    an index into the store; a new list goes to the end of the store.  The
    lists the functions change in place ([buckets]' values, [bucket_copy],
    [system_selected], [selected]) and the list they return live in the
    store; lists that are only read once made (the result of [rng.sample],
    [remaining_pool]) are values.  Neither function assigns to a field of
    an entry, so entries are values too. *)

Definition loc := nat.

(** A computation on a store of lists of [E]. *)
Definition storeM (E A : Type) : Type :=
  list (list E) → outcome A * list (list E).

Definition store_ret {E A} (a : A) : storeM E A := λ h, (Return a, h).

Definition store_bind {E A B} (f : A → storeM E B) (m : storeM E A)
    : storeM E B :=
  λ h, match m h with
       | (Return a, h') => f a h'
       | (Raise e, h') => (Raise e, h')
       | (OutOfFuel, h') => (OutOfFuel, h')
       end.

#[global] Instance storeM_mret {E} : MRet (storeM E) := @store_ret E.
#[global] Instance storeM_mbind {E} : MBind (storeM E) := @store_bind E.

(** A computation that does not touch the store. *)
Definition pure_step {E A} (o : outcome A) : storeM E A := λ h, (o, h).

(** [[]], [list(l)], [l[:]]: a new list object. *)
Definition new_list {E} (l : list E) : storeM E loc :=
  λ h, (Return (length h), h ++ [l]).

(** Reading the list at [p]. *)
Definition contents {E} (p : loc) : storeM E (list E) :=
  λ h, match h !! p with
       | Some l => (Return l, h)
       | None => (Raise TypeError, h)
       end.

(** Replacing the contents of the list at [p], in place. *)
Definition assign {E} (p : loc) (l : list E) : storeM E () :=
  λ h, (Return (), <[p := l]> h).

(** [p.append(e)] *)
Definition append {E} (p : loc) (e : E) : storeM E () :=
  l ← contents p; assign p (l ++ [e]).

(** [p.extend(es)] *)
Definition extend {E} (p : loc) (es : list E) : storeM E () :=
  l ← contents p; assign p (l ++ es).

Section mutable_lists.
Context {E : Type} `{EqDecision E}.
Context {K : Type} `{Countable K}.
Context (entry_id : E → K) (system : E → string).
Context (main_author : E → option string).
Context `{PyRandom}.
Variable round_quota : Z → Z → Z → Z.

(** [buckets.setdefault(k, []).append(e)] *)
Definition bucket_append (k : string) (e : E) (buckets : dict loc)
    : storeM E (dict loc) :=
  match dict_get buckets k with
  | Some bucket => append bucket e;; mret buckets
  | None =>
      bucket ← new_list [];
      append bucket e;;
      mret (dict_set k bucket buckets)
  end.

(** [for e in entries: buckets.setdefault(e.system, []).append(e)] *)
Fixpoint fill_buckets (entries : list E) (buckets : dict loc)
    : storeM E (dict loc) :=
  match entries with
  | [] => mret buckets
  | e :: entries' =>
      buckets ← bucket_append (system e) e buckets;
      fill_buckets entries' buckets
  end.

(** The buckets as the allocation reads them: [len(bucket)] for every
    bucket. *)
Fixpoint read_buckets (buckets : dict loc) : storeM E (dict (list E)) :=
  match buckets with
  | [] => mret []
  | (k, bucket) :: buckets' =>
      l ← contents bucket;
      rest ← read_buckets buckets';
      mret ((k, l) :: rest)
  end.

(** Bucketing and allocation; the allocation only reads. *)
Definition allocate_in_store (entries : list E) (target_size : Z)
    : storeM E (dict loc * dict Z * list string) :=
  let n_total := len entries in
  buckets ← fill_buckets entries [];
  view ← read_buckets buckets;
  let alloc := initial_alloc round_quota view n_total target_size in
  let systems := systems_sorted view in
  alloc ← pure_step (adjust_alloc systems alloc target_size);
  mret (buckets, alloc, systems).

(** "Fix small mismatches by global trim / top-up" *)
Definition reconcile_in_store (entries : loc) (target_size : Z)
    (selected : loc) (g : rng_state) : storeM E (loc * rng_state) :=
  sel ← contents selected;
  if decide (target_size < len sel) then
    '(trimmed, g) ← pure_step (rng_sample g sel target_size);
    selected ← new_list trimmed;
    mret (selected, g)
  else if decide (len sel < target_size) then
    let selected_ids : gset K := list_to_set (entry_id <$> sel) in
    es ← contents entries;
    let remaining_pool := filter (λ e, entry_id e ∉ selected_ids) es in
    let k_extra := Z.min (target_size - len sel) (len remaining_pool) in
    if decide (0 < k_extra) then
      '(extra, g) ← pure_step (rng_sample g remaining_pool k_extra);
      extend selected extra;;
      mret (selected, g)
    else mret (selected, g)
  else mret (selected, g).

(** [for system, bucket in buckets.items(): ...] of [stratified_sample] *)
Fixpoint draw_samples_in_store (alloc : dict Z) (items : dict loc)
    (selected : loc) (g : rng_state) : storeM E rng_state :=
  match items with
  | [] => mret g
  | (system, bucket) :: items' =>
      b ← contents bucket;
      let k := Z.min (default 0 (dict_get alloc system)) (len b) in
      if decide (k ≤ 0) then draw_samples_in_store alloc items' selected g
      else
        '(drawn, g) ← pure_step (rng_sample g b k);
        extend selected drawn;;
        draw_samples_in_store alloc items' selected g
  end.

(** [stratified_sample], given where the list [entries] is; it returns
    where the sample is. *)
Definition stratified_sample_in_store (entries : loc) (target_size : Z)
    (g : rng_state) : storeM E (loc * rng_state * list notice) :=
  es ← contents entries;
  '(target_size, out) ← pure_step (check_target es target_size);
  '(buckets, alloc, _) ← allocate_in_store es target_size;
  selected ← new_list [];
  g ← draw_samples_in_store alloc buckets selected g;
  '(selected, g) ← reconcile_in_store entries target_size selected g;
  mret (selected, g, out).

(** The first pass, appending to [system_selected]. *)
Fixpoint first_pass_in_store (need : Z) (bucket_copy : list E)
    (system_selected : loc) (used_authors : gset string)
    : storeM E (gset string) :=
  match bucket_copy with
  | [] => mret used_authors
  | e :: rest =>
      ss ← contents system_selected;
      if decide (need ≤ len ss) then mret used_authors
      else
        match main_author e with
        | None => first_pass_in_store need rest system_selected used_authors
        | Some a =>
            if decide (a ∈ used_authors) then
              first_pass_in_store need rest system_selected used_authors
            else
              append system_selected e;;
              first_pass_in_store need rest system_selected
                ({[a]} ∪ used_authors)
        end
  end.

(** The second pass, appending to [system_selected]. *)
Fixpoint second_pass_in_store (need : Z) (bucket_copy : list E)
    (system_selected : loc) : storeM E () :=
  match bucket_copy with
  | [] => mret ()
  | e :: rest =>
      ss ← contents system_selected;
      if decide (need ≤ len ss) then mret ()
      else if decide (e ∈ ss) then
        second_pass_in_store need rest system_selected
      else
        append system_selected e;;
        second_pass_in_store need rest system_selected
  end.

(** The body of the selection loop for one stratum: [bucket_copy] is a new
    list, shuffled in place. *)
Definition select_system_in_store (need : Z) (bucket : list E)
    (selected : loc) (used_authors : gset string) (g : rng_state)
    : storeM E (gset string * rng_state) :=
  bucket_copy ← new_list bucket;
  b ← contents bucket_copy;
  let '(shuffled, g) := rng_shuffle g b in
  assign bucket_copy shuffled;;
  system_selected ← new_list [];
  b ← contents bucket_copy;
  used_authors ← first_pass_in_store need b system_selected used_authors;
  ss ← contents system_selected;
  (if decide (len ss < need) then
     b ← contents bucket_copy;
     second_pass_in_store need b system_selected
   else mret ());;
  ss ← contents system_selected;
  extend selected ss;;
  mret (used_authors, g).

(** [for system in systems_sorted: ...] *)
Fixpoint selection_pass_in_store (buckets : dict loc) (alloc : dict Z)
    (systems : list string) (selected : loc) (used_authors : gset string)
    (g : rng_state) : storeM E (gset string * rng_state) :=
  match systems with
  | [] => mret (used_authors, g)
  | system :: systems' =>
      bucket ← pure_step (dict_item buckets system);
      b ← contents bucket;
      let need := default 0 (dict_get alloc system) in
      if decide (need ≤ 0 ∨ b = []) then
        selection_pass_in_store buckets alloc systems' selected used_authors g
      else
        '(used_authors, g) ←
          select_system_in_store need b selected used_authors g;
        selection_pass_in_store buckets alloc systems' selected used_authors g
  end.

(** [main_author_diverse_stratified_sample], given where the list
    [entries] is; it returns where the sample is. *)
Definition main_author_diverse_stratified_sample_in_store (entries : loc)
    (target_size : Z) (g : rng_state)
    : storeM E (loc * rng_state * list notice) :=
  es ← contents entries;
  '(target_size, out) ← pure_step (check_target es target_size);
  '(buckets, alloc, systems) ← allocate_in_store es target_size;
  selected ← new_list [];
  '(_, g) ← selection_pass_in_store buckets alloc systems selected ∅ g;
  '(selected, g) ← reconcile_in_store entries target_size selected g;
  mret (selected, g, out).
End mutable_lists.

(** ** Fetching

    A hit of [/entries/query], decoded.  The scripts request the fields
    below through [required.include]; each of them can be missing or null
    in a hit, and otherwise has the type the API documents.  The scripts
    read every field but [entry_id] with [.get], which gives [None] for a
    missing key and for a null value alike: these fields are [None] in
    both cases.  They read [entry_id] with [d["entry_id"]], which raises
    [KeyError] for a missing key and gives [None] for a null value:
    [hit_entry_id] is [None] when the key is missing, [Some None] when the
    value is null and [Some (Some s)] for the string [s]. *)

Record raw_material := RawMaterial {
  raw_structural_type : option string;
}.

Record raw_results := RawResults {
  raw_material_of : option raw_material;
}.

(** [main_author]: a string, an object, or anything else.  Of an object the
    script reads [name] and [email] (taken into account only when they are
    strings) and otherwise falls back on
    [json.dumps(raw_ma, sort_keys=True)], carried here as [author_dumps]. *)
Inductive raw_author :=
  | AuthorStr (s : string)
  | AuthorObj (name email : option string) (author_dumps : string)
  | AuthorOther.

Record raw_hit := RawHit {
  hit_entry_id : option (option string);
  hit_upload_id : option string;
  hit_mainfile : option string;
  hit_main_author : option raw_author;
  hit_results : option raw_results;
}.

(** [results = d.get("results") or {}], and so on down to
    [structural_type]. *)
Definition hit_structural_type (d : raw_hit) : option string :=
  let results := default (RawResults None) (hit_results d) in
  let material := default (RawMaterial None) (raw_material_of results) in
  raw_structural_type material.

(** [structural_type if structural_type else "unknown"] *)
Definition system_label (structural_type : option string) : string :=
  match structural_type with
  | Some s => if decide (s = "") then "unknown" else s
  | None => "unknown"
  end.

(** What the fetch functions print. *)
Inductive line :=
  | InfoFetching
  | PageLine (page fetched total : Z)
  | ErrorStatus (status_code : Z)
  | ErrorBody
  | InfoDone (total : Z).

(** The decoded response to one POST. *)
Record response := Response {
  status_code : Z;
  data : list raw_hit;
  next_page_after_value : option string;
}.

Section fetching.
Context {R : Type} (from_api_result : raw_hit → outcome R).
(** The server: the answer to the [n]-th request, given the
    [page_after_value] it carries. *)
Context (post : nat → option string → response).

(** [for d in hits: try: ... except KeyError: continue] *)
Fixpoint collect_hits (hits : list raw_hit) (all_entries : list R)
    : outcome (list R) :=
  match hits with
  | [] => Return all_entries
  | d :: hits' =>
      match from_api_result d with
      | Return entry => collect_hits hits' (all_entries ++ [entry])
      | Raise (KeyError _) => collect_hits hits' all_entries
      | Raise e => Raise e
      | OutOfFuel => OutOfFuel
      end
  end.

(** [while True: ...]; the loop ends when the server sends no hits or no
    [next_page_after_value], which it need not ever do. *)
Fixpoint fetch_pages (fuel n : nat) (page_after_value : option string)
    (all_entries : list R) (page : Z) (out : list line)
    : outcome (list R) * list line :=
  match fuel with
  | O => (OutOfFuel, out)
  | S fuel' =>
      let resp := post n page_after_value in
      if decide (400 ≤ status_code resp < 600) then
        (Raise HTTPError, out ++ [ErrorStatus (status_code resp); ErrorBody])
      else
        let hits := data resp in
        if decide (hits = []) then
          (Return all_entries, out ++ [InfoDone (len all_entries)])
        else
          match collect_hits hits all_entries with
          | Return all_entries =>
              let page := page + 1 in
              let out := out ++ [PageLine page (len hits) (len all_entries)] in
              match next_page_after_value resp with
              | Some next_val =>
                  if decide (next_val = "") then
                    (Return all_entries, out ++ [InfoDone (len all_entries)])
                  else fetch_pages fuel' (S n) (Some next_val)
                         all_entries page out
              | None =>
                  (Return all_entries, out ++ [InfoDone (len all_entries)])
              end
          | Raise e => (Raise e, out)
          | OutOfFuel => (OutOfFuel, out)
          end
  end.

Definition fetch_all (fuel : nat) : outcome (list R) * list line :=
  fetch_pages fuel 0 None [] 0 [InfoFetching].

(** The number of hits of a page that raise [KeyError]. *)
Definition malformed (hits : list raw_hit) : nat :=
  length (filter (λ d, raises_KeyError (from_api_result d) = true) hits).
End fetching.

(** ** Files, printed lines and the loop of [main]

    [main] prints and writes files.  A file system is a dictionary from
    file names to contents; [open(filename, "w")] creates the file or
    replaces its contents.  Of a JSON file the value that is dumped is
    kept, of a CSV file the header and the rows of cells; the text that
    [json.dump] and the [csv] writer make of them is left out, and so are
    errors of the operating system. *)

Inductive file :=
  | JsonFile (data : list (dict (option string)))
  | CsvFile (header : list string) (rows : list (list string)).

(** What [main] and the functions it calls print. *)
Inductive printed :=
  | Fetching (l : line)
  | Sampling (n : notice)
  | ErrorNoEntries
  | GlobalSystems (dist : dict Z)
  | GlobalAuthors (n : Z)
  | WarnRequested (requested available : Z)
  | InfoCreating (size : Z)
  | SampleSystems (size : Z) (dist : dict Z)
  | SampleAuthors (size n : Z)
  | WroteJson (filename : string)
  | WroteCsv (filename : string)
  | Blank
  | Done.

(** A computation that writes files and prints. *)
Definition io (A : Type) : Type :=
  dict file → outcome A * dict file * list printed.

Definition io_ret {A} (a : A) : io A := λ fs, (Return a, fs, []).

Definition io_bind {A B} (f : A → io B) (m : io A) : io B :=
  λ fs, match m fs with
        | (Return a, fs', out) =>
            let '(r, fs'', out') := f a fs' in (r, fs'', out ++ out')
        | (Raise e, fs', out) => (Raise e, fs', out)
        | (OutOfFuel, fs', out) => (OutOfFuel, fs', out)
        end.

#[global] Instance io_mret : MRet io := @io_ret.
#[global] Instance io_mbind : MBind io := @io_bind.

Definition print_line (l : printed) : io () := λ fs, (Return (), fs, [l]).

Definition print_lines (ls : list printed) : io () :=
  λ fs, (Return (), fs, ls).

(** A computation that neither writes nor prints. *)
Definition run {A} (o : outcome A) : io A := λ fs, (o, fs, []).

(** A call of a fetch function: its lines are printed, its result or
    exception is passed on. *)
Definition fetched {A} (r : outcome A * list line) : io A :=
  λ fs, (r.1, fs, Fetching <$> r.2).

(** The file [filename] is opened for writing and holds [content]. *)
Definition write_file (filename : string) (content : file) : io () :=
  λ fs, (Return (), dict_set filename content fs, []).

Section output.
Context {E : Type}.
(** [asdict(e)]: the fields of the dataclass with their values, in order.
    Every field of a [RepoEntry] is a string or [None]. *)
Context (asdict : E → dict (option string)).
Context (fieldnames : list string).

Definition write_json (filename : string) (entries : list E) : io () :=
  let data := asdict <$> entries in
  write_file filename (JsonFile data);;
  print_line (WroteJson filename).

(** The cells [DictWriter.writerow] writes for [rowdict]: a key that is
    not a field name raises [ValueError] ([extrasaction] is left at
    ["raise"]), a field that is missing or [None] gives an empty cell. *)
Definition dict_to_list (rowdict : dict (option string))
    : outcome (list string) :=
  if decide (Forall (λ k, k ∈ fieldnames) (keys rowdict)) then
    Return ((λ k, match dict_get rowdict k with
                  | Some (Some s) => s
                  | Some None | None => ""
                  end) <$> fieldnames)
  else Raise (ValueError "dict contains fields not in fieldnames").

(** [for e in entries: writer.writerow(asdict(e))], with [rows] written
    so far. *)
Fixpoint write_rows (filename : string) (entries : list E)
    (rows : list (list string)) : io () :=
  match entries with
  | [] => mret ()
  | e :: entries' =>
      row ← run (dict_to_list (asdict e));
      write_file filename (CsvFile fieldnames (rows ++ [row]));;
      write_rows filename entries' (rows ++ [row])
  end.

Definition write_csv (filename : string) (entries : list E) : io () :=
  write_file filename (CsvFile fieldnames []);;
  write_rows filename entries [];;
  print_line (WroteCsv filename).
End output.

Section main_loop.
Context {E : Type} `{PyRandom}.
Context (system : E → string).

(** [for e in entries: dist[e.system] = dist.get(e.system, 0) + 1] *)
Definition count_systems (entries : list E) : dict Z :=
  foldl (λ dist e,
           dict_set (system e) (default 0 (dict_get dist (system e)) + 1)
             dist)
    [] entries.

(** The sampling function the script calls, its way of turning an entry
    into a row, and what it prints before and after sampling. *)
Context (sample : list E → Z → rng_state
                  → outcome (list E * rng_state * list notice)).
Context (asdict : E → dict (option string)) (fieldnames : list string).
Context (sample_stats : Z → list E → list printed).
Context (json_name csv_name : Z → string).

(** [for size in TARGET_SIZES: ...]; the generator is the one object all
    iterations draw from.  The result is the state it is left in. *)
Fixpoint sample_each_size (sizes : list Z) (all_entries : list E)
    (g : rng_state) : io rng_state :=
  match sizes with
  | [] => mret g
  | size :: sizes' =>
      if decide (size ≤ 0) then sample_each_size sizes' all_entries g
      else
        size ← (if decide (len all_entries < size) then
                  print_line (WarnRequested size (len all_entries));;
                  mret (len all_entries)
                else mret size);
        print_line (InfoCreating size);;
        '(chosen, g, notices) ← run (sample all_entries size g);
        print_lines (Sampling <$> notices);;
        print_lines (sample_stats size chosen);;
        write_json asdict (json_name size) chosen;;
        write_csv asdict fieldnames (csv_name size) chosen;;
        print_line Blank;;
        sample_each_size sizes' all_entries g
  end.
End main_loop.

(** ** The two scripts *)

Module Script.
(** [entry_id] is annotated [str], but a dataclass checks no types: the
    entry of a hit whose [entry_id] is null has [entry_id = None]. *)
Record RepoEntry := {
  entry_id : option string;
  upload_id : option string;
  mainfile : option string;
  system : string;
  structural_type : option string;
}.

#[global] Instance RepoEntry_eq_dec : EqDecision RepoEntry.
Proof. solve_decision. Defined.

Definition from_api_result (d : raw_hit) : outcome RepoEntry :=
  match hit_entry_id d with
  | None => Raise (KeyError "entry_id")
  | Some entry_id =>
      let upload_id := hit_upload_id d in
      let mainfile := hit_mainfile d in
      let structural_type := hit_structural_type d in
      let system := system_label structural_type in
      Return {| entry_id := entry_id; upload_id := upload_id;
                mainfile := mainfile; system := system;
                structural_type := structural_type |}
  end.

Definition fetch_all_orca_entries := fetch_all from_api_result.

Definition stratified_sample `{PyRandom} (round_quota : Z → Z → Z → Z) :=
  stratified_sample entry_id system round_quota.

Definition TARGET_SIZES : list Z := [500; 2000].
Definition RNG_SEED : Z := 123456.

Definition asdict (e : RepoEntry) : dict (option string) :=
  [("entry_id", entry_id e); ("upload_id", upload_id e);
   ("mainfile", mainfile e); ("system", Some (system e));
   ("structural_type", structural_type e)].

Definition fieldnames : list string :=
  ["entry_id"; "upload_id"; "mainfile"; "system"; "structural_type"].

Definition write_json := write_json asdict.
Definition write_csv := write_csv asdict fieldnames.

Definition json_name (size : Z) : string :=
  "orca_sample_" +:+ pretty size +:+ ".json".
Definition csv_name (size : Z) : string :=
  "orca_sample_" +:+ pretty size +:+ ".csv".

Definition main `{PyRandom} (round_quota : Z → Z → Z → Z)
    (post : nat → option string → response) (fuel : nat) : io () :=
  let rng := Random RNG_SEED in
  all_entries ← fetched (fetch_all_orca_entries post fuel);
  if decide (all_entries = []) then print_line ErrorNoEntries
  else
    print_line (GlobalSystems (count_systems system all_entries));;
    sample_each_size (stratified_sample round_quota) asdict fieldnames
      (λ size chosen, [SampleSystems size (count_systems system chosen)])
      json_name csv_name TARGET_SIZES all_entries rng;;
    print_line Done.
End Script.

Module DistinctAuthors.
(** [entry_id] is annotated [str], but a dataclass checks no types: the
    entry of a hit whose [entry_id] is null has [entry_id = None]. *)
Record RepoEntry := {
  entry_id : option string;
  upload_id : option string;
  mainfile : option string;
  main_author : option string;
  system : string;
  structural_type : option string;
}.

#[global] Instance RepoEntry_eq_dec : EqDecision RepoEntry.
Proof. solve_decision. Defined.

Section from_api_result.
(** [str.strip] *)
Variable strip : string → string.

(** [s.strip() or None] *)
Definition stripped (s : string) : option string :=
  if decide (strip s = "") then None else Some (strip s).

(** "We try to normalize main_author to a string." *)
Definition normalize_main_author (raw_ma : option raw_author)
    : option string :=
  match raw_ma with
  | Some (AuthorStr s) => stripped s
  | Some (AuthorObj name email author_dumps) =>
      match name ≫= stripped with
      | Some a => Some a
      | None =>
          match email ≫= stripped with
          | Some a => Some a
          | None => Some author_dumps
          end
      end
  | Some AuthorOther | None => None
  end.

Definition from_api_result (d : raw_hit) : outcome RepoEntry :=
  match hit_entry_id d with
  | None => Raise (KeyError "entry_id")
  | Some entry_id =>
      let upload_id := hit_upload_id d in
      let mainfile := hit_mainfile d in
      let main_author := normalize_main_author (hit_main_author d) in
      let structural_type := hit_structural_type d in
      let system := system_label structural_type in
      Return {| entry_id := entry_id; upload_id := upload_id;
                mainfile := mainfile; main_author := main_author;
                system := system; structural_type := structural_type |}
  end.

Definition fetch_all_entries := fetch_all from_api_result.
End from_api_result.

Definition main_author_diverse_stratified_sample `{PyRandom}
    (round_quota : Z → Z → Z → Z) :=
  main_author_diverse_stratified_sample entry_id system main_author
    round_quota.

(** The function without its first pass. *)
Definition random_only_stratified_sample `{PyRandom}
    (round_quota : Z → Z → Z → Z) :=
  random_only_stratified_sample entry_id system main_author round_quota.

(** The function up to its global trim / top-up. *)
Definition selection_stage `{PyRandom} (round_quota : Z → Z → Z → Z) :=
  selection_stage system main_author round_quota.

Definition TARGET_SIZES : list Z := [500; 2000].
Definition RNG_SEED : Z := 123456.

Definition asdict (e : RepoEntry) : dict (option string) :=
  [("entry_id", entry_id e); ("upload_id", upload_id e);
   ("mainfile", mainfile e); ("main_author", main_author e);
   ("system", Some (system e)); ("structural_type", structural_type e)].

Definition fieldnames : list string :=
  ["entry_id"; "upload_id"; "mainfile"; "main_author"; "system";
   "structural_type"].

Definition write_json := write_json asdict.
Definition write_csv := write_csv asdict fieldnames.

Definition json_name (size : Z) : string :=
  "sample_mainauthor_" +:+ pretty size +:+ ".json".
Definition csv_name (size : Z) : string :=
  "sample_mainauthor_" +:+ pretty size +:+ ".csv".

(** [len(set(e.main_author for e in entries if e.main_author is not
    None))] *)
Definition distinct_main_authors (entries : list RepoEntry) : Z :=
  Z.of_nat (size (sample_authors main_author entries)).

Definition main `{PyRandom} (strip : string → string)
    (round_quota : Z → Z → Z → Z)
    (post : nat → option string → response) (fuel : nat) : io () :=
  let rng := Random RNG_SEED in
  all_entries ← fetched (fetch_all_entries strip post fuel);
  if decide (all_entries = []) then print_line ErrorNoEntries
  else
    print_line (GlobalSystems (count_systems system all_entries));;
    print_line (GlobalAuthors (distinct_main_authors all_entries));;
    sample_each_size (main_author_diverse_stratified_sample round_quota)
      asdict fieldnames
      (λ size chosen,
         [SampleSystems size (count_systems system chosen);
          SampleAuthors size (distinct_main_authors chosen)])
      json_name csv_name TARGET_SIZES all_entries rng;;
    print_line Done.
End DistinctAuthors.

(** ** A generator and a rounding to run the functions with

    A linear congruential generator that draws positions without
    replacement, and the rounding of the exact quotient (ties to even, as
    [round] does). *)

Module Lcg.
Definition next (s : Z) : Z := (1103515245 * s + 12345) mod 2147483648.

(** A position below [n], from the high bits of the state. *)
Definition below (s : Z) (n : nat) : nat :=
  Z.to_nat ((s / 65536) mod Z.of_nat n).

Fixpoint draw (k : nat) (s : Z) (pool : list nat) : list nat * Z :=
  match k with
  | O => ([], s)
  | S k' =>
      let s' := next s in
      let j := below s' (length pool) in
      match pool !! j with
      | Some x =>
          let '(r, s'') := draw k' s' (delete j pool) in (x :: r, s'')
      | None => ([], s')
      end
  end.

Definition shuffle_order (s : Z) (n : nat) := draw n s (seq 0 n).
Definition sample_positions (s : Z) (n k : nat) := draw k s (seq 0 n).
End Lcg.

(** [int(round(n / n_total * target_size))] computed on the exact quotient. *)
Definition exact_round_quota (n n_total target_size : Z) : Z :=
  let p := n * target_size in
  let f := p / n_total in
  let r := p mod n_total in
  if decide (2 * r < n_total) then f
  else if decide (n_total < 2 * r) then f + 1
  else if Z.even f then f else f + 1.

(** ** The order the design document asks for

    "Descending size, ties broken by stratum label lexical order." *)
Definition documented_order (size : string → nat) : relation string :=
  λ s1 s2, (size s2 < size s1)%nat ∨ (size s1 = size s2 ∧ String.le s1 s2).

(** ** Vocabulary of the properties *)

(** What the bucketing loop establishes. *)
Record buckets_of {E} (system : E → string) (entries : list E)
    (buckets : dict (list E)) : Prop := {
  buckets_NoDup : NoDup (keys buckets);
  buckets_perm : concat (values buckets) ≡ₚ entries;
  buckets_nonempty : Forall (λ kb, kb.2 ≠ []) buckets;
  buckets_system : Forall (λ kb, Forall (λ e, system e = kb.1) kb.2) buckets;
}.

(** [buckets[s]] for the labels of [buckets.keys()], in any order. *)
Definition bucket_of {E} (buckets : dict (list E)) (s : string) : list E :=
  default [] (dict_get buckets s).

(** What both loops keep invariant: the allocation has exactly the sorted
    labels as keys, once each, and every quota is at least 1. *)
Record alloc_ok (systems : list string) (alloc : dict Z) : Prop := {
  alloc_NoDup : NoDup (keys alloc);
  alloc_keys : keys alloc ≡ₚ systems;
  alloc_ge_1 : Forall (λ v, 1 ≤ v) (values alloc);
}.

(** The state in which the surplus loop stops. *)
Definition removal_post systems alloc (surplus : Z)
    (res : outcome (dict Z)) : Prop :=
  ∃ alloc' removed,
    res = Return alloc' ∧ alloc_ok systems alloc'
    ∧ 0 ≤ removed ≤ surplus
    ∧ sum_values alloc' = sum_values alloc - removed
    ∧ (removed = surplus ∨ any_above_one alloc' = false).

(** What the selection loop keeps invariant about the first-pass picks. *)
Record picks_ok {E} `{PyRandom} (main_author : E → option string)
    (st : selection) : Prop := {
  picks_NoDup : NoDup (main_author <$> first_picks st);
  picks_Some : Forall (λ e, is_Some (main_author e)) (first_picks st);
  picks_used :
    used_authors st = list_to_set (omap main_author (first_picks st));
  picks_selected : ∀ e, e ∈ first_picks st → e ∈ selected st;
}.

(** How the run with the first pass relates to the run without it, at the
    same point of the selection loop. *)
Record selection_covers {E} `{PyRandom} (main_author : E → option string)
    (st st' : selection (E := E)) : Prop := {
  covers_rng : rng st = rng st';
  covers_authors : sample_authors main_author (selected st') ⊆ used_authors st;
  covers_length : length (selected st) = length (selected st');
}.

(** The sample has the size asked for (clamped), no [entry_id] twice, and
    holds entries of the population, none more often than the population
    does. *)
Definition exact_sample {E G K} (entry_id : E → K) (entries : list E)
    (target_size : Z) (res : outcome (list E * G * list notice)) : Prop :=
  ∃ sample g out,
    res = Return (sample, g, out)
    ∧ len sample = Z.min target_size (len entries)
    ∧ NoDup (entry_id <$> sample)
    ∧ sample ⊆+ entries.

(** What the guard at the head of a sampling function does, for a
    function [f] of the entries and the target. *)
Definition guard_behaviour {E G} (f : list E → Z → outcome (list E * G * list notice))
    (entries : list E) (target_size : Z) : Prop :=
  ((∃ e, f entries target_size = Raise e) ↔ (target_size ≤ 0 ∨ entries = []))
  ∧ (target_size ≤ 0 →
     f entries target_size = Raise (ValueError "target_size must be positive"))
  ∧ (0 < target_size → entries = [] →
     f entries target_size
     = Raise (ValueError "no entries available for sampling"))
  ∧ (0 < target_size → entries ≠ [] →
     ∃ sample g out, f entries target_size = Return (sample, g, out)
       ∧ out = (if decide (len entries < target_size)
                then [WarnReduced target_size (len entries)] else [])
       ∧ f entries (Z.min target_size (len entries)) = Return (sample, g, [])).

(** The labels in order of first appearance. *)
Definition first_seen (labels : list string) : list string :=
  foldl (λ seen s, if decide (s ∈ seen) then seen else seen ++ [s]) [] labels.

(** [counts[i]] copies of [labels[i]], one label after the other. *)
Definition in_blocks (counts : list nat) (labels : list string) : list string :=
  concat (zip_with replicate counts labels).

(** The sorted labels: the labels of all strata, by descending bucket size,
    equal sizes in order of first appearance in the population. *)
Definition by_size_then_first_seen {E} (system : E → string)
    (entries : list E) (systems : list string) : Prop :=
  let size := bucket_size (bucket_entries system entries) in
  systems ≡ₚ first_seen (system <$> entries)
  ∧ StronglySorted (descending size) systems
  ∧ ∀ n, filter (λ s, size s = n) systems
         = filter (λ s, size s = n) (first_seen (system <$> entries)).

(** The entry a hit yields, if it yields one. *)
Definition kept {R} (from_api_result : raw_hit → outcome R) (d : raw_hit)
    : option R :=
  match from_api_result d with
  | Return entry => Some entry
  | _ => None
  end.

(** Where the bucketing loop puts the buckets: one after the other, from
    [base] on, in the dictionary's order. *)
Fixpoint buckets_from {E} (base : nat) (buckets : dict (list E)) : dict loc :=
  match buckets with
  | [] => []
  | (k, _) :: buckets' => (k, base) :: buckets_from (S base) buckets'
  end.

(** The bucket lists are in the store where the dictionary says. *)
Definition buckets_in_store {E} (hb : list (list E)) (bl : dict loc)
    (buckets : dict (list E)) : Prop :=
  ∀ s, match dict_get buckets s with
       | Some l => ∃ p, dict_get bl s = Some p ∧ hb !! p = Some l
       | None => dict_get bl s = None
       end.

(** What a run on the store has to do with a run on values: the lists that
    were there before the call are still there, unchanged, and the sample
    is in the store at the location returned. *)
Definition store_run_of {E G} (h : list (list E))
    (run : outcome (loc * G * list notice) * list (list E))
    (value : outcome (list E * G * list notice)) : Prop :=
  h `prefix_of` run.2
  ∧ match value with
    | Return (sample, g, out) =>
        ∃ r, run.1 = Return (r, g, out) ∧ run.2 !! r = Some sample
    | Raise e => run.1 = Raise e
    | OutOfFuel => run.1 = OutOfFuel
    end.

(** One iteration of the loop that distributes the remaining units. *)
Definition add_one (systems : list string) (idx : nat) (alloc : dict Z)
    : outcome (dict Z) :=
  s ← cyclic_item systems idx;
  v ← dict_item alloc s;
  Return (dict_set s (v + 1) alloc).

(** What the strata listed in [l] can take at most under [alloc]. *)
Definition granted (alloc : dict Z) (l : list string) : Z :=
  foldr Z.add 0 ((λ s, Z.max 0 (default 0 (dict_get alloc s))) <$> l).

(** The first [k] responses the fetch loop receives when it starts with
    request number [n] and cursor [page_after_value], as long as it goes on:
    each request carries the [next_page_after_value] of the response
    before. *)
Fixpoint responses (post : nat → option string → response) (n : nat)
    (page_after_value : option string) (k : nat) : list response :=
  match k with
  | O => []
  | S k' =>
      let resp := post n page_after_value in
      resp :: responses post (S n) (next_page_after_value resp) k'
  end.

(** [raise_for_status()] raises. *)
Definition refused (resp : response) : Prop := 400 ≤ status_code resp < 600.

(** A response after which the loop sends another request. *)
Definition continues (resp : response) : Prop :=
  ¬ refused resp ∧ data resp ≠ []
  ∧ match next_page_after_value resp with
    | Some next_val => next_val ≠ ""
    | None => False
    end.

(** A response at which the loop ends normally. *)
Definition last_page (resp : response) : Prop :=
  ¬ refused resp
  ∧ (data resp = [] ∨ next_page_after_value resp = None
     ∨ next_page_after_value resp = Some "").

(** The [[page]] lines the loop prints for [pages], from page number
    [page] and [total] entries on. *)
Fixpoint page_lines {R} (from_api_result : raw_hit → outcome R)
    (pages : list (list raw_hit)) (page total : Z) : list line :=
  match pages with
  | [] => []
  | hits :: pages' =>
      let total' := total + len (omap (kept from_api_result) hits) in
      PageLine (page + 1) (len hits) total'
      :: page_lines from_api_result pages' (page + 1) total'
  end.

(** The file system after [write_json] and [write_csv] have written the
    sample [chosen] for [size], with [row] the cells of an entry. *)
Definition with_sample_files {E} (asdict : E → dict (option string))
    (fieldnames : list string) (row : E → list string)
    (json_name csv_name : Z → string) (size : Z) (chosen : list E)
    (fs : dict file) : dict file :=
  dict_set (csv_name size) (CsvFile fieldnames (row <$> chosen))
    (dict_set (json_name size) (JsonFile (asdict <$> chosen)) fs).

(** The values of a record in order, [None] as the empty string. *)
Definition cells (rowdict : dict (option string)) : list string :=
  default "" <$> values rowdict.

(** The last character of a string. *)
Fixpoint string_last (s : string) : option Ascii.ascii :=
  match s with
  | EmptyString => None
  | String c EmptyString => Some c
  | String _ s' => string_last s'
  end.

(** How often the stratum at position [i] of [L] strata has had its turn
    after [n] iterations of a loop that goes round the strata. *)
Definition turns (L n i : nat) : nat :=
  (n / L + (if decide (i < n mod L) then 1 else 0))%nat.

(** What the fix-up makes of the initial quotas when it goes round
    [systems] from its first label on: short of the target, every turn
    gives a stratum one unit, and all [target_size - current] units are
    handed out; above the target, every turn takes one unit from a stratum
    unless its quota is 1 already.  [n] is the number of iterations. *)
Definition fixed_up_in_order (systems : list string) (initial alloc : dict Z)
    (target_size : Z) : Prop :=
  let L := length systems in
  let current := sum_values initial in
  keys alloc = keys initial
  ∧ sum_values alloc = Z.max target_size (len systems)
  ∧ ∃ n : nat,
      (current ≤ target_size → n = Z.to_nat (target_size - current))
      ∧ ∀ i s v,
          systems !! i = Some s → dict_get initial s = Some v →
          dict_get alloc s
          = Some (if decide (current ≤ target_size)
                  then v + Z.of_nat (turns L n i)
                  else Z.max 1 (v - Z.of_nat (turns L n i))).

(** Two runs on stores end alike: both return, with the same output and
    the generator in the same state, lists with the same contents in the
    same order, or both raise the same exception. *)
Definition same_result {E G}
    (run1 run2 : outcome (loc * G * list notice) * list (list E)) : Prop :=
  match run1.1, run2.1 with
  | Return (r1, g1, out1), Return (r2, g2, out2) =>
      g1 = g2 ∧ out1 = out2
      ∧ ∃ sample, run1.2 !! r1 = Some sample ∧ run2.2 !! r2 = Some sample
  | Raise e1, Raise e2 => e1 = e2
  | OutOfFuel, OutOfFuel => True
  | _, _ => False
  end.

(** A call, and the same call made again in the store the first one left:
    the second call ends like the first, its list is another object than
    the list of the first call, and the list of the first call is still
    what it was. *)
Definition called_again {E G}
    (run1 again : outcome (loc * G * list notice) * list (list E)) : Prop :=
  same_result run1 again
  ∧ ∀ r1 g out,
      run1.1 = Return (r1, g, out) →
      ∃ r2 sample,
        again.1 = Return (r2, g, out) ∧ r1 ≠ r2
        ∧ run1.2 !! r1 = Some sample
        ∧ again.2 !! r1 = Some sample ∧ again.2 !! r2 = Some sample.

(** ** Inputs to run the functions on *)

(** A small population for each script, used to run the functions. *)
Definition orca (id s : string) : Script.RepoEntry :=
  {| Script.entry_id := Some id; Script.upload_id := None;
     Script.mainfile := None; Script.system := s;
     Script.structural_type := Some s |}.

Definition authored (id : string) (a : option string) (s : string)
    : DistinctAuthors.RepoEntry :=
  {| DistinctAuthors.entry_id := Some id; DistinctAuthors.upload_id := None;
     DistinctAuthors.mainfile := None; DistinctAuthors.main_author := a;
     DistinctAuthors.system := s; DistinctAuthors.structural_type := Some s |}.

Definition orca_population : list Script.RepoEntry :=
  [orca "e1" "molecule"; orca "e2" "bulk"; orca "e3" "molecule";
   orca "e4" "molecule"; orca "e5" "2D"].

Definition authored_population : list DistinctAuthors.RepoEntry :=
  [authored "a0" (Some "X") "A"; authored "a1" (Some "X") "A";
   authored "b0" (Some "X") "B"; authored "b1" (Some "Y") "B";
   authored "c0" (Some "Y") "C"].

(** Three strata of one entry each. *)
Definition three_strata : list Script.RepoEntry :=
  [orca "e1" "a"; orca "e2" "b"; orca "e3" "c"].

(** Three entries of one stratum that share their author. *)
Definition one_author : list DistinctAuthors.RepoEntry :=
  [authored "e1" (Some "X") "A"; authored "e2" (Some "X") "A";
   authored "e3" (Some "X") "A"].

(** Two strata of the same size, the lexically larger label first. *)
Definition tied_strata : list Script.RepoEntry :=
  [orca "e1" "b"; orca "e2" "a"].

(** A small stratum in front of a larger one. *)
Definition small_first : list Script.RepoEntry :=
  [orca "e1" "s"; orca "e2" "b"; orca "e3" "b"].

(** A server that answers every request with one page of [hits] and no
    [next_page_after_value]. *)
Definition one_page (hits : list raw_hit) : nat → option string → response :=
  λ _ _, Response 200 hits None.

Definition good_hit : raw_hit :=
  RawHit (Some (Some "e1")) (Some "u1") (Some "mol.out") None
    (Some (RawResults (Some (RawMaterial (Some "molecule"))))).

(** A hit that has no key [entry_id]. *)
Definition hit_without_id : raw_hit :=
  RawHit None (Some "u2") (Some "bulk.out") None None.

(** A hit whose [entry_id] is null. *)
Definition hit_with_null_id : raw_hit :=
  RawHit (Some None) (Some "u3") (Some "null.out") None None.

(** The caller's store: some list, then the population. *)
Definition callers_store : list (list Script.RepoEntry) :=
  [[orca "x" "y"]; orca_population].

Definition other_hit : raw_hit :=
  RawHit (Some (Some "e2")) None None (Some (AuthorStr " A. Author "))
    (Some (RawResults None)).

(** A server with two pages: the second is sent to the request that
    carries the cursor of the first. *)
Definition two_pages : nat → option string → response :=
  λ _ page_after_value,
    match page_after_value with
    | None => Response 200 [good_hit; hit_without_id] (Some "e1")
    | Some _ => Response 200 [other_hit] None
    end.

(** A server that sends the same page and the same cursor for ever. *)
Definition same_page_for_ever : nat → option string → response :=
  λ _ _, Response 200 [good_hit] (Some "e1").

(** A server that fails on the second request. *)
Definition fails_on_second : nat → option string → response :=
  λ n _, match n with
         | O => Response 200 [good_hit] (Some "e1")
         | S _ => Response 502 [] None
         end.

(** A hit whose main author is an object with a blank name. *)
Definition object_hit : raw_hit :=
  RawHit (Some (Some "e3")) None None
    (Some (AuthorObj (Some "") (Some "a@b.c") "{...}")) None.

(** * Properties *)

(** ** Outcomes *)

Lemma bind_Return {A B} (f : A → outcome B) (m : outcome A) (b : B) :
  m ≫= f = Return b → ∃ a, m = Return a ∧ f a = Return b.
Proof. destruct m; [eauto | done | done]. Qed.

(** ** Positions *)

Section positions.
Context {A : Type}.
Implicit Types (l : list A) (ps : list nat).

Lemma at_positions_shift x l ps :
  at_positions (x :: l) (S <$> ps) = at_positions l ps.
Proof.
  unfold at_positions. induction ps as [|p ps IH]; [done|].
  cbn. by rewrite IH.
Qed.

Lemma at_positions_seq l : at_positions l (seq 0 (length l)) = l.
Proof.
  induction l as [|x l IH]; [done|].
  cbn [length seq]. rewrite <- fmap_S_seq.
  unfold at_positions at 1. cbn. fold (at_positions (x :: l) (S <$> seq 0 (length l))).
  by rewrite at_positions_shift, IH.
Qed.

Lemma at_positions_length l ps :
  Forall (λ i, i < length l)%nat ps → length (at_positions l ps) = length ps.
Proof.
  unfold at_positions. induction 1 as [|p ps Hp _ IH]; [done|].
  cbn. destruct (lookup_lt_is_Some_2 l p Hp) as [x ->]. cbn. by rewrite IH.
Qed.

#[global] Instance at_positions_Permutation l :
  Proper ((≡ₚ) ==> (≡ₚ)) (at_positions l).
Proof.
  unfold at_positions. induction 1 as [|p ps qs _ IH|p q ps|ps qs rs _ IH1 _ IH2].
  - done.
  - cbn. destruct (l !! p); cbn; by rewrite IH.
  - cbn. destruct (l !! p), (l !! q); cbn; try done. apply Permutation_swap.
  - by etrans.
Qed.

Lemma at_positions_submseteq_mono l ps qs :
  ps ⊆+ qs → at_positions l ps ⊆+ at_positions l qs.
Proof.
  unfold at_positions. induction 1 as [|p ps qs _ IH|p q ps|p ps qs _ IH|ps qs rs _ IH1 _ IH2].
  - done.
  - cbn. destruct (l !! p); cbn; [by apply submseteq_skip|done].
  - cbn. destruct (l !! p), (l !! q); cbn; try done. apply submseteq_swap.
  - cbn. destruct (l !! p); cbn; [by apply submseteq_cons|done].
  - by etrans.
Qed.

Lemma at_positions_submseteq l ps :
  NoDup ps → Forall (λ i, i < length l)%nat ps → at_positions l ps ⊆+ l.
Proof.
  intros Hnd Hlt. rewrite <- (at_positions_seq l) at 2.
  apply at_positions_submseteq_mono, NoDup_submseteq; [done|].
  intros i Hi. apply elem_of_seq. rewrite Forall_forall in Hlt.
  specialize (Hlt i Hi). lia.
Qed.
End positions.

Section rng_facts.
Context `{PyRandom} {A : Type}.
Implicit Types (l : list A) (g : rng_state).

Lemma rng_shuffle_perm g l : (rng_shuffle g l).1 ≡ₚ l.
Proof.
  unfold rng_shuffle. pose proof (shuffle_order_perm g (length l)) as Hp.
  destruct (shuffle_order g (length l)) as [ps g']. cbn in *.
  by rewrite Hp, at_positions_seq.
Qed.

Lemma rng_sample_Return g l k :
  0 ≤ k ≤ len l →
  ∃ r g', rng_sample g l k = Return (r, g') ∧ r ⊆+ l ∧ len r = k.
Proof.
  intros Hk. unfold rng_sample. rewrite decide_True by done.
  assert (Z.to_nat k ≤ length l)%nat as Hle by lia.
  pose proof (sample_positions_length g _ _ Hle) as Hlen.
  pose proof (sample_positions_NoDup g _ _ Hle) as Hnd.
  pose proof (sample_positions_bound g _ _ Hle) as Hb.
  destruct (sample_positions g (length l) (Z.to_nat k)) as [ps g']. cbn in *.
  eexists _, _. split; [done|]. split.
  - by apply at_positions_submseteq.
  - rewrite at_positions_length by done. lia.
Qed.
End rng_facts.

(** ** Dictionaries *)

Section dict_facts.
Context {V : Type}.
Implicit Types (d : dict V) (k : string) (v : V).

Lemma dict_get_Some_elem d k v : dict_get d k = Some v → (k, v) ∈ d.
Proof.
  induction d as [|[k' v'] d IH]; [done|]. cbn. case_decide.
  - intros [= ->]. subst. left.
  - intros Hg. right. auto.
Qed.

Lemma dict_get_is_Some d k : is_Some (dict_get d k) ↔ k ∈ keys d.
Proof.
  unfold keys. induction d as [|[k' v'] d IH]; cbn.
  - split; [by intros [] | by intros ?%elem_of_nil].
  - case_decide; subst.
    + split; [left | eauto].
    + rewrite IH. split; [by right | by intros [?|?]%elem_of_cons].
Qed.

Lemma dict_get_None d k : dict_get d k = None ↔ k ∉ keys d.
Proof. rewrite <- dict_get_is_Some, eq_None_not_Some. done. Qed.

Lemma elem_dict_get d k v : NoDup (keys d) → (k, v) ∈ d → dict_get d k = Some v.
Proof.
  unfold keys. induction d as [|[k' v'] d IH]; cbn.
  - by intros _ ?%elem_of_nil.
  - intros [Hk Hnd]%NoDup_cons [[= -> ->]|Hin]%elem_of_cons.
    + by rewrite decide_True.
    + rewrite decide_False; [auto|].
      intros ->. apply Hk. apply list_elem_of_fmap. by exists (k, v).
Qed.

Lemma dict_set_keys_present d k v : k ∈ keys d → keys (dict_set k v d) = keys d.
Proof.
  unfold keys. induction d as [|[k' v'] d IH]; cbn.
  - by intros ?%elem_of_nil.
  - intros Hin. case_decide; subst; cbn; [done|].
    f_equal. apply IH. by apply elem_of_cons in Hin as [?|?].
Qed.

Lemma dict_set_absent d k v : k ∉ keys d → dict_set k v d = d ++ [(k, v)].
Proof.
  unfold keys. induction d as [|[k' v'] d IH]; cbn; [done|].
  intros Hin. apply not_elem_of_cons in Hin as [? ?].
  rewrite decide_False by done. by rewrite IH.
Qed.

Lemma dict_get_set d k v k' :
  dict_get (dict_set k v d) k' = if decide (k = k') then Some v else dict_get d k'.
Proof.
  induction d as [|[k0 v0] d IH]; cbn.
  - repeat case_decide; congruence.
  - repeat (case_decide; cbn; subst); try congruence.
    all: rewrite IH; by repeat case_decide.
Qed.

Lemma dict_set_Forall (P : V → Prop) d k v :
  Forall P (values d) → P v → Forall P (values (dict_set k v d)).
Proof.
  unfold values. induction d as [|[k' v'] d IH]; cbn.
  - intros _ ?. by repeat constructor.
  - intros [? ?]%Forall_cons ?. case_decide; cbn; constructor; auto.
Qed.

Lemma dict_get_Forall (P : V → Prop) d k v :
  Forall P (values d) → dict_get d k = Some v → P v.
Proof.
  intros HF Hg%dict_get_Some_elem. rewrite Forall_forall in HF.
  apply HF. unfold values. apply list_elem_of_fmap. by exists (k, v).
Qed.

Lemma dict_set_length_present d k v :
  k ∈ keys d → length (dict_set k v d) = length d.
Proof.
  intros Hk%(dict_set_keys_present _ _ v).
  apply (f_equal length) in Hk. unfold keys in Hk.
  by rewrite !length_fmap in Hk.
Qed.
End dict_facts.

Lemma sum_values_set (alloc : dict Z) k v v' :
  dict_get alloc k = Some v →
  sum_values (dict_set k v' alloc) = sum_values alloc - v + v'.
Proof.
  unfold sum_values, values. induction alloc as [|[k0 v0] d IH]; cbn; [done|].
  case_decide; cbn.
  - intros [= ->]. lia.
  - intros Hg. rewrite IH by done. lia.
Qed.

Lemma sum_values_ge (alloc : dict Z) :
  Forall (λ v, 1 ≤ v) (values alloc) → len alloc ≤ sum_values alloc.
Proof.
  unfold sum_values, values. induction alloc as [|[k0 v0] d IH]; cbn; [done|].
  intros [? ?]%Forall_cons. specialize (IH ltac:(done)). lia.
Qed.

Lemma sum_values_all_one (alloc : dict Z) :
  Forall (λ v, 1 ≤ v) (values alloc) → any_above_one alloc = false →
  sum_values alloc = len alloc.
Proof.
  unfold sum_values, any_above_one, values.
  induction alloc as [|[k0 v0] d IH]; cbn; [done|].
  intros [? ?]%Forall_cons [Hv ?]%orb_false_iff.
  apply bool_decide_eq_false in Hv. rewrite IH by done. lia.
Qed.

Lemma any_above_one_true (alloc : dict Z) :
  NoDup (keys alloc) → any_above_one alloc = true →
  ∃ k v, dict_get alloc k = Some v ∧ 1 < v.
Proof.
  intros Hnd Hex. unfold any_above_one in Hex.
  apply existsb_exists in Hex as (v & Hin & Hv).
  apply bool_decide_eq_true in Hv. apply list_elem_of_In in Hin.
  unfold values in Hin. apply list_elem_of_fmap in Hin as ([k v'] & -> & Hin).
  exists k, v'. split; [|done]. by apply elem_dict_get.
Qed.

(** ** Sorting *)

Section sorting_facts.
Context {A : Type} (key : A → nat).
Implicit Types (x : A) (l : list A).

Lemma insert_desc_perm x l : insert_desc key x l ≡ₚ x :: l.
Proof.
  induction l as [|y l IH]; cbn; [done|].
  case_decide; [done|]. rewrite IH. apply Permutation_swap.
Qed.

Lemma sorted_reverse_perm l : sorted_reverse key l ≡ₚ l.
Proof.
  induction l as [|x l IH]; cbn; [done|].
  by rewrite insert_desc_perm, IH.
Qed.

Lemma insert_desc_sorted x l :
  StronglySorted (descending key) l → StronglySorted (descending key) (insert_desc key x l).
Proof.
  induction 1 as [|y l Hs IH Hy]; cbn.
  - repeat constructor.
  - case_decide as Hxy.
    + constructor; [by constructor|]. constructor; [done|].
      eapply Forall_impl; [exact Hy|]. unfold descending. cbn. lia.
    + constructor; [done|]. rewrite insert_desc_perm.
      constructor; [unfold descending; lia | done].
Qed.

Lemma sorted_reverse_sorted l : StronglySorted (descending key) (sorted_reverse key l).
Proof.
  induction l as [|x l IH]; cbn; [constructor | by apply insert_desc_sorted].
Qed.

(** Stability: elements with the same key keep their order. *)
Lemma insert_desc_stable (n : nat) x l :
  StronglySorted (descending key) l →
  filter (λ y, key y = n) (insert_desc key x l)
  = filter (λ y, key y = n) (x :: l).
Proof.
  induction 1 as [|y l Hs IH Hy]; cbn; [done|].
  case_decide as Hxy; [done|].
  rewrite !filter_cons. rewrite IH. rewrite filter_cons.
  destruct (decide (key y = n)), (decide (key x = n)); try done.
  lia.
Qed.

Lemma sorted_reverse_stable (n : nat) l :
  filter (λ y, key y = n) (sorted_reverse key l) = filter (λ y, key y = n) l.
Proof.
  induction l as [|x l IH]; [done|].
  change (sorted_reverse key (x :: l))
    with (insert_desc key x (sorted_reverse key l)).
  rewrite insert_desc_stable by apply sorted_reverse_sorted.
  by rewrite !filter_cons, IH.
Qed.
End sorting_facts.

(** ** Bucketing *)

Section bucket_facts.
Context {E : Type} (system : E → string).
Implicit Types (e : E) (entries : list E) (buckets : dict (list E)).

Lemma setdefault_append_keys k e buckets :
  keys (setdefault_append k e buckets)
  = if decide (k ∈ keys buckets) then keys buckets else keys buckets ++ [k].
Proof.
  unfold keys. induction buckets as [|[k' b] buckets IH]; cbn.
  - rewrite decide_False; [done | apply not_elem_of_nil].
  - destruct (decide (k' = k)) as [->|Hne]; cbn.
    + rewrite decide_True; [done | left].
    + rewrite IH. destruct (decide (k ∈ buckets.*1)) as [Hin|Hin].
      * rewrite decide_True; [done | by right].
      * rewrite decide_False; [done|]. by intros [?|?]%elem_of_cons.
Qed.

Lemma setdefault_append_concat k e buckets :
  concat (values (setdefault_append k e buckets))
  ≡ₚ e :: concat (values buckets).
Proof.
  unfold values. induction buckets as [|[k' b] buckets IH]; cbn; [done|].
  case_decide; cbn.
  - rewrite <- app_assoc. cbn.
    by rewrite <- Permutation_middle.
  - rewrite IH. by rewrite <- Permutation_middle.
Qed.

Lemma setdefault_append_Forall (P : string → list E → Prop) k e buckets :
  (∀ b, P k b → P k (b ++ [e])) → P k [e] →
  Forall (λ kb, P kb.1 kb.2) buckets →
  Forall (λ kb, P kb.1 kb.2) (setdefault_append k e buckets).
Proof.
  intros Happ Hnew. induction 1 as [|[k' b] buckets Hb Hrest IH]; cbn.
  - by repeat constructor.
  - case_decide; subst; constructor; cbn in *; auto.
Qed.

Lemma bucket_entries_snoc entries e :
  bucket_entries system (entries ++ [e])
  = setdefault_append (system e) e (bucket_entries system entries).
Proof. unfold bucket_entries. by rewrite foldl_app. Qed.

Lemma bucket_entries_spec entries :
  buckets_of system entries (bucket_entries system entries).
Proof.
  induction entries as [|e entries IH] using rev_ind.
  - split; cbn; try constructor; done.
  - rewrite bucket_entries_snoc. destruct IH as [Hnd Hperm Hne Hsys]. split.
    + rewrite setdefault_append_keys. case_decide; [done|].
      apply NoDup_app. split; [done|]. split; [|apply NoDup_singleton].
      intros x Hx ->%list_elem_of_singleton. done.
    + rewrite setdefault_append_concat, Hperm.
      by rewrite <- Permutation_cons_append.
    + apply (setdefault_append_Forall (λ _ b, b ≠ [])); [| |done].
      * by intros [|??] _.
      * done.
    + apply (setdefault_append_Forall (λ k b, Forall (λ e, system e = k) b));
        [| |done].
      * intros b Hb. apply Forall_app. split; [done|]. by repeat constructor.
      * by repeat constructor.
Qed.

Lemma bucket_entries_nonempty entries :
  entries ≠ [] → bucket_entries system entries ≠ [].
Proof.
  intros Hne Hb. pose proof (buckets_perm _ _ _ (bucket_entries_spec entries)) as Hp.
  rewrite Hb in Hp. cbn in Hp. by apply Permutation_nil_l in Hp.
Qed.
End bucket_facts.

(** ** Allocation *)

Section alloc_facts.
Context {E : Type} (round_quota : Z → Z → Z → Z).
Implicit Types (buckets : dict (list E)) (alloc : dict Z).
Implicit Types (systems : list string).

Lemma initial_quota_ge_1 (bucket : list E) n_total target_size :
  bucket ≠ [] → 1 ≤ initial_quota round_quota bucket n_total target_size.
Proof.
  intros Hne. unfold initial_quota. cbv zeta. case_decide as Hk; [done|].
  assert (0 < len bucket) by (destruct bucket; [done | cbn [length]; lia]).
  lia.
Qed.

Lemma initial_alloc_from (acc : dict Z) buckets n_total target_size :
  NoDup (keys acc ++ keys buckets) →
  foldl (λ alloc '(system, bucket),
           dict_set system
             (initial_quota round_quota bucket n_total target_size) alloc)
        acc buckets
  = acc ++ ((λ kb, (kb.1, initial_quota round_quota kb.2 n_total target_size))
              <$> buckets).
Proof.
  revert acc. induction buckets as [|[k b] buckets IH]; intros acc Hnd; cbn.
  - by rewrite app_nil_r.
  - cbn in Hnd. rewrite dict_set_absent.
    + rewrite IH.
      * by rewrite <- app_assoc.
      * unfold keys in *. rewrite fmap_app, <- app_assoc. done.
    + apply NoDup_app in Hnd as (_ & Hd & _). intros Hk.
      apply (Hd k Hk). left.
Qed.

Lemma initial_alloc_fmap buckets n_total target_size :
  NoDup (keys buckets) →
  initial_alloc round_quota buckets n_total target_size
  = (λ kb, (kb.1, initial_quota round_quota kb.2 n_total target_size))
      <$> buckets.
Proof. intros Hnd. unfold initial_alloc. by rewrite initial_alloc_from. Qed.

Lemma initial_alloc_keys buckets n_total target_size :
  NoDup (keys buckets) →
  keys (initial_alloc round_quota buckets n_total target_size) = keys buckets.
Proof.
  intros Hnd. rewrite initial_alloc_fmap by done. unfold keys.
  rewrite <- list_fmap_compose. done.
Qed.

Lemma initial_alloc_ge_1 buckets n_total target_size :
  NoDup (keys buckets) → Forall (λ kb, kb.2 ≠ []) buckets →
  Forall (λ v, 1 ≤ v)
    (values (initial_alloc round_quota buckets n_total target_size)).
Proof.
  intros Hnd Hne. rewrite initial_alloc_fmap by done. unfold values.
  rewrite <- list_fmap_compose. apply Forall_fmap.
  eapply Forall_impl; [exact Hne|]. intros [k b] Hb. cbn in *.
  by apply initial_quota_ge_1.
Qed.
End alloc_facts.

(** ** The two fix-up loops *)

Section loop_facts.
Implicit Types (alloc : dict Z) (systems : list string).

Lemma alloc_ok_set systems alloc s v :
  alloc_ok systems alloc → s ∈ systems → 1 ≤ v →
  alloc_ok systems (dict_set s v alloc).
Proof.
  intros [Hnd Hk Hge] Hs Hv. rewrite <- Hk in Hs. split.
  - by rewrite dict_set_keys_present.
  - by rewrite dict_set_keys_present.
  - by apply dict_set_Forall.
Qed.

Lemma alloc_ok_length systems alloc :
  alloc_ok systems alloc → length alloc = length systems.
Proof.
  intros [_ Hk _]. apply Permutation_length in Hk. unfold keys in Hk.
  by rewrite length_fmap in Hk.
Qed.

Lemma cyclic_item_Return systems idx :
  systems ≠ [] →
  ∃ s, cyclic_item systems idx = Return s
       ∧ systems !! (idx mod length systems)%nat = Some s.
Proof.
  intros Hne. unfold cyclic_item.
  assert (idx mod length systems < length systems)%nat as Hlt.
  { apply Nat.mod_upper_bound. by destruct systems. }
  destruct (lookup_lt_is_Some_2 _ _ Hlt) as [s Hs]. rewrite Hs. eauto.
Qed.

Lemma alloc_ok_item systems alloc s :
  alloc_ok systems alloc → s ∈ systems →
  ∃ v, dict_get alloc s = Some v ∧ dict_item alloc s = Return v ∧ 1 ≤ v.
Proof.
  intros [Hnd Hk Hge] Hs. rewrite <- Hk in Hs.
  apply dict_get_is_Some in Hs as [v Hv]. exists v.
  unfold dict_item. rewrite Hv. split_and!; [done..|].
  by eapply (dict_get_Forall (λ v, 1 ≤ v)).
Qed.

Lemma distribute_remaining_spec systems remaining idx alloc :
  systems ≠ [] → alloc_ok systems alloc →
  ∃ alloc', distribute_remaining systems remaining idx alloc = Return alloc'
    ∧ alloc_ok systems alloc'
    ∧ sum_values alloc' = sum_values alloc + Z.of_nat remaining.
Proof.
  intros Hne. revert idx alloc.
  induction remaining as [|r IH]; intros idx alloc Hok; cbn.
  - exists alloc. split_and!; [done..|lia].
  - destruct (cyclic_item_Return systems idx Hne) as (s & -> & Hs). cbn.
    apply list_elem_of_lookup_2 in Hs.
    destruct (alloc_ok_item _ _ _ Hok Hs) as (v & Hget & -> & Hv). cbn.
    destruct (IH (S idx) (dict_set s (v + 1) alloc)) as (alloc' & -> & Hok' & Hsum).
    { apply alloc_ok_set; [done..|lia]. }
    exists alloc'. split_and!; [done..|].
    rewrite Hsum, (sum_values_set _ _ v) by done. lia.
Qed.

Lemma remove_surplus_unfold fuel systems surplus idx alloc :
  remove_surplus fuel systems surplus idx alloc
  = if bool_decide (0 < surplus) && any_above_one alloc then
      match fuel with
      | O => OutOfFuel
      | S fuel' =>
          s ← cyclic_item systems idx;
          v ← dict_item alloc s;
          if decide (1 < v) then
            remove_surplus fuel' systems (surplus - 1) (S idx)
              (dict_set s (v - 1) alloc)
          else remove_surplus fuel' systems surplus (S idx) alloc
      end
    else Return alloc.
Proof. by destruct fuel. Qed.

(** Some position at most [length systems - 1] steps ahead of [idx] holds
    any given label. *)
Lemma cyclic_reach systems idx s :
  s ∈ systems →
  ∃ d, (d < length systems)%nat
       ∧ systems !! ((idx + d) mod length systems)%nat = Some s.
Proof.
  intros (j & Hj)%list_elem_of_lookup_1.
  pose proof (lookup_lt_Some _ _ _ Hj) as Hlt.
  set (L := length systems) in *.
  exists ((j + L - idx mod L) mod L)%nat. split.
  - apply Nat.mod_upper_bound. lia.
  - rewrite Nat.Div0.add_mod_idemp_r.
    pose proof (Nat.div_mod_eq idx L) as Hdm.
    pose proof (Nat.mod_upper_bound idx L ltac:(lia)) as Hr.
    replace (idx + (j + L - idx mod L))%nat
      with (j + (idx / L + 1) * L)%nat by nia.
    rewrite Nat.Div0.mod_add, Nat.mod_small by done. done.
Qed.

Lemma remove_surplus_spec systems (n : nat) :
  systems ≠ [] →
  ∀ surplus idx alloc fuel,
    Z.to_nat surplus = n → 0 ≤ surplus → alloc_ok systems alloc →
    (n * length systems ≤ fuel)%nat →
    removal_post systems alloc surplus
      (remove_surplus fuel systems surplus idx alloc).
Proof.
  intros Hne. induction n as [|n IHn]; intros surplus idx alloc fuel Hn H0 Hok Hfuel.
  - rewrite remove_surplus_unfold.
    rewrite bool_decide_eq_false_2 by lia. cbn.
    exists alloc, 0. split_and!; try done; lia.
  - destruct (any_above_one alloc) eqn:Hany; cycle 1.
    { rewrite remove_surplus_unfold, Hany, andb_false_r.
      exists alloc, 0. split_and!; try done; try lia. by right. }
    destruct (any_above_one_true _ (alloc_NoDup _ _ Hok) Hany)
      as (s0 & v0 & Hget0 & Hv0).
    assert (s0 ∈ systems) as Hs0.
    { rewrite <- (alloc_keys _ _ Hok). apply dict_get_is_Some. eauto. }
    destruct (cyclic_reach systems idx s0 Hs0) as (d & Hd & Hreach).
    assert (d + 1 + n * length systems ≤ fuel)%nat as Hfuel' by lia.
    clear Hfuel Hd. revert idx fuel Hreach Hfuel'.
    induction d as [|d IHd]; intros idx fuel Hreach Hfuel.
    all: rewrite remove_surplus_unfold, Hany.
    all: rewrite bool_decide_eq_true_2 by lia; cbn [andb].
    all: destruct fuel as [|fuel]; [lia|].
    all: destruct (cyclic_item_Return systems idx Hne) as (s & -> & Hs); cbn.
    all: pose proof (list_elem_of_lookup_2 _ _ _ Hs) as Hin.
    all: destruct (alloc_ok_item _ _ _ Hok Hin) as (v & Hget & -> & Hv); cbn.
    all: case_decide as Hv1.
    1,3: destruct (IHn (surplus - 1) (S idx) (dict_set s (v - 1) alloc) fuel)
           as (alloc' & removed & -> & Hok' & Hrem & Hsum & Hstop);
         [lia | lia | apply alloc_ok_set; [done..|lia] | lia |];
         exists alloc', (removed + 1); split_and!; try done; try lia;
         [ rewrite Hsum, (sum_values_set _ _ v) by done; lia
         | destruct Hstop; [left; lia | by right] ].
    + rewrite Nat.add_0_r in Hreach. congruence.
    + apply IHd; [|lia]. by replace (S idx + d)%nat with (idx + S d)%nat by lia.
Qed.
End loop_facts.

Section allocate_facts.
Context {E : Type} (system : E → string) (round_quota : Z → Z → Z → Z).
Implicit Types (entries : list E) (alloc : dict Z) (systems : list string).

Lemma adjust_alloc_spec systems alloc target_size :
  systems ≠ [] → alloc_ok systems alloc →
  ∃ alloc', adjust_alloc systems alloc target_size = Return alloc'
    ∧ alloc_ok systems alloc'
    ∧ sum_values alloc' = Z.max target_size (len systems).
Proof.
  intros Hne Hok. unfold adjust_alloc. cbv zeta.
  pose proof (sum_values_ge _ (alloc_ge_1 _ _ Hok)) as Hge.
  rewrite (alloc_ok_length _ _ Hok) in Hge.
  case_decide as Hlt; [|case_decide as Hgt].
  - destruct (distribute_remaining_spec systems
                (Z.to_nat (target_size - sum_values alloc)) 0 alloc Hne Hok)
      as (alloc' & -> & Hok' & Hsum).
    exists alloc'. split_and!; [done..|]. lia.
  - destruct (remove_surplus_spec systems
                (Z.to_nat (sum_values alloc - target_size)) Hne
                (sum_values alloc - target_size) 0%nat alloc
                (Z.to_nat (sum_values alloc - target_size) * length systems)%nat)
      as (alloc' & removed & -> & Hok' & Hrem & Hsum & Hstop);
      [done | lia | done | done |].
    exists alloc'. split_and!; [done..|].
    pose proof (sum_values_ge _ (alloc_ge_1 _ _ Hok')) as Hge'.
    rewrite (alloc_ok_length _ _ Hok') in Hge'.
    destruct Hstop as [->|Hnone]; [lia|].
    rewrite (sum_values_all_one _ (alloc_ge_1 _ _ Hok') Hnone) in *.
    rewrite (alloc_ok_length _ _ Hok') in *. lia.
  - exists alloc. split_and!; [done..|]. lia.
Qed.

Lemma systems_sorted_perm (buckets : dict (list E)) :
  systems_sorted buckets ≡ₚ keys buckets.
Proof. apply sorted_reverse_perm. Qed.

Lemma initial_alloc_ok entries n_total target_size :
  let buckets := bucket_entries system entries in
  alloc_ok (systems_sorted buckets)
    (initial_alloc round_quota buckets n_total target_size).
Proof.
  intros buckets. destruct (bucket_entries_spec system entries) as [Hnd _ Hne _].
  split.
  - by rewrite initial_alloc_keys.
  - by rewrite initial_alloc_keys, systems_sorted_perm.
  - by apply initial_alloc_ge_1.
Qed.

Lemma systems_sorted_nonempty entries :
  entries ≠ [] → systems_sorted (bucket_entries system entries) ≠ [].
Proof.
  intros Hne Hs. apply (bucket_entries_nonempty system) in Hne.
  pose proof (systems_sorted_perm (bucket_entries system entries)) as Hp.
  rewrite Hs in Hp. apply Permutation_nil_l in Hp.
  unfold keys in Hp. symmetry in Hp. by apply fmap_nil_inv in Hp.
Qed.

Lemma allocate_spec entries target_size :
  entries ≠ [] →
  let buckets := bucket_entries system entries in
  let systems := systems_sorted buckets in
  ∃ alloc,
    allocate system round_quota entries target_size
    = Return (buckets, alloc, systems)
    ∧ alloc_ok systems alloc
    ∧ sum_values alloc = Z.max target_size (len systems).
Proof.
  intros Hne buckets systems. unfold allocate. cbv zeta.
  destruct (adjust_alloc_spec systems
              (initial_alloc round_quota buckets (len entries) target_size)
              target_size) as (alloc & Hadj & Hok & Hsum).
  { by apply systems_sorted_nonempty. }
  { apply initial_alloc_ok. }
  fold buckets. fold systems. rewrite Hadj. cbn. eauto.
Qed.

Lemma check_target_Return entries target_size :
  entries ≠ [] → 1 ≤ target_size →
  ∃ out, check_target entries target_size
         = Return (Z.min target_size (len entries), out).
Proof.
  intros Hne Ht. unfold check_target. cbv zeta.
  rewrite decide_False by lia.
  rewrite decide_False by (destruct entries; [done | cbn [length]; lia]).
  case_decide; eexists; do 2 f_equal; lia.
Qed.
End allocate_facts.

(** ** Trim and top-up *)

Section list_facts.
Context {A B : Type}.

Lemma filter_all (P : A → Prop) `{!∀ x, Decision (P x)} (l : list A) :
  Forall P l → filter P l = l.
Proof.
  induction 1 as [|x l Hx _ IH]; [done|].
  by rewrite filter_cons_True, IH.
Qed.

Lemma filter_none (P : A → Prop) `{!∀ x, Decision (P x)} (l : list A) :
  Forall (λ x, ¬ P x) l → filter P l = [].
Proof.
  induction 1 as [|x l Hx _ IH]; [done|].
  by rewrite filter_cons_False, IH.
Qed.

Lemma submseteq_NoDup_fmap (f : A → B) (l k : list A) :
  l ⊆+ k → NoDup (f <$> k) → NoDup (f <$> l).
Proof.
  intros Hsub Hnd. apply (fmap_submseteq f) in Hsub.
  apply submseteq_Permutation in Hsub as [r Hr].
  rewrite Hr in Hnd. by apply NoDup_app in Hnd as (? & _ & _).
Qed.
End list_facts.

Section reconcile_facts.
Context {E : Type} {K : Type} `{Countable K} (entry_id : E → K) `{PyRandom}.
Implicit Types (entries selected : list E) (g : rng_state).

(** The complement pool holds exactly the entries not selected. *)
Lemma remaining_pool_perm entries selected rest :
  NoDup (entry_id <$> entries) → entries ≡ₚ selected ++ rest →
  filter (λ e, entry_id e ∉ (list_to_set (entry_id <$> selected) : gset K))
    entries ≡ₚ rest.
Proof.
  intros Hnd Hperm. rewrite Hperm, filter_app.
  rewrite Hperm, fmap_app in Hnd.
  apply NoDup_app in Hnd as (_ & Hdisj & _).
  rewrite filter_none, filter_all; [done| |].
  - apply Forall_forall. intros e He Hin.
    apply elem_of_list_to_set in Hin. apply (Hdisj _ Hin).
    apply list_elem_of_fmap. eauto.
  - apply Forall_forall. intros e He Hnin. apply Hnin.
    apply elem_of_list_to_set, list_elem_of_fmap. eauto.
Qed.

Lemma reconcile_returns entries target_size selected g :
  0 ≤ target_size → returns (reconcile entry_id entries target_size selected g).
Proof.
  intros Ht. unfold reconcile, returns. cbv zeta.
  case_decide; [|case_decide; [case_decide|]]; try by eexists.
  - destruct (rng_sample_Return g selected target_size) as (r & g' & -> & _);
      [lia | by eexists].
  - match goal with |- context [rng_sample g ?p ?k] =>
      destruct (rng_sample_Return g p k) as (r & g' & -> & _); [lia|] end.
    by eexists.
Qed.

Lemma reconcile_spec entries target_size selected g :
  NoDup (entry_id <$> entries) → selected ⊆+ entries →
  0 ≤ target_size ≤ len entries →
  ∃ sample g', reconcile entry_id entries target_size selected g
               = Return (sample, g')
    ∧ sample ⊆+ entries ∧ len sample = target_size.
Proof.
  intros Hnd Hsub Ht. unfold reconcile. cbv zeta.
  case_decide as Hgt; [|case_decide as Hlt].
  - destruct (rng_sample_Return g selected target_size)
      as (r & g' & -> & Hr & Hlen); [lia|].
    exists r, g'. split_and!; [done| |done]. by etrans.
  - destruct (submseteq_Permutation _ _ Hsub) as [rest Hrest].
    pose proof (remaining_pool_perm _ _ _ Hnd Hrest) as Hpool.
    pose proof (Permutation_length Hpool) as Hpl.
    pose proof (Permutation_length Hrest) as Hel. rewrite length_app in Hel.
    set (pool := filter _ entries) in *.
    rewrite decide_True by lia.
    destruct (rng_sample_Return g pool
                (Z.min (target_size - len selected) (len pool)))
      as (extra & g' & -> & Hextra & Hlen); [lia|]. cbn.
    exists (selected ++ extra), g'. split_and!; [done| |].
    + rewrite Hrest. apply submseteq_app; [done|]. by rewrite <- Hpool.
    + rewrite length_app. lia.
  - exists selected, g. split_and!; [done..|lia].
Qed.
End reconcile_facts.

(** ** Per-stratum selection *)

Lemma concat_Permutation {A} (l k : list (list A)) :
  l ≡ₚ k → concat l ≡ₚ concat k.
Proof.
  induction 1 as [|x l k _ IH|x y l|l k m _ IH1 _ IH2]; cbn.
  - done.
  - by rewrite IH.
  - rewrite !app_assoc. f_equiv. apply Permutation_app_comm.
  - by etrans.
Qed.

Lemma bucket_of_keys {E} (buckets : dict (list E)) :
  NoDup (keys buckets) → bucket_of buckets <$> keys buckets = values buckets.
Proof.
  unfold keys, values, bucket_of.
  induction buckets as [|[k b] buckets IH]; [done|]. cbn.
  intros [Hk Hnd]%NoDup_cons. rewrite decide_True by done. cbn. f_equal.
  rewrite <- IH by done. apply list_fmap_ext. intros i s Hs.
  rewrite decide_False; [done|]. intros ->. apply Hk.
  by eapply list_elem_of_lookup_2.
Qed.

Lemma buckets_concat_perm {E} (buckets : dict (list E)) (systems : list string) :
  NoDup (keys buckets) → systems ≡ₚ keys buckets →
  concat (bucket_of buckets <$> systems) ≡ₚ concat (values buckets).
Proof.
  intros Hnd Hp. rewrite <- bucket_of_keys by done.
  apply concat_Permutation. by rewrite Hp.
Qed.

Section draw_facts.
Context {E : Type} `{PyRandom}.
Implicit Types (selected : list E) (g : rng_state) (alloc : dict Z).

Lemma draw_samples_spec alloc (items : dict (list E)) selected g seen :
  selected ⊆+ seen →
  ∃ selected' g', draw_samples alloc items selected g = Return (selected', g')
    ∧ selected' ⊆+ seen ++ concat (values items).
Proof.
  revert selected g seen.
  induction items as [|[s bucket] items IH]; intros selected g seen Hsub; cbn.
  - exists selected, g. by rewrite app_nil_r.
  - case_decide as Hk.
    + destruct (IH selected g (seen ++ bucket)) as (sel' & g' & -> & Hsel).
      { by apply submseteq_inserts_r. }
      exists sel', g'. by rewrite <- app_assoc in Hsel.
    + match goal with |- context [rng_sample g bucket ?k] =>
        destruct (rng_sample_Return g bucket k)
          as (drawn & g1 & -> & Hdrawn & _); [lia|] end. cbn.
      destruct (IH (selected ++ drawn) g1 (seen ++ bucket))
        as (sel' & g' & -> & Hsel).
      { by apply submseteq_app. }
      exists sel', g'. by rewrite <- app_assoc in Hsel.
Qed.
End draw_facts.

Section stratified_sample_facts.
Context {E : Type} {K : Type} `{Countable K}.
Context (entry_id : E → K) (system : E → string) `{PyRandom}.
Context (round_quota : Z → Z → Z → Z).
Implicit Types (entries : list E) (g : rng_state).

Lemma stratified_sample_selected entries target_size g :
  entries ≠ [] → 1 ≤ target_size →
  ∃ out alloc selected g',
    check_target entries target_size
    = Return (Z.min target_size (len entries), out)
    ∧ allocate system round_quota entries (Z.min target_size (len entries))
      = Return (bucket_entries system entries, alloc,
                systems_sorted (bucket_entries system entries))
    ∧ draw_samples alloc (bucket_entries system entries) [] g
      = Return (selected, g')
    ∧ selected ⊆+ entries.
Proof.
  intros Hne Ht.
  destruct (check_target_Return entries target_size Hne Ht) as [out Hout].
  destruct (allocate_spec system round_quota entries
              (Z.min target_size (len entries)) Hne) as (alloc & Halloc & _).
  destruct (draw_samples_spec alloc (bucket_entries system entries) [] g [])
    as (selected & g' & Hdraw & Hsel); [done|].
  exists out, alloc, selected, g'. split_and!; [done..|].
  cbn in Hsel. by rewrite (buckets_perm _ _ _ (bucket_entries_spec system entries)) in Hsel.
Qed.

Lemma stratified_sample_returns entries target_size g :
  entries ≠ [] → 1 ≤ target_size →
  returns (stratified_sample entry_id system round_quota entries target_size g).
Proof.
  intros Hne Ht.
  destruct (stratified_sample_selected entries target_size g Hne Ht)
    as (out & alloc & selected & g' & Hc & Ha & Hd & _).
  unfold stratified_sample. rewrite Hc. cbn. rewrite Ha. cbn. rewrite Hd. cbn.
  destruct (reconcile_returns entry_id entries
              (Z.min target_size (len entries)) selected g') as [[s g2] ->];
    [lia|].
  by eexists.
Qed.

Lemma stratified_sample_spec entries target_size g :
  NoDup (entry_id <$> entries) → entries ≠ [] → 1 ≤ target_size →
  ∃ sample g' out,
    stratified_sample entry_id system round_quota entries target_size g
    = Return (sample, g', out)
    ∧ sample ⊆+ entries
    ∧ len sample = Z.min target_size (len entries).
Proof.
  intros Hnd Hne Ht.
  destruct (stratified_sample_selected entries target_size g Hne Ht)
    as (out & alloc & selected & g' & Hc & Ha & Hd & Hsel).
  unfold stratified_sample. rewrite Hc. cbn. rewrite Ha. cbn. rewrite Hd. cbn.
  destruct (reconcile_spec entry_id entries
              (Z.min target_size (len entries)) selected g' Hnd Hsel)
    as (sample & g2 & -> & Hsub & Hlen); [lia|].
  cbn. by exists sample, g2, out.
Qed.
End stratified_sample_facts.

Section pass_facts.
Context {E : Type} `{EqDecision E} (main_author : E → option string).
Implicit Types (l ss picks : list E) (used : gset string) (need : Z).

Lemma first_pass_spec need l ss used :
  ∃ picks,
    (first_pass main_author need l ss used).1 = ss ++ picks
    ∧ (first_pass main_author need l ss used).2
      = list_to_set (omap main_author picks) ∪ used
    ∧ picks `sublist_of` l
    ∧ NoDup (main_author <$> picks)
    ∧ Forall (λ e, ∃ a, main_author e = Some a ∧ a ∉ used) picks.
Proof.
  revert ss used. induction l as [|e l IH]; intros ss used; cbn.
  - exists []. rewrite app_nil_r. split_and!; try done; [set_solver|constructor].
  - case_decide as Hneed.
    { exists []. rewrite app_nil_r. cbn.
      split_and!; try done; [set_solver|apply sublist_nil_l|constructor]. }
    destruct (main_author e) as [a|] eqn:Ha; [case_decide as Hused|].
    + destruct (IH ss used) as (picks & ? & ? & ? & ? & ?).
      exists picks. split_and!; try done. by apply sublist_cons.
    + destruct (IH (ss ++ [e]) ({[a]} ∪ used))
        as (picks & Hss & Hu & Hsub & Hnd & Hall).
      exists (e :: picks). split_and!.
      * by rewrite Hss, <- app_assoc.
      * rewrite Hu. cbn. rewrite Ha. cbn. set_solver.
      * by apply sublist_skip.
      * cbn. apply NoDup_cons. split; [|done].
        rewrite Ha. intros (e' & He' & Hin)%list_elem_of_fmap.
        rewrite Forall_forall in Hall.
        destruct (Hall e' Hin) as (a' & Ha' & Hnin).
        assert (a' = a) by congruence. set_solver.
      * constructor; [eauto|]. eapply Forall_impl; [exact Hall|].
        cbn. intros e' (a' & ? & ?). exists a'. split; [done|set_solver].
    + destruct (IH ss used) as (picks & ? & ? & ? & ? & ?).
      exists picks. split_and!; try done. by apply sublist_cons.
Qed.

Lemma second_pass_spec need l ss :
  NoDup ss →
  NoDup (second_pass need l ss)
  ∧ (∀ x, x ∈ second_pass need l ss → x ∈ ss ∨ x ∈ l)
  ∧ (∀ x, x ∈ ss → x ∈ second_pass need l ss).
Proof.
  revert ss. induction l as [|e l IH]; intros ss Hnd; cbn.
  - split_and!; auto.
  - case_decide; [split_and!; auto|]. case_decide as Hin.
    + destruct (IH ss Hnd) as (? & Hel & ?). split_and!; [done| |done].
      intros x [?|?]%Hel; [by left | right; by right].
    + destruct (IH (ss ++ [e])) as (? & Hel & Hss).
      { apply NoDup_app. split_and!; [done| |apply NoDup_singleton].
        intros x Hx ->%list_elem_of_singleton. done. }
      split_and!; [done| |].
      * intros x [[?|Hx]%elem_of_app|?]%Hel;
          [by left | | right; by right].
        apply list_elem_of_singleton in Hx as ->. right; left.
      * intros x Hx. apply Hss, elem_of_app. by left.
Qed.
End pass_facts.

Section selection_facts.
Context {E : Type} `{EqDecision E} (main_author : E → option string).
Context `{PyRandom}.
Implicit Types (st : selection (E := E)) (bucket filled picks : list E).

Lemma select_system_spec (diversity_first : bool) need bucket st :
  ∃ filled picks,
    select_system main_author diversity_first need bucket st
    = Selection (selected st ++ filled) (first_picks st ++ picks)
        (list_to_set (omap main_author picks) ∪ used_authors st)
        (rng_shuffle (rng st) bucket).2
    ∧ filled ⊆+ bucket
    ∧ (∀ e, e ∈ picks → e ∈ filled)
    ∧ NoDup (main_author <$> picks)
    ∧ Forall (λ e, ∃ a, main_author e = Some a ∧ a ∉ used_authors st) picks
    ∧ (diversity_first = false → picks = []).
Proof.
  unfold select_system.
  pose proof (rng_shuffle_perm (rng st) bucket) as Hperm.
  destruct (rng_shuffle (rng st) bucket) as [l g]. cbn in Hperm. cbn [snd].
  assert (∀ ss, NoDup ss → (∀ e, e ∈ ss → e ∈ l) →
    let filled := if decide (len ss < need)
                  then second_pass need l ss else ss in
    filled ⊆+ bucket ∧ ∀ e, e ∈ ss → e ∈ filled) as Hfill.
  { intros ss Hnd Hss filled. subst filled. rewrite <- Hperm. case_decide.
    - destruct (second_pass_spec need l ss Hnd) as (Hnd' & Hel & Hsup).
      split; [|done]. apply NoDup_submseteq; [done|].
      intros e [?|?]%Hel; auto.
    - split; [|done]. by apply NoDup_submseteq. }
  destruct diversity_first.
  - destruct (first_pass_spec main_author need l [] (used_authors st))
      as (picks & Hss & Hu & Hsub & Hnd & Hall).
    destruct (first_pass main_author need l [] (used_authors st)) as [ss used].
    cbn in Hss, Hu. subst ss used.
    destruct (Hfill picks) as [Hfilled Hsup].
    { by apply NoDup_fmap_1 in Hnd. }
    { intros e He. eapply sublist_submseteq, elem_of_submseteq in Hsub; done. }
    eexists _, picks. split_and!; done.
  - destruct (Hfill []) as [Hfilled Hsup]; [constructor|by intros ? ?%elem_of_nil|].
    eexists _, []. rewrite app_nil_r. cbn.
    split_and!; try done; [|constructor..].
    f_equal. set_solver.
Qed.

Lemma select_system_picks_ok diversity_first need bucket st :
  picks_ok main_author st →
  picks_ok main_author
    (select_system main_author diversity_first need bucket st).
Proof.
  intros [Hnd Hsome Hused Hsel].
  destruct (select_system_spec diversity_first need bucket st)
    as (filled & picks & -> & _ & Hsup & Hnd' & Hall & _).
  split; cbn.
  - rewrite fmap_app. apply NoDup_app. split_and!; [done| |done].
    intros a (e & -> & He)%list_elem_of_fmap (e' & Heq & He')%list_elem_of_fmap.
    rewrite Forall_forall in Hall. destruct (Hall e' He') as (a & Ha & Hnin).
    apply Hnin. rewrite Hused. apply elem_of_list_to_set, list_elem_of_omap.
    exists e. split; [done | congruence].
  - apply Forall_app. split; [done|].
    eapply Forall_impl; [exact Hall|]. cbn. intros e (a & -> & _). eauto.
  - rewrite omap_app, list_to_set_app_L, Hused. set_solver.
  - intros e [?|?]%elem_of_app; apply elem_of_app; auto.
Qed.

Lemma selection_pass_spec diversity_first buckets alloc systems st seen :
  (∀ s, s ∈ systems → s ∈ keys buckets) →
  selected st ⊆+ seen → picks_ok main_author st →
  ∃ st', selection_pass main_author diversity_first buckets alloc systems st
         = Return st'
    ∧ selected st' ⊆+ seen ++ concat (bucket_of buckets <$> systems)
    ∧ picks_ok main_author st'
    ∧ (diversity_first = false → first_picks st = [] → first_picks st' = []).
Proof.
  revert st seen. induction systems as [|s systems IH]; intros st seen Hk Hsub Hok.
  - exists st. cbn. by rewrite app_nil_r.
  - cbn. assert (s ∈ keys buckets) as Hs by (apply Hk; left).
    apply dict_get_is_Some in Hs as [bucket Hb].
    unfold dict_item, bucket_of at 1. rewrite Hb. cbn.
    assert (∀ s', s' ∈ systems → s' ∈ keys buckets) as Hk'
      by (intros; apply Hk; by right).
    case_decide.
    + destruct (IH st (seen ++ bucket) Hk') as (st' & -> & Hsel & ? & ?);
        [by apply submseteq_inserts_r | done |].
      exists st'. by rewrite <- app_assoc in Hsel.
    + destruct (select_system_spec diversity_first
                  (default 0 (dict_get alloc s)) bucket st)
        as (filled & picks & Heq & Hfilled & _ & _ & _ & Hnone).
      pose proof (select_system_picks_ok diversity_first
                    (default 0 (dict_get alloc s)) bucket st Hok) as Hok'.
      destruct (IH (select_system main_author diversity_first
                      (default 0 (dict_get alloc s)) bucket st)
                   (seen ++ bucket) Hk')
        as (st' & -> & Hsel & ? & Hnone'); [|done|].
      { rewrite Heq. cbn. by apply submseteq_app. }
      exists st'. rewrite <- app_assoc in Hsel. split_and!; try done.
      intros Hdf Hfp. apply Hnone'; [done|].
      rewrite Heq. cbn. by rewrite Hfp, Hnone.
Qed.
End selection_facts.

Section diverse_sample_facts.
Context {E : Type} `{EqDecision E} {K : Type} `{Countable K}.
Context (entry_id : E → K) (system : E → string).
Context (main_author : E → option string) `{PyRandom}.
Context (round_quota : Z → Z → Z → Z).
Implicit Types (entries : list E) (g : rng_state).

Lemma selection_stage_spec diversity_first entries target_size g :
  entries ≠ [] → 1 ≤ target_size →
  ∃ out st,
    selection_stage system main_author round_quota diversity_first
      entries target_size g
    = Return (Z.min target_size (len entries), out, st)
    ∧ check_target entries target_size
      = Return (Z.min target_size (len entries), out)
    ∧ selected st ⊆+ entries
    ∧ picks_ok main_author st
    ∧ (diversity_first = false → first_picks st = []).
Proof.
  intros Hne Ht.
  destruct (check_target_Return entries target_size Hne Ht) as [out Hout].
  destruct (allocate_spec system round_quota entries
              (Z.min target_size (len entries)) Hne) as (alloc & Halloc & _).
  destruct (bucket_entries_spec system entries) as [Hnd Hperm _ _].
  destruct (selection_pass_spec main_author diversity_first
              (bucket_entries system entries) alloc
              (systems_sorted (bucket_entries system entries))
              (Selection [] [] ∅ g) [])
    as (st & Hpass & Hsel & Hok & Hnone).
  { intros s. by rewrite systems_sorted_perm. }
  { done. }
  { split; cbn; [constructor|constructor|set_solver|done]. }
  exists out, st. unfold selection_stage.
  rewrite Hout. cbn. rewrite Halloc. cbn. rewrite Hpass. cbn.
  split_and!; try done.
  - cbn in Hsel. rewrite buckets_concat_perm in Hsel; [by rewrite <- Hperm|done|].
    apply systems_sorted_perm.
  - intros ?. by apply Hnone.
Qed.

Lemma sample_with_selection_returns diversity_first entries target_size g :
  entries ≠ [] → 1 ≤ target_size →
  returns (sample_with_selection entry_id system main_author round_quota
             diversity_first entries target_size g).
Proof.
  intros Hne Ht.
  destruct (selection_stage_spec diversity_first entries target_size g Hne Ht)
    as (out & st & Hst & _).
  unfold sample_with_selection. rewrite Hst. cbn.
  destruct (reconcile_returns entry_id entries
              (Z.min target_size (len entries)) (selected st) (rng st))
    as [[s g2] ->]; [lia|].
  by eexists.
Qed.

Lemma sample_with_selection_spec diversity_first entries target_size g :
  NoDup (entry_id <$> entries) → entries ≠ [] → 1 ≤ target_size →
  ∃ sample g' out,
    sample_with_selection entry_id system main_author round_quota
      diversity_first entries target_size g
    = Return (sample, g', out)
    ∧ sample ⊆+ entries
    ∧ len sample = Z.min target_size (len entries).
Proof.
  intros Hnd Hne Ht.
  destruct (selection_stage_spec diversity_first entries target_size g Hne Ht)
    as (out & st & Hst & _ & Hsel & _).
  unfold sample_with_selection. rewrite Hst. cbn.
  destruct (reconcile_spec entry_id entries
              (Z.min target_size (len entries)) (selected st) (rng st)
              Hnd Hsel)
    as (sample & g2 & -> & Hsub & Hlen); [lia|].
  cbn. by exists sample, g2, out.
Qed.
End diverse_sample_facts.

(** ** The linear congruential generator is a generator *)

Lemma Lcg_below_lt s n : (0 < n)%nat → (Lcg.below s n < n)%nat.
Proof.
  intros Hn. unfold Lcg.below.
  assert (0 < Z.of_nat n) as Hn' by lia.
  destruct (Z.mod_pos_bound (s / 65536) (Z.of_nat n) Hn') as [H0 H1].
  apply Nat2Z.inj_lt. by rewrite Z2Nat.id.
Qed.

Lemma Lcg_draw_spec k s pool :
  (Lcg.draw k s pool).1 ⊆+ pool
  ∧ length (Lcg.draw k s pool).1 = (k `min` length pool)%nat.
Proof.
  revert s pool. induction k as [|k IH]; intros s pool; cbn [Lcg.draw].
  - split; [apply submseteq_nil_l | done].
  - cbv zeta. destruct (decide (pool = [])) as [->|Hne]; [done|].
    assert (0 < length pool)%nat as Hlen by (destruct pool; [done | cbn; lia]).
    pose proof (Lcg_below_lt (Lcg.next s) _ Hlen) as Hj.
    destruct (lookup_lt_is_Some_2 _ _ Hj) as [x Hx]. rewrite Hx.
    destruct (IH (Lcg.next s) (delete (Lcg.below (Lcg.next s) (length pool)) pool))
      as [Hsub Hl].
    destruct (Lcg.draw k _ (delete _ pool)) as [r s'']. cbn [fst] in *. split.
    + rewrite (delete_Permutation pool _ x Hx). by apply submseteq_skip.
    + cbn [length]. rewrite Hl, length_delete by eauto. lia.
Qed.

#[global, refine] Instance Lcg_random : PyRandom := {|
  rng_state := Z;
  Random seed := seed;
  shuffle_order := Lcg.shuffle_order;
  sample_positions := Lcg.sample_positions;
|}.
Proof.
  - intros g n. destruct (Lcg_draw_spec n g (seq 0 n)) as [Hsub Hlen].
    apply submseteq_length_Permutation; [done|].
    unfold Lcg.shuffle_order. rewrite Hlen, length_seq. lia.
  - intros g n k Hk. destruct (Lcg_draw_spec k g (seq 0 n)) as [_ Hlen].
    unfold Lcg.sample_positions. rewrite Hlen, length_seq. lia.
  - intros g n k Hk. destruct (Lcg_draw_spec k g (seq 0 n)) as [Hsub _].
    apply submseteq_Permutation in Hsub as [r Hr].
    pose proof (NoDup_seq 0 n) as Hnd. rewrite Hr in Hnd.
    by apply NoDup_app in Hnd as (? & _ & _).
  - intros g n k Hk. destruct (Lcg_draw_spec k g (seq 0 n)) as [Hsub _].
    apply Forall_forall. intros i Hi.
    eapply elem_of_submseteq in Hi; [|exact Hsub].
    apply elem_of_seq in Hi. lia.
Defined.

(** * The claims *)

(** C1: for a population of [n >= 1] entries with pairwise distinct
    [entry_id]s and a target [>= 1], both [stratified_sample] and
    [main_author_diverse_stratified_sample] return exactly
    [min(target, n)] entries, with pairwise distinct [entry_id]s. *)
Theorem sample_size_exact `{PyRandom} (round_quota : Z → Z → Z → Z)
    (population : list Script.RepoEntry)
    (population' : list DistinctAuthors.RepoEntry)
    (target_size : Z) (g : rng_state) :
  NoDup (Script.entry_id <$> population) →
  NoDup (DistinctAuthors.entry_id <$> population') →
  1 ≤ len population → 1 ≤ len population' → 1 ≤ target_size →
  exact_sample Script.entry_id population target_size
    (Script.stratified_sample round_quota population target_size g)
  ∧ exact_sample DistinctAuthors.entry_id population' target_size
      (DistinctAuthors.main_author_diverse_stratified_sample round_quota
         population' target_size g).
Proof.
  intros Hnd Hnd' Hn Hn' Ht. split.
  - destruct (stratified_sample_spec Script.entry_id Script.system round_quota
                population target_size g Hnd)
      as (sample & g' & out & Hrun & Hsub & Hlen); [by destruct population|done|].
    exists sample, g', out. split_and!; [done..| |done].
    by eapply submseteq_NoDup_fmap.
  - destruct (sample_with_selection_spec DistinctAuthors.entry_id
                DistinctAuthors.system DistinctAuthors.main_author round_quota
                true population' target_size g Hnd')
      as (sample & g' & out & Hrun & Hsub & Hlen); [by destruct population'|done|].
    exists sample, g', out. split_and!; [done..| |done].
    by eapply submseteq_NoDup_fmap.
Qed.

Lemma sample_size_exact_witness :
  NoDup (Script.entry_id <$> orca_population)
  ∧ NoDup (DistinctAuthors.entry_id <$> authored_population)
  ∧ 1 ≤ len orca_population ∧ 1 ≤ len authored_population ∧ 1 ≤ 3
  ∧ exact_sample Script.entry_id orca_population 3
      (Script.stratified_sample exact_round_quota orca_population 3 (Random 0))
  ∧ exact_sample DistinctAuthors.entry_id authored_population 3
      (DistinctAuthors.main_author_diverse_stratified_sample exact_round_quota
         authored_population 3 (Random 0)).
Proof.
  assert (NoDup (Script.entry_id <$> orca_population)) as H1
    by (apply (bool_decide_unpack _); vm_compute; exact I).
  assert (NoDup (DistinctAuthors.entry_id <$> authored_population)) as H2
    by (apply (bool_decide_unpack _); vm_compute; exact I).
  assert (1 ≤ len orca_population) as H3 by (vm_compute; discriminate).
  assert (1 ≤ len authored_population) as H4 by (vm_compute; discriminate).
  assert (1 ≤ 3) as H5 by lia.
  split_and!; try assumption.
  - exact (proj1 (sample_size_exact exact_round_quota orca_population
                    authored_population 3 (Random 0) H1 H2 H3 H4 H5)).
  - exact (proj2 (sample_size_exact exact_round_quota orca_population
                    authored_population 3 (Random 0) H1 H2 H3 H4 H5)).
Defined.

Section guard_facts.
Context {E : Type} `{EqDecision E} {K : Type} `{Countable K}.
Context (entry_id : E → K) (system : E → string).
Context (main_author : E → option string) `{PyRandom}.
Context (round_quota : Z → Z → Z → Z).
Implicit Types (entries : list E) (g : rng_state).

Lemma check_target_cases entries target_size :
  check_target entries target_size
  = if decide (target_size ≤ 0) then
      Raise (ValueError "target_size must be positive")
    else if decide (entries = []) then
      Raise (ValueError "no entries available for sampling")
    else Return (Z.min target_size (len entries),
                 if decide (len entries < target_size)
                 then [WarnReduced target_size (len entries)] else []).
Proof.
  unfold check_target. cbv zeta. case_decide; [done|].
  destruct entries as [|e entries]; [done|].
  rewrite decide_False by (cbn [length]; lia).
  rewrite (decide_False (P := e :: entries = [])) by done.
  case_decide; do 2 f_equal; lia.
Qed.

Lemma guard_behaviour_of
    (f : list E → Z → outcome (list E * rng_state * list notice))
    (body : list E → Z → outcome (list E * rng_state)) entries target_size :
  (∀ entries target_size,
     f entries target_size
     = '(t, out) ← check_target entries target_size;
       '(sample, g) ← body entries t; Return (sample, g, out)) →
  (∀ t, 1 ≤ t → entries ≠ [] → returns (body entries t)) →
  guard_behaviour f entries target_size.
Proof.
  intros Hf Hbody. unfold guard_behaviour.
  destruct (decide (target_size ≤ 0)) as [Hle|Hgt].
  { assert (f entries target_size
            = Raise (ValueError "target_size must be positive")) as Hr.
    { rewrite Hf, check_target_cases. by rewrite decide_True. }
    split_and!; try done; try lia. split; [auto | eauto]. }
  destruct (decide (entries = [])) as [->|Hne].
  { assert (f [] target_size
            = Raise (ValueError "no entries available for sampling")) as Hr.
    { rewrite Hf, check_target_cases. by rewrite decide_False. }
    split_and!; try done; try lia. split; [auto | eauto]. }
  assert (1 ≤ len entries) as Hn by (destruct entries; [done | cbn [length]; lia]).
  destruct (Hbody (Z.min target_size (len entries))) as [[sample g] Hb];
    [lia | done |].
  assert (f entries target_size
          = Return (sample, g, if decide (len entries < target_size)
                               then [WarnReduced target_size (len entries)]
                               else [])) as Hr.
  { rewrite Hf, check_target_cases.
    rewrite decide_False, decide_False by done. cbn. by rewrite Hb. }
  split_and!; try done; try lia.
  - rewrite Hr. split; [by intros [? ?] | by intros [?|?]].
  - intros _ _. eexists sample, g, _. split_and!; [done..|].
    rewrite Hf, check_target_cases.
    rewrite decide_False, decide_False by (done || lia).
    rewrite decide_False by lia.
    replace (Z.min (Z.min target_size (len entries)) (len entries))
      with (Z.min target_size (len entries)) by lia.
    cbn. by rewrite Hb.
Qed.

Lemma stratified_sample_guard entries target_size g :
  guard_behaviour
    (λ entries target_size,
       stratified_sample entry_id system round_quota entries target_size g)
    entries target_size.
Proof.
  apply (guard_behaviour_of _
    (λ entries t,
       '(buckets, alloc, _) ← allocate system round_quota entries t;
       '(selected, g) ← draw_samples alloc buckets [] g;
       reconcile entry_id entries t selected g)).
  - intros es t. unfold stratified_sample.
    destruct (check_target es t) as [[t' out]| |]; [|done..]. cbn.
    destruct (allocate system round_quota es t') as [[[b a] s]| |]; [|done..].
    cbn. destruct (draw_samples a b [] g) as [[sel g']| |]; [|done..]. cbn.
    by destruct (reconcile entry_id es t' sel g') as [[sel' g'']| |].
  - intros t Ht Hne.
    destruct (allocate_spec system round_quota entries t Hne)
      as (alloc & -> & _). cbn.
    destruct (draw_samples_spec alloc (bucket_entries system entries) [] g [])
      as (selected & g' & -> & _); [done|]. cbn.
    apply reconcile_returns. lia.
Qed.

Lemma sample_with_selection_guard diversity_first entries target_size g :
  guard_behaviour
    (λ entries target_size,
       sample_with_selection entry_id system main_author round_quota
         diversity_first entries target_size g)
    entries target_size.
Proof.
  apply (guard_behaviour_of _
    (λ entries t,
       '(buckets, alloc, systems) ← allocate system round_quota entries t;
       st ← selection_pass main_author diversity_first buckets alloc systems
              (Selection [] [] ∅ g);
       reconcile entry_id entries t (selected st) (rng st))).
  - intros es t. unfold sample_with_selection, selection_stage.
    destruct (check_target es t) as [[t' out]| |]; [|done..]. cbn.
    destruct (allocate system round_quota es t') as [[[b a] s]| |]; [|done..].
    cbn. destruct (selection_pass _ _ b a s _) as [st| |]; [|done..]. cbn.
    by destruct (reconcile entry_id es t' _ _) as [[sel' g'']| |].
  - intros t Ht Hne.
    destruct (allocate_spec system round_quota entries t Hne)
      as (alloc & -> & _). cbn.
    destruct (selection_pass_spec main_author diversity_first
                (bucket_entries system entries) alloc
                (systems_sorted (bucket_entries system entries))
                (Selection [] [] ∅ g) [])
      as (st & -> & _).
    { intros s. by rewrite systems_sorted_perm. }
    { done. }
    { split; cbn; [constructor|constructor|set_solver|done]. }
    cbn. apply reconcile_returns. lia.
Qed.
End guard_facts.

(** C3: a sampling function raises exactly when [target_size <= 0] or the
    population is empty (a [ValueError] in both cases); with
    [target_size > len(entries)] it does not raise: it prints the warning
    and returns what the call with [target_size = len(entries)] returns. *)
Theorem raises_iff_invalid `{PyRandom} (round_quota : Z → Z → Z → Z)
    (population : list Script.RepoEntry)
    (population' : list DistinctAuthors.RepoEntry)
    (target_size : Z) (g : rng_state) :
  guard_behaviour
    (λ entries target_size,
       Script.stratified_sample round_quota entries target_size g)
    population target_size
  ∧ guard_behaviour
      (λ entries target_size,
         DistinctAuthors.main_author_diverse_stratified_sample round_quota
           entries target_size g)
      population' target_size.
Proof.
  split.
  - apply stratified_sample_guard.
  - apply sample_with_selection_guard.
Qed.

Lemma raises_iff_invalid_witness :
  Script.stratified_sample exact_round_quota orca_population 0 (Random 0)
  = Raise (ValueError "target_size must be positive")
  ∧ Script.stratified_sample exact_round_quota [] 3 (Random 0)
    = Raise (ValueError "no entries available for sampling")
  ∧ ∃ sample g,
      Script.stratified_sample exact_round_quota orca_population 9 (Random 0)
      = Return (sample, g, [WarnReduced 9 5])
      ∧ Script.stratified_sample exact_round_quota orca_population 5 (Random 0)
        = Return (sample, g, []).
Proof.
  destruct (proj1 (raises_iff_invalid exact_round_quota orca_population
                     authored_population 0 (Random 0)))
    as (_ & Hzero & _).
  destruct (proj1 (raises_iff_invalid exact_round_quota []
                     authored_population 3 (Random 0)))
    as (_ & _ & Hempty & _).
  destruct (proj1 (raises_iff_invalid exact_round_quota orca_population
                     authored_population 9 (Random 0)))
    as (_ & _ & _ & Hclamp).
  split_and!.
  - apply Hzero. lia.
  - apply Hempty; [lia | reflexivity].
  - destruct Hclamp as (sample & g & out & Hrun & -> & Hsame);
      [lia | discriminate |].
    exists sample, g. split; [exact Hrun | exact Hsame].
Defined.

(** The surplus loop alone, from any allocation: it never takes a quota
    below 1. *)
Lemma remove_surplus_keeps_minimum fuel systems surplus idx alloc alloc' :
  Forall (λ v, 1 ≤ v) (values alloc) →
  remove_surplus fuel systems surplus idx alloc = Return alloc' →
  Forall (λ v, 1 ≤ v) (values alloc').
Proof.
  revert surplus idx alloc.
  induction fuel as [|fuel IH]; intros surplus idx alloc Hge;
    rewrite remove_surplus_unfold;
    destruct (bool_decide (0 < surplus) && any_above_one alloc);
    try by intros [= <-].
  intros (s & _ & Hrun)%bind_Return.
  apply bind_Return in Hrun as (v & Hv & Hrun).
  case_decide.
  - eapply IH; [|exact Hrun]. apply dict_set_Forall; [done|lia].
  - by eapply IH.
Qed.

Lemma sum_values_minimal (alloc : dict Z) :
  Forall (λ v, 1 ≤ v) (values alloc) → sum_values alloc = len alloc →
  Forall (λ v, v = 1) (values alloc).
Proof.
  unfold sum_values, values. induction alloc as [|[k v] d IH]; cbn [fmap list_fmap foldr snd length];
    [constructor|].
  intros [Hv Hd]%Forall_cons Hsum.
  pose proof (sum_values_ge d Hd) as Hge. unfold sum_values, values in Hge.
  constructor; [lia|]. apply IH; [done|]. lia.
Qed.

(** C4: for a non-empty population and a target [>= 1] (clamped to the
    population size), after the proportional allocation and the drift
    fix-up every stratum has a quota, and the quota is at least 1; and the
    surplus loop, from whatever allocation with quotas [>= 1], never
    leaves a quota below 1. *)
Theorem allocation_minimum {E} (system : E → string)
    (round_quota : Z → Z → Z → Z) (entries : list E) (target_size : Z) :
  1 ≤ len entries → 1 ≤ target_size →
  (∃ alloc,
     allocate system round_quota entries (Z.min target_size (len entries))
     = Return (bucket_entries system entries, alloc,
               systems_sorted (bucket_entries system entries))
     ∧ ∀ s bucket,
         dict_get (bucket_entries system entries) s = Some bucket →
         1 ≤ len bucket ∧ ∃ quota, dict_get alloc s = Some quota ∧ 1 ≤ quota)
  ∧ (∀ fuel systems surplus idx alloc alloc',
       Forall (λ v, 1 ≤ v) (values alloc) →
       remove_surplus fuel systems surplus idx alloc = Return alloc' →
       Forall (λ v, 1 ≤ v) (values alloc')).
Proof.
  intros Hn Ht. split; [|apply remove_surplus_keeps_minimum].
  assert (entries ≠ []) as Hne by (by destruct entries).
  destruct (allocate_spec system round_quota entries
              (Z.min target_size (len entries)) Hne) as (alloc & Hrun & Hok & _).
  exists alloc. split; [done|]. intros s bucket Hs.
  destruct (bucket_entries_spec system entries) as [_ _ Hnonempty _].
  split.
  - apply dict_get_Some_elem in Hs. rewrite Forall_forall in Hnonempty.
    specialize (Hnonempty _ Hs). cbn in Hnonempty.
    destruct bucket; [done | cbn [length]; lia].
  - destruct (alloc_ok_item _ _ s Hok) as (v & Hv & _ & Hge); [|eauto].
    rewrite systems_sorted_perm. apply dict_get_is_Some. eauto.
Qed.

Lemma allocation_minimum_witness :
  1 ≤ len orca_population ∧ 1 ≤ 2
  ∧ ∃ alloc,
      allocate Script.system exact_round_quota orca_population
        (Z.min 2 (len orca_population))
      = Return (bucket_entries Script.system orca_population, alloc,
                systems_sorted (bucket_entries Script.system orca_population))
      ∧ ∀ s bucket,
          dict_get (bucket_entries Script.system orca_population) s
          = Some bucket →
          1 ≤ len bucket ∧ ∃ quota, dict_get alloc s = Some quota ∧ 1 ≤ quota.
Proof.
  assert (1 ≤ len orca_population) as H1 by (vm_compute; discriminate).
  assert (1 ≤ 2) as H2 by lia.
  split_and!; try assumption.
  exact (proj1 (allocation_minimum Script.system exact_round_quota
                  orca_population 2 H1 H2)).
Defined.

(** C5, as stated, fails: with three strata and target 2 every quota is 1;
    the quotas sum to 3, which is not the target, and the sum exceeds the
    target rather than falling short of it. *)
Lemma allocation_sum_counterexample :
  allocate Script.system exact_round_quota three_strata 2
  = Return (bucket_entries Script.system three_strata,
            [("a", 1); ("b", 1); ("c", 1)], ["a"; "b"; "c"])
  ∧ sum_values [("a", 1); ("b", 1); ("c", 1)] ≠ 2
  ∧ ¬ sum_values [("a", 1); ("b", 1); ("c", 1)] < 2.
Proof. split_and!; [by vm_compute | by vm_compute | by vm_compute]. Qed.

(** C5, amended: the quotas after the drift fix-up sum to the larger of
    the target and the number of strata.  So they sum to exactly the target
    when there are at most [target_size] strata; otherwise removal stops
    with every quota at 1 and the sum, the number of strata, exceeds the
    target. *)
Theorem allocation_sum {E} (system : E → string)
    (round_quota : Z → Z → Z → Z) (entries : list E) (target_size : Z) :
  1 ≤ len entries → 1 ≤ target_size ≤ len entries →
  ∃ alloc,
    allocate system round_quota entries target_size
    = Return (bucket_entries system entries, alloc,
              systems_sorted (bucket_entries system entries))
    ∧ sum_values alloc
      = Z.max target_size (len (bucket_entries system entries))
    ∧ (len (bucket_entries system entries) ≤ target_size →
       sum_values alloc = target_size)
    ∧ (target_size < len (bucket_entries system entries) →
       Forall (λ v, v = 1) (values alloc) ∧ target_size < sum_values alloc).
Proof.
  intros Hn Ht. assert (entries ≠ []) as Hne by (by destruct entries).
  destruct (allocate_spec system round_quota entries target_size Hne)
    as (alloc & Hrun & Hok & Hsum).
  pose proof (alloc_ok_length _ _ Hok) as Hlen.
  pose proof (Permutation_length (systems_sorted_perm (bucket_entries system entries)))
    as Hlen'.
  unfold keys in Hlen'. rewrite length_fmap in Hlen'.
  exists alloc. rewrite Hsum, Hlen'. split_and!; [done|done|lia|].
  intros Hlt. split; [|lia]. apply sum_values_minimal.
  - apply (alloc_ge_1 _ _ Hok).
  - rewrite Hsum. lia.
Qed.

Lemma allocation_sum_witness :
  1 ≤ len three_strata ∧ 1 ≤ 2 ≤ len three_strata
  ∧ ∃ alloc,
      allocate Script.system exact_round_quota three_strata 2
      = Return (bucket_entries Script.system three_strata, alloc,
                systems_sorted (bucket_entries Script.system three_strata))
      ∧ sum_values alloc
        = Z.max 2 (len (bucket_entries Script.system three_strata))
      ∧ (len (bucket_entries Script.system three_strata) ≤ 2 →
         sum_values alloc = 2)
      ∧ (2 < len (bucket_entries Script.system three_strata) →
         Forall (λ v, v = 1) (values alloc) ∧ 2 < sum_values alloc).
Proof.
  assert (1 ≤ len three_strata) as H1 by (vm_compute; discriminate).
  assert (1 ≤ 2 ≤ len three_strata) as H2
    by (split; vm_compute; discriminate).
  split_and!; try assumption.
  exact (allocation_sum Script.system exact_round_quota three_strata 2 H1 H2).
Defined.

Lemma NoDup_constant_length {A} (x : A) (l : list A) :
  NoDup l → Forall (λ y, y = x) l → (length l ≤ 1)%nat.
Proof.
  intros Hnd Hall. destruct l as [|y [|z l]]; cbn; [lia..|].
  apply NoDup_cons in Hnd as [Hy _].
  apply Forall_cons in Hall as [-> [-> _]%Forall_cons].
  exfalso. apply Hy. left.
Qed.

(** C7: in one run of [main_author_diverse_stratified_sample], over all
    strata, the first passes select entries with pairwise distinct authors,
    none of them absent, and [used_authors] is exactly the set of their
    authors; the sample is the trim / top-up of the selection.  For three
    entries (distinct ids) sharing one author and target 3, the first pass
    selects at most one entry and the sample has exactly 3 entries. *)
Theorem first_pass_one_per_author `{PyRandom} (round_quota : Z → Z → Z → Z)
    (population : list DistinctAuthors.RepoEntry) (target_size : Z)
    (g : rng_state) :
  1 ≤ len population → 1 ≤ target_size →
  ∃ t out st,
    DistinctAuthors.selection_stage round_quota true population target_size g
    = Return (t, out, st)
    ∧ DistinctAuthors.main_author_diverse_stratified_sample round_quota
        population target_size g
      = ('(sample, g') ← reconcile DistinctAuthors.entry_id population t
                           (selected st) (rng st);
         Return (sample, g', out))
    ∧ NoDup (DistinctAuthors.main_author <$> first_picks st)
    ∧ Forall (λ e, is_Some (DistinctAuthors.main_author e)) (first_picks st)
    ∧ used_authors st
      = list_to_set (omap DistinctAuthors.main_author (first_picks st))
    ∧ (len population = 3 → target_size = 3 →
       NoDup (DistinctAuthors.entry_id <$> population) →
       (∃ a, Forall (λ e, DistinctAuthors.main_author e = Some a) population) →
       (length (first_picks st) ≤ 1)%nat
       ∧ exact_sample DistinctAuthors.entry_id population 3
           (DistinctAuthors.main_author_diverse_stratified_sample round_quota
              population target_size g)).
Proof.
  intros Hn Ht. assert (population ≠ []) as Hne by (by destruct population).
  destruct (selection_stage_spec DistinctAuthors.system
              DistinctAuthors.main_author round_quota true population
              target_size g Hne Ht)
    as (out & st & Hstage & _ & Hsel & [Hnd Hsome Hused Hin] & _).
  exists (Z.min target_size (len population)), out, st.
  split_and!; try done.
  - unfold DistinctAuthors.main_author_diverse_stratified_sample,
      main_author_diverse_stratified_sample, sample_with_selection.
    by rewrite Hstage.
  - intros H3 -> Hids [a Ha]. split.
    + rewrite <- (length_fmap DistinctAuthors.main_author).
      apply (NoDup_constant_length (Some a)); [done|].
      apply Forall_fmap, Forall_forall. intros e He. cbn.
      rewrite Forall_forall in Ha. apply Ha.
      eapply elem_of_submseteq; [|exact Hsel]. by apply Hin.
    + destruct (sample_with_selection_spec DistinctAuthors.entry_id
                  DistinctAuthors.system DistinctAuthors.main_author
                  round_quota true population 3 g Hids Hne Ht)
        as (sample & g' & out' & Hrun & Hsub & Hlen).
      exists sample, g', out'. split_and!; [done|lia| |done].
      by eapply submseteq_NoDup_fmap.
Qed.

Lemma first_pass_one_per_author_witness :
  1 ≤ len one_author ∧ 1 ≤ 3 ∧ len one_author = 3
  ∧ NoDup (DistinctAuthors.entry_id <$> one_author)
  ∧ (∃ a, Forall (λ e, DistinctAuthors.main_author e = Some a) one_author)
  ∧ ∃ t out st,
      DistinctAuthors.selection_stage exact_round_quota true one_author 3
        (Random 0)
      = Return (t, out, st)
      ∧ NoDup (DistinctAuthors.main_author <$> first_picks st)
      ∧ (length (first_picks st) ≤ 1)%nat
      ∧ exact_sample DistinctAuthors.entry_id one_author 3
          (DistinctAuthors.main_author_diverse_stratified_sample
             exact_round_quota one_author 3 (Random 0)).
Proof.
  assert (1 ≤ len one_author) as H1 by (vm_compute; discriminate).
  assert (1 ≤ 3) as H2 by lia.
  assert (len one_author = 3) as H3 by reflexivity.
  assert (NoDup (DistinctAuthors.entry_id <$> one_author)) as H4
    by (apply (bool_decide_unpack _); vm_compute; exact I).
  assert (∃ a, Forall (λ e, DistinctAuthors.main_author e = Some a) one_author)
    as H5 by (exists "X"; repeat constructor).
  split_and!; try assumption.
  destruct (first_pass_one_per_author exact_round_quota one_author 3 (Random 0)
              H1 H2) as (t & out & st & Hstage & _ & Hnd & _ & _ & Hthree).
  destruct (Hthree H3 eq_refl H4 H5) as [Hone Hexact].
  exists t, out, st. split_and!; assumption.
Defined.

(** ** With and without the first pass *)

Lemma filter_ext_in {A} (P Q : A → Prop) `{!∀ x, Decision (P x)}
    `{!∀ x, Decision (Q x)} (l : list A) :
  (∀ x, x ∈ l → (P x ↔ Q x)) → filter P l = filter Q l.
Proof.
  induction l as [|x l IH]; intros Hext; [done|].
  rewrite !filter_cons.
  rewrite IH by (intros y Hy; apply Hext; by right).
  destruct (decide (P x)) as [HP|HP], (decide (Q x)) as [HQ|HQ]; try done.
  - exfalso. apply HQ, (Hext x); [left | done].
  - exfalso. apply HP, (Hext x); [left | done].
Qed.

Lemma complement_length {A} `{EqDecision A} (l ss : list A) :
  NoDup l → NoDup ss → (∀ x, x ∈ ss → x ∈ l) →
  (length ss + length (filter (λ x, x ∉ ss) l) = length l)%nat.
Proof.
  intros Hl Hss Hsub.
  rewrite <- (Permutation_length (filter_app_complement (λ x, x ∈ ss) l)).
  rewrite length_app. f_equal. apply Permutation_length.
  apply NoDup_Permutation; [done | by apply NoDup_filter |].
  intros x. rewrite list_elem_of_filter. naive_solver.
Qed.

Section compare_facts.
Context {E : Type} `{EqDecision E} (main_author : E → option string).
Context `{PyRandom}.
Implicit Types (l ss : list E) (used : gset string) (need : Z).

Lemma first_pass_length need l ss used :
  len (first_pass main_author need l ss used).1 ≤ Z.max need (len ss).
Proof.
  revert ss used. induction l as [|e l IH]; intros ss used; cbn; [lia|].
  case_decide; [cbn; lia|].
  destruct (main_author e) as [a|]; [case_decide|].
  - etrans; [apply IH|lia].
  - etrans; [apply IH|]. rewrite length_app. cbn. lia.
  - etrans; [apply IH|lia].
Qed.

Lemma second_pass_length need l ss :
  NoDup l → len ss ≤ need →
  len (second_pass need l ss)
  = Z.min need (len ss + len (filter (λ e, e ∉ ss) l)).
Proof.
  revert ss. induction l as [|e l IH]; intros ss Hnd Hle; cbn [second_pass].
  - cbn. lia.
  - apply NoDup_cons in Hnd as [He Hnd]. case_decide; [lia|].
    case_decide as Hin.
    + rewrite filter_cons_False by auto. by apply IH.
    + rewrite filter_cons_True by done. rewrite IH; [|done|].
      * rewrite (filter_ext_in (λ x, x ∉ ss ++ [e]) (λ x, x ∉ ss)).
        { rewrite length_app. cbn [length]. lia. }
        intros x Hx. rewrite elem_of_app, list_elem_of_singleton.
        split; [tauto|]. intros ? [?| ->]; done.
      * rewrite length_app. cbn. lia.
Qed.

Lemma second_pass_take need l ss :
  NoDup (ss ++ l) →
  second_pass need l ss = ss ++ take (Z.to_nat (need - len ss)) l.
Proof.
  revert ss. induction l as [|e l IH]; intros ss Hnd; cbn [second_pass].
  - by rewrite take_nil, app_nil_r.
  - case_decide as Hneed.
    { replace (Z.to_nat (need - len ss)) with 0%nat by lia.
      by rewrite app_nil_r. }
    rewrite decide_False.
    + rewrite IH by (by rewrite <- app_assoc).
      replace (Z.to_nat (need - len ss))
        with (S (Z.to_nat (need - len (ss ++ [e]))))
        by (rewrite length_app; cbn [length]; lia).
      by rewrite <- app_assoc.
    + apply NoDup_app in Hnd as (_ & Hdisj & _).
      intros Hin. apply (Hdisj e Hin). left.
Qed.

(** Every author among the first [need] entries of the shuffled bucket is
    in [used_authors] after the first pass. *)
Lemma first_pass_covers need l ss used e a :
  e ∈ take (Z.to_nat (need - len ss)) l → main_author e = Some a →
  a ∈ (first_pass main_author need l ss used).2.
Proof.
  revert ss used. induction l as [|e' l IH]; intros ss used Hin Ha.
  - rewrite take_nil in Hin. by apply elem_of_nil in Hin.
  - cbn [first_pass]. case_decide as Hneed.
    { replace (Z.to_nat (need - len ss)) with 0%nat in Hin by lia.
      by apply elem_of_nil in Hin. }
    replace (Z.to_nat (need - len ss))
      with (S (Z.to_nat (need - len ss - 1))) in Hin by lia.
    cbn [take] in Hin.
    assert (∀ ss' used', used ⊆ used' →
      (e = e' → a ∈ used') →
      (len ss ≤ len ss' ≤ len ss + 1) →
      a ∈ (first_pass main_author need l ss' used').2) as Hrec.
    { intros ss' used' Hu He' Hl.
      apply elem_of_cons in Hin as [->|Hin].
      - destruct (first_pass_spec main_author need l ss' used')
          as (picks & _ & -> & _). specialize (He' eq_refl). set_solver.
      - apply IH; [|done].
        apply elem_of_take in Hin as (i & Hi & Hlt).
        apply elem_of_take. exists i. split; [done|lia]. }
    destruct (main_author e') as [a'|] eqn:Ha'; [case_decide as Hu|].
    + apply Hrec; [done| |lia]. intros ->. congruence.
    + apply Hrec; [set_solver| |rewrite length_app; cbn; lia].
      intros ->. assert (a' = a) by congruence. set_solver.
    + apply Hrec; [done| |lia]. intros ->. congruence.
Qed.
End compare_facts.

Section compare_runs.
Context {E : Type} `{EqDecision E} (main_author : E → option string).
Context `{PyRandom}.
Implicit Types (st : selection (E := E)) (bucket : list E).

Lemma select_system_covers need bucket st st' :
  0 < need → NoDup bucket → selection_covers main_author st st' →
  selection_covers main_author
    (select_system main_author true need bucket st)
    (select_system main_author false need bucket st').
Proof.
  intros Hneed Hnd [Hrng Hauth Hlen]. unfold select_system. rewrite <- Hrng.
  pose proof (rng_shuffle_perm (rng st) bucket) as Hperm.
  destruct (rng_shuffle (rng st) bucket) as [l g]. cbn in Hperm.
  rewrite <- Hperm in Hnd.
  pose proof (first_pass_spec main_author need l [] (used_authors st))
    as (picks & Hss & Hu & Hsub & Hndp & _).
  pose proof (first_pass_length main_author need l [] (used_authors st)) as Hfl.
  pose proof (λ e a, first_pass_covers main_author need l [] (used_authors st) e a)
    as Hcov.
  destruct (first_pass main_author need l [] (used_authors st)) as [ss used].
  cbn [fst snd] in *. subst ss.
  rewrite (decide_True (P := len (@nil E) < need)) by (cbn; lia).
  rewrite (second_pass_take need l []) by done. cbn [app].
  assert (NoDup picks) as Hndpicks by (by apply NoDup_fmap_1 in Hndp).
  pose proof (sublist_submseteq _ _ Hsub) as Hsub0.
  assert (∀ x, x ∈ picks → x ∈ l) as Hpl.
  { intros x Hx. by eapply elem_of_submseteq. }
  split; cbn [selected rng used_authors].
  - done.
  - unfold sample_authors in *. rewrite omap_app, list_to_set_app_L.
    apply union_least; [set_solver|].
    intros a (e & He & Ha)%elem_of_list_to_set%list_elem_of_omap.
    by eapply Hcov.
  - rewrite !length_app, Hlen. f_equal. apply Nat2Z.inj.
    rewrite length_take.
    pose proof (complement_length l picks Hnd Hndpicks Hpl) as Hc.
    case_decide.
    + rewrite second_pass_length by (done || lia). cbn [length] in *.
      apply (f_equal Z.of_nat) in Hc. rewrite Nat2Z.inj_add in Hc.
      rewrite Hc. lia.
    + cbn [length] in *. rewrite app_nil_l in Hfl.
      apply submseteq_length in Hsub0. lia.
Qed.

Lemma selection_pass_covers buckets alloc systems st st' :
  (∀ s, s ∈ systems → s ∈ keys buckets) →
  (∀ s bucket, dict_get buckets s = Some bucket → NoDup bucket) →
  selection_covers main_author st st' →
  ∃ st1 st1',
    selection_pass main_author true buckets alloc systems st = Return st1
    ∧ selection_pass main_author false buckets alloc systems st' = Return st1'
    ∧ selection_covers main_author st1 st1'.
Proof.
  intros Hk Hnd. revert st st' Hk.
  induction systems as [|s systems IH]; intros st st' Hk Hcov; cbn.
  - by exists st, st'.
  - assert (s ∈ keys buckets) as Hs by (apply Hk; left).
    apply dict_get_is_Some in Hs as [bucket Hb].
    unfold dict_item. rewrite Hb. cbn.
    assert (∀ s', s' ∈ systems → s' ∈ keys buckets) as Hk'
      by (intros; apply Hk; by right).
    case_decide as Hskip; [by apply IH|].
    apply IH; [done|]. apply select_system_covers; [lia|by eapply Hnd|done].
Qed.
End compare_runs.

Lemma buckets_NoDup_entries {E} (system : E → string) (entries : list E) s bucket :
  NoDup entries → dict_get (bucket_entries system entries) s = Some bucket →
  NoDup bucket.
Proof.
  intros Hnd Hs. destruct (bucket_entries_spec system entries) as [_ Hperm _ _].
  rewrite <- Hperm in Hnd. apply dict_get_Some_elem in Hs.
  apply (list_elem_of_fmap_2 snd) in Hs. cbn in Hs.
  apply list_elem_of_split in Hs as (l1 & l2 & Hs).
  unfold values in Hnd. rewrite Hs, concat_app in Hnd. cbn in Hnd.
  apply NoDup_app in Hnd as (_ & _ & Hnd).
  by apply NoDup_app in Hnd as (? & _ & _).
Qed.

(** C8, as stated, fails.  [authored_population] has a stratum with a
    duplicated author (A: X, X).  With target 2 every stratum gets quota 1,
    three entries are selected and one is trimmed at random.  With seed 0
    the generator leaves every bucket in its order and the trim draws
    positions 1 and 2.  In stratum B the first pass picks b1 (Y), X being
    used, where the run without it takes b0 (X); the trim keeps the
    entries of B and C, leaving one author with the first pass and two
    without. *)
Lemma diversity_counterexample :
  dict_get (bucket_entries DistinctAuthors.system authored_population) "A"
  = Some [authored "a0" (Some "X") "A"; authored "a1" (Some "X") "A"]
  ∧ (∃ alloc,
       allocate DistinctAuthors.system exact_round_quota authored_population 2
       = Return (bucket_entries DistinctAuthors.system authored_population,
                 alloc, ["A"; "B"; "C"])
       ∧ alloc = [("A", 1); ("B", 1); ("C", 1)])
  ∧ shuffle_order (Random 0) 2 = ([0; 1]%nat, 1406932606)
  ∧ shuffle_order 1406932606 2 = ([0; 1]%nat, 1449466924)
  ∧ shuffle_order 1449466924 1 = ([0]%nat, 229283573)
  ∧ sample_positions 229283573 3 2 = ([1; 2]%nat, 1051550459)
  ∧ (∃ g, DistinctAuthors.main_author_diverse_stratified_sample
            exact_round_quota authored_population 2 (Random 0)
          = Return ([authored "b1" (Some "Y") "B"; authored "c0" (Some "Y") "C"],
                    g, []))
  ∧ (∃ g, DistinctAuthors.random_only_stratified_sample
            exact_round_quota authored_population 2 (Random 0)
          = Return ([authored "b0" (Some "X") "B"; authored "c0" (Some "Y") "C"],
                    g, []))
  ∧ size (sample_authors DistinctAuthors.main_author
            [authored "b1" (Some "Y") "B"; authored "c0" (Some "Y") "C"]) = 1%nat
  ∧ size (sample_authors DistinctAuthors.main_author
            [authored "b0" (Some "X") "B"; authored "c0" (Some "Y") "C"]) = 2%nat.
Proof.
  split_and!.
  - vm_compute; reflexivity.
  - eexists. split; vm_compute; reflexivity.
  - vm_compute; reflexivity.
  - vm_compute; reflexivity.
  - vm_compute; reflexivity.
  - vm_compute; reflexivity.
  - eexists. vm_compute; reflexivity.
  - eexists. vm_compute; reflexivity.
  - vm_compute; reflexivity.
  - vm_compute; reflexivity.
Qed.

(** C8, amended: for a population with distinct ids, the entries chosen by
    the per-stratum selection (before the global trim / top-up) carry at
    least as many distinct authors with the first pass as without it, and
    both selections have the same number of entries; so the same holds for
    the samples whenever the selection already has [target_size] entries
    and the sample is the selection. *)
Theorem diversity_before_trim `{PyRandom} (round_quota : Z → Z → Z → Z)
    (population : list DistinctAuthors.RepoEntry) (target_size : Z)
    (g : rng_state) :
  NoDup (DistinctAuthors.entry_id <$> population) →
  1 ≤ len population → 1 ≤ target_size →
  ∃ t out st st',
    DistinctAuthors.selection_stage round_quota true population target_size g
    = Return (t, out, st)
    ∧ DistinctAuthors.selection_stage round_quota false population
        target_size g
      = Return (t, out, st')
    ∧ (size (sample_authors DistinctAuthors.main_author (selected st'))
       ≤ size (sample_authors DistinctAuthors.main_author (selected st)))%nat
    ∧ length (selected st) = length (selected st')
    ∧ (len (selected st) = t →
       ∃ g',
         DistinctAuthors.main_author_diverse_stratified_sample round_quota
           population target_size g
         = Return (selected st, g', out)
         ∧ DistinctAuthors.random_only_stratified_sample round_quota
             population target_size g
           = Return (selected st', g', out)).
Proof.
  intros Hids Hn Ht. assert (population ≠ []) as Hne by (by destruct population).
  assert (NoDup population) as Hnd by (by apply NoDup_fmap_1 in Hids).
  destruct (check_target_Return population target_size Hne Ht) as [out Hout].
  set (t := Z.min target_size (len population)) in *.
  destruct (allocate_spec DistinctAuthors.system round_quota population t Hne)
    as (alloc & Halloc & _).
  set (buckets := bucket_entries DistinctAuthors.system population) in *.
  assert (∀ s, s ∈ systems_sorted buckets → s ∈ keys buckets) as Hk.
  { intros s. by rewrite systems_sorted_perm. }
  destruct (selection_pass_covers DistinctAuthors.main_author buckets alloc
              (systems_sorted buckets) (Selection [] [] ∅ g)
              (Selection [] [] ∅ g) Hk)
    as (st & st' & Hpass & Hpass' & [Hrng Hauth Hlen]).
  { intros s bucket. by apply buckets_NoDup_entries. }
  { split; cbn; [done|set_solver|done]. }
  destruct (selection_pass_spec DistinctAuthors.main_author true buckets alloc
              (systems_sorted buckets) (Selection [] [] ∅ g) [] Hk)
    as (st0 & Hpass0 & _ & [_ _ Hused Hin] & _).
  { done. }
  { split; cbn; [constructor|constructor|set_solver|done]. }
  assert (st0 = st) as -> by congruence.
  assert (DistinctAuthors.selection_stage round_quota true population
            target_size g = Return (t, out, st)) as Hstage.
  { unfold DistinctAuthors.selection_stage, selection_stage.
    rewrite Hout. cbn. rewrite Halloc. cbn. by rewrite Hpass. }
  assert (DistinctAuthors.selection_stage round_quota false population
            target_size g = Return (t, out, st')) as Hstage'.
  { unfold DistinctAuthors.selection_stage, selection_stage.
    rewrite Hout. cbn. rewrite Halloc. cbn. by rewrite Hpass'. }
  exists t, out, st, st'. split_and!; try done.
  - apply subseteq_size. etrans; [exact Hauth|]. rewrite Hused.
    unfold sample_authors.
    intros a (e & He & Ha)%elem_of_list_to_set%list_elem_of_omap.
    apply elem_of_list_to_set, list_elem_of_omap. exists e. split; [auto|done].
  - intros Hsel. exists (rng st).
    unfold DistinctAuthors.main_author_diverse_stratified_sample,
      DistinctAuthors.random_only_stratified_sample,
      main_author_diverse_stratified_sample, random_only_stratified_sample,
      sample_with_selection.
    unfold DistinctAuthors.selection_stage in Hstage, Hstage'.
    rewrite Hstage, Hstage'. cbn. unfold reconcile.
    rewrite <- Hlen, <- Hrng.
    rewrite !decide_False by lia. done.
Qed.

Lemma diversity_before_trim_witness :
  NoDup (DistinctAuthors.entry_id <$> authored_population)
  ∧ 1 ≤ len authored_population ∧ 1 ≤ 3
  ∧ ∃ t out st st',
      DistinctAuthors.selection_stage exact_round_quota true
        authored_population 3 (Random 0)
      = Return (t, out, st)
      ∧ DistinctAuthors.selection_stage exact_round_quota false
          authored_population 3 (Random 0)
        = Return (t, out, st')
      ∧ (size (sample_authors DistinctAuthors.main_author (selected st'))
         ≤ size (sample_authors DistinctAuthors.main_author (selected st)))%nat
      ∧ length (selected st) = length (selected st')
      ∧ (len (selected st) = t →
         ∃ g',
           DistinctAuthors.main_author_diverse_stratified_sample
             exact_round_quota authored_population 3 (Random 0)
           = Return (selected st, g', out)
           ∧ DistinctAuthors.random_only_stratified_sample exact_round_quota
               authored_population 3 (Random 0)
             = Return (selected st', g', out)).
Proof.
  assert (NoDup (DistinctAuthors.entry_id <$> authored_population)) as H1
    by (apply (bool_decide_unpack _); vm_compute; exact I).
  assert (1 ≤ len authored_population) as H2 by (vm_compute; discriminate).
  assert (1 ≤ 3) as H3 by lia.
  split_and!; try assumption.
  exact (diversity_before_trim exact_round_quota authored_population 3
           (Random 0) H1 H2 H3).
Defined.

(** ** The order in which strata are processed *)

Lemma fmap_constant {A B} (f : A → B) (x : B) (l : list A) :
  Forall (λ e, f e = x) l → f <$> l = replicate (length l) x.
Proof. induction 1 as [|e l He _ IH]; cbn; [done | by rewrite He, IH]. Qed.

Lemma submseteq_Forall {A} (P : A → Prop) (l k : list A) :
  l ⊆+ k → Forall P k → Forall P l.
Proof.
  intros Hsub Hk. apply Forall_forall. intros x Hx.
  rewrite Forall_forall in Hk. apply Hk. by eapply elem_of_submseteq.
Qed.

Section order_facts.
Context {E : Type} `{EqDecision E} (system : E → string).
Context (main_author : E → option string) `{PyRandom}.
Implicit Types (entries bucket : list E) (buckets : dict (list E)).

Lemma bucket_entries_keys entries :
  keys (bucket_entries system entries) = first_seen (system <$> entries).
Proof.
  induction entries as [|e entries IH] using rev_ind; [done|].
  rewrite bucket_entries_snoc, setdefault_append_keys, fmap_app.
  unfold first_seen. rewrite foldl_app. cbn. fold (first_seen (system <$> entries)).
  by rewrite IH.
Qed.

(** A stratum with a positive quota and a non-empty bucket contributes at
    least one entry, all of them from its bucket. *)
Lemma select_system_grows diversity_first need bucket (st : selection) :
  0 < need → bucket ≠ [] →
  ∃ filled,
    selected (select_system main_author diversity_first need bucket st)
    = selected st ++ filled
    ∧ filled ≠ [] ∧ filled ⊆+ bucket.
Proof.
  intros Hneed Hne.
  destruct (select_system_spec main_author diversity_first need bucket st)
    as (filled & picks & Heq & Hsub & Hsup & _).
  exists filled. rewrite Heq. split_and!; [done| |done].
  intros ->. unfold select_system in Heq.
  pose proof (rng_shuffle_perm (rng st) bucket) as Hperm.
  destruct (rng_shuffle (rng st) bucket) as [l g]. cbn in Hperm.
  destruct l as [|e l]; [by apply Permutation_nil_l in Hperm|].
  assert (∀ ss, (if decide (len ss < need)
                 then second_pass need (e :: l) ss else ss) ≠ []) as Hfill.
  { intros ss. case_decide as Hlt.
    - destruct ss as [|x ss].
      + cbn [second_pass]. rewrite decide_False by (cbn; lia).
        rewrite decide_False by apply not_elem_of_nil.
        destruct (second_pass_spec need l ([] ++ [e])) as (_ & _ & Hin);
          [apply NoDup_singleton|].
        intros Hnil. specialize (Hin e). rewrite Hnil in Hin.
        eapply not_elem_of_nil, Hin. left.
      + intros Hnil.
        assert (∀ l' ss', x ∈ ss' → x ∈ second_pass need l' ss') as Hkeep.
        { clear. induction l' as [|e' l' IH]; intros ss' Hx; cbn; [done|].
          repeat case_decide; auto. apply IH, elem_of_app. by left. }
        eapply not_elem_of_nil. rewrite <- Hnil. apply Hkeep. left.
    - intros ->. cbn in Hlt. lia. }
  destruct diversity_first.
  - destruct (first_pass main_author need (e :: l) [] (used_authors st))
      as [ss used].
    injection Heq as Heq _ _. apply app_inv_head in Heq.
    apply (Hfill ss). exact Heq.
  - injection Heq as Heq _ _. apply app_inv_head in Heq.
    apply (Hfill []). exact Heq.
Qed.

Lemma selection_pass_blocks diversity_first buckets alloc systems
    (st st' : selection) :
  (∀ s, s ∈ systems →
     ∃ bucket, dict_get buckets s = Some bucket ∧ bucket ≠ []
               ∧ Forall (λ e, system e = s) bucket) →
  (∀ s, s ∈ systems → 0 < default 0 (dict_get alloc s)) →
  selection_pass main_author diversity_first buckets alloc systems st
  = Return st' →
  ∃ counts,
    length counts = length systems ∧ Forall (λ c, 0 < c)%nat counts
    ∧ system <$> selected st'
      = (system <$> selected st) ++ in_blocks counts systems.
Proof.
  revert st. induction systems as [|s systems IH]; intros st Hb Hq; cbn.
  - intros [= <-]. exists []. split_and!; [done|constructor|].
    by rewrite app_nil_r.
  - destruct (Hb s) as (bucket & Hs & Hne & Hsys); [left|].
    unfold dict_item. rewrite Hs. cbn.
    rewrite decide_False; cycle 1.
    { intros [?|?]; [|done]. specialize (Hq s ltac:(left)). lia. }
    destruct (select_system_grows diversity_first
                (default 0 (dict_get alloc s)) bucket st)
      as (filled & Hsel & Hfne & Hsub); [apply Hq; left | done |].
    intros Hrun. apply IH in Hrun as (counts & Hlen & Hpos & Hsys').
    + exists (length filled :: counts). split_and!.
      * cbn. by rewrite Hlen.
      * constructor; [|done]. destruct filled; [done | cbn; lia].
      * rewrite Hsys', Hsel, fmap_app, <- app_assoc. f_equal.
        unfold in_blocks. cbn. f_equal. apply fmap_constant.
        by eapply submseteq_Forall.
    + intros s' Hs'. apply Hb. by right.
    + intros s' Hs'. apply Hq. by right.
Qed.

Lemma draw_samples_blocks alloc (items : dict (list E)) selected g selected' g' :
  Forall (λ kb, kb.2 ≠ [] ∧ Forall (λ e, system e = kb.1) kb.2) items →
  (∀ s, s ∈ keys items → 0 < default 0 (dict_get alloc s)) →
  draw_samples alloc items selected g = Return (selected', g') →
  ∃ counts,
    length counts = length items ∧ Forall (λ c, 0 < c)%nat counts
    ∧ system <$> selected'
      = (system <$> selected) ++ in_blocks counts (keys items).
Proof.
  revert selected g.
  induction items as [|[s bucket] items IH]; intros selected g Hb Hq; cbn.
  - intros [= <- <-]. exists []. split_and!; [done|constructor|].
    by rewrite app_nil_r.
  - apply Forall_cons in Hb as [[Hne Hsys] Hb]. cbn in Hne, Hsys.
    assert (0 < default 0 (dict_get alloc s)) as Hpos by (apply Hq; left).
    assert (0 < len bucket) as Hlen
      by (destruct bucket; [done | cbn [length]; lia]).
    rewrite decide_False by lia.
    match goal with |- context [rng_sample g bucket ?k] =>
      destruct (rng_sample_Return g bucket k)
        as (drawn & g1 & -> & Hdrawn & Hk); [lia|] end. cbn.
    intros Hrun. apply IH in Hrun as (counts & Hlen' & Hpos' & Hsys').
    + exists (length drawn :: counts). split_and!.
      * cbn. by rewrite Hlen'.
      * constructor; [lia|done].
      * rewrite Hsys', fmap_app, <- app_assoc. f_equal.
        unfold in_blocks. cbn. f_equal. apply fmap_constant.
        by eapply submseteq_Forall.
    + done.
    + intros s' Hs'. apply Hq. by right.
Qed.
End order_facts.

(** C6, as stated, fails.  Two strata of size 1 are sorted ["b"; "a"], the
    order in which the labels first appear, which is not the documented
    order (ties by ascending label).  And [stratified_sample] draws from
    the strata as the dictionary lists them, here the stratum of size 1
    before the stratum of size 2. *)
Lemma stratum_order_counterexample :
  systems_sorted (bucket_entries Script.system tied_strata) = ["b"; "a"]
  ∧ ¬ StronglySorted
        (documented_order
           (bucket_size (bucket_entries Script.system tied_strata)))
        ["b"; "a"]
  ∧ systems_sorted (bucket_entries Script.system small_first) = ["b"; "s"]
  ∧ ∃ g, Script.stratified_sample exact_round_quota small_first 3 (Random 0)
         = Return ([orca "e1" "s"; orca "e2" "b"; orca "e3" "b"], g, []).
Proof.
  split_and!.
  - by vm_compute.
  - intros Hs. apply StronglySorted_inv in Hs as [_ Hb].
    apply Forall_cons in Hb as [[Hlt|[_ Hle]] _].
    + vm_compute in Hlt. lia.
    + by vm_compute in Hle.
  - by vm_compute.
  - eexists. by vm_compute.
Qed.

Lemma systems_sorted_order {E} (system : E → string) (entries : list E) :
  by_size_then_first_seen system entries
    (systems_sorted (bucket_entries system entries)).
Proof.
  unfold by_size_then_first_seen, systems_sorted. cbv zeta.
  rewrite <- bucket_entries_keys. split_and!.
  - apply sorted_reverse_perm.
  - apply sorted_reverse_sorted.
  - intros n. apply sorted_reverse_stable.
Qed.

(** *** The fix-up goes round the sorted strata *)

Lemma turns_0 (L i : nat) : turns L 0 i = 0%nat.
Proof.
  unfold turns. rewrite Nat.Div0.div_0_l, Nat.Div0.mod_0_l.
  by rewrite decide_False by lia.
Qed.

Lemma turns_S (L r i : nat) :
  (0 < L)%nat → (i < L)%nat →
  turns L (S r) i
  = (turns L r i + (if decide (r mod L = i) then 1 else 0))%nat.
Proof.
  intros HL Hi. unfold turns.
  pose proof (Nat.div_mod_eq r L) as Hr.
  pose proof (Nat.mod_upper_bound r L ltac:(lia)) as Hm.
  destruct (decide (r mod L = L - 1)%nat) as [Hlast|Hmid].
  - assert (S r = (r / L + 1) * L + 0)%nat as Hs by nia.
    assert (S r / L = r / L + 1)%nat as ->
      by (symmetry; apply (Nat.div_unique _ _ _ 0%nat); lia).
    assert (S r mod L = 0)%nat as ->
      by (symmetry; apply (Nat.mod_unique _ _ (r / L + 1)%nat); lia).
    repeat case_decide; lia.
  - assert (S r = L * (r / L) + (r mod L + 1))%nat as Hs by lia.
    assert (S r / L = r / L)%nat as ->
      by (symmetry; apply (Nat.div_unique _ _ _ (r mod L + 1)%nat); lia).
    assert (S r mod L = r mod L + 1)%nat as ->
      by (symmetry; apply (Nat.mod_unique _ _ (r / L)%nat); lia).
    repeat case_decide; lia.
Qed.

Lemma turns_mono (L r k i : nat) :
  (0 < L)%nat → (i < L)%nat → (turns L r i ≤ turns L (r + k) i)%nat.
Proof.
  intros HL Hi. induction k as [|k IH]; [by rewrite Nat.add_0_r|].
  rewrite Nat.add_succ_r, turns_S by done. lia.
Qed.

Section fix_up_order.
Context (systems : list string).
Hypothesis systems_nonempty : systems ≠ [].

Lemma alloc_ok_NoDup alloc : alloc_ok systems alloc → NoDup systems.
Proof. intros [Hnd Hk _]. by rewrite <- Hk. Qed.

(** A turn at [idx] is a turn of the stratum at position [i] exactly when
    [idx mod L = i]. *)
Lemma turn_of alloc idx i s0 s :
  alloc_ok systems alloc →
  systems !! (idx mod length systems)%nat = Some s0 →
  systems !! i = Some s →
  (i < length systems)%nat ∧ (0 < length systems)%nat
  ∧ (s0 = s ↔ (idx mod length systems)%nat = i).
Proof.
  intros Hok Hs0 Hs. pose proof (alloc_ok_NoDup _ Hok) as Hnd.
  pose proof (lookup_lt_Some _ _ _ Hs) as Hi. split_and!; [done|lia|].
  split.
  - intros ->. by eapply NoDup_lookup.
  - intros Heq. rewrite Heq in Hs0. congruence.
Qed.

Lemma distribute_remaining_turns remaining : ∀ idx alloc,
  alloc_ok systems alloc →
  ∃ alloc',
    distribute_remaining systems remaining idx alloc = Return alloc'
    ∧ keys alloc' = keys alloc
    ∧ ∀ i s v,
        systems !! i = Some s → dict_get alloc s = Some v →
        dict_get alloc' s
        = Some (v + Z.of_nat (turns (length systems) (idx + remaining) i
                              - turns (length systems) idx i)).
Proof.
  induction remaining as [|r IH]; intros idx alloc Hok.
  - exists alloc. split_and!; [done..|]. intros i s v _ Hv.
    rewrite Nat.add_0_r, Nat.sub_diag, Hv. f_equal. lia.
  - cbn [distribute_remaining].
    destruct (cyclic_item_Return systems idx systems_nonempty)
      as (s0 & -> & Hs0). cbn.
    pose proof (list_elem_of_lookup_2 _ _ _ Hs0) as Hin0.
    destruct (alloc_ok_item _ _ s0 Hok Hin0) as (v0 & Hv0 & -> & Hge0). cbn.
    destruct (IH (S idx) (dict_set s0 (v0 + 1) alloc))
      as (alloc' & -> & Hkeys & Hturns).
    { apply alloc_ok_set; [done..|lia]. }
    exists alloc'. split_and!; [done| |].
    + rewrite Hkeys. apply dict_set_keys_present, dict_get_is_Some. eauto.
    + intros i s v Hs Hv.
      destruct (turn_of alloc idx i s0 s Hok Hs0 Hs) as (Hi & HL & Hturn).
      pose proof (turns_S (length systems) idx i HL Hi) as HS.
      pose proof (turns_mono (length systems) (S idx) r i HL Hi) as Hmono.
      replace (idx + S r)%nat with (S idx + r)%nat by lia.
      destruct (decide (s0 = s)) as [->|Hne].
      * rewrite decide_True in HS by (by apply Hturn).
        assert (v0 = v) as -> by congruence.
        rewrite (Hturns i s (v + 1) Hs) by (by rewrite dict_get_set, decide_True).
        f_equal. lia.
      * rewrite decide_False in HS by (by rewrite <- Hturn).
        rewrite (Hturns i s v Hs)
          by (by rewrite dict_get_set, decide_False).
        f_equal. lia.
Qed.

Lemma remove_surplus_turns fuel : ∀ surplus idx alloc alloc',
  alloc_ok systems alloc →
  remove_surplus fuel systems surplus idx alloc = Return alloc' →
  keys alloc' = keys alloc
  ∧ ∃ n : nat,
      ∀ i s v,
        systems !! i = Some s → dict_get alloc s = Some v →
        dict_get alloc' s
        = Some (Z.max 1
                  (v - Z.of_nat (turns (length systems) (idx + n) i
                                 - turns (length systems) idx i))).
Proof.
  induction fuel as [|fuel IH]; intros surplus idx alloc alloc' Hok;
    rewrite remove_surplus_unfold.
  all: destruct (bool_decide (0 < surplus) && any_above_one alloc);
    [|intros [= <-]; split; [done|]; exists 0%nat; intros i s v _ Hv;
      rewrite Nat.add_0_r, Nat.sub_diag, Hv; f_equal;
      pose proof (dict_get_Forall (λ v, 1 ≤ v) _ _ _
                    (alloc_ge_1 _ _ Hok) Hv); cbn in *; lia].
  - done.
  - destruct (cyclic_item_Return systems idx systems_nonempty)
      as (s0 & -> & Hs0). cbn.
    pose proof (list_elem_of_lookup_2 _ _ _ Hs0) as Hin0.
    destruct (alloc_ok_item _ _ s0 Hok Hin0) as (v0 & Hv0 & -> & Hge0). cbn.
    destruct (decide (1 < v0)) as [Hv1|Hv1]; intros Hrun.
    + destruct (IH _ _ _ _ (alloc_ok_set _ _ s0 (v0 - 1) Hok Hin0
                              ltac:(lia)) Hrun) as (Hkeys & n & Hturns).
      split.
      { rewrite Hkeys. apply dict_set_keys_present, dict_get_is_Some. eauto. }
      exists (S n). intros i s v Hs Hv.
      destruct (turn_of alloc idx i s0 s Hok Hs0 Hs) as (Hi & HL & Hturn).
      pose proof (turns_S (length systems) idx i HL Hi) as HS.
      pose proof (turns_mono (length systems) (S idx) n i HL Hi) as Hmono.
      replace (idx + S n)%nat with (S idx + n)%nat by lia.
      destruct (decide (s0 = s)) as [->|Hne].
      * rewrite decide_True in HS by (by apply Hturn).
        assert (v0 = v) as -> by congruence.
        rewrite (Hturns i s (v - 1) Hs) by (by rewrite dict_get_set, decide_True).
        f_equal. lia.
      * rewrite decide_False in HS by (by rewrite <- Hturn).
        rewrite (Hturns i s v Hs)
          by (by rewrite dict_get_set, decide_False).
        f_equal. lia.
    + destruct (IH _ _ _ _ Hok Hrun) as (Hkeys & n & Hturns).
      split; [done|].
      exists (S n). intros i s v Hs Hv.
      destruct (turn_of alloc idx i s0 s Hok Hs0 Hs) as (Hi & HL & Hturn).
      pose proof (turns_S (length systems) idx i HL Hi) as HS.
      pose proof (turns_mono (length systems) (S idx) n i HL Hi) as Hmono.
      replace (idx + S n)%nat with (S idx + n)%nat by lia.
      rewrite (Hturns i s v Hs Hv). f_equal.
      destruct (decide (s0 = s)) as [->|Hne].
      * rewrite decide_True in HS by (by apply Hturn).
        assert (v0 = v) as -> by congruence. lia.
      * rewrite decide_False in HS by (by rewrite <- Hturn). lia.
Qed.

Lemma adjust_alloc_in_order initial target_size :
  alloc_ok systems initial →
  ∃ alloc,
    adjust_alloc systems initial target_size = Return alloc
    ∧ alloc_ok systems alloc
    ∧ fixed_up_in_order systems initial alloc target_size.
Proof.
  intros Hok.
  destruct (adjust_alloc_spec systems initial target_size systems_nonempty Hok)
    as (alloc & Hrun & Hok' & Hsum).
  exists alloc. split_and!; [done..|]. revert Hrun.
  unfold adjust_alloc, fixed_up_in_order. cbv zeta.
  destruct (decide (sum_values initial < target_size)) as [Hlt|Hge].
  - destruct (distribute_remaining_turns
                (Z.to_nat (target_size - sum_values initial)) 0 initial Hok)
      as (alloc1 & -> & Hkeys & Hturns).
    intros [= <-]. split_and!; [done..|].
    exists (Z.to_nat (target_size - sum_values initial)). split; [done|].
    intros i s v Hs Hv. rewrite decide_True by lia.
    rewrite (Hturns i s v Hs Hv), turns_0, Nat.add_0_l, Nat.sub_0_r. done.
  - destruct (decide (target_size < sum_values initial)) as [Hgt|Heq].
    + intros Hrun.
      destruct (remove_surplus_turns _ _ _ _ _ Hok Hrun)
        as (Hkeys & n & Hturns).
      split_and!; [done..|]. exists n. split; [lia|].
      intros i s v Hs Hv. rewrite decide_False by lia.
      rewrite (Hturns i s v Hs Hv), turns_0, Nat.add_0_l, Nat.sub_0_r. done.
    + intros [= <-]. split_and!; [done..|]. exists 0%nat.
      split; [lia|]. intros i s v Hs Hv. rewrite decide_True by lia.
      rewrite turns_0, Hv. f_equal. lia.
Qed.
End fix_up_order.

(** C6, amended: the list both fix-up loops cycle through holds the stratum
    labels by descending bucket size, strata of equal size in the order in
    which their labels first appear in the population (the dictionary's
    insertion order), not in lexical order.  The allocation both functions
    work with is the initial allocation fixed up by going round that list
    from its first label on: the stratum at position [i] has had
    [turns L n i] turns after [n] iterations, each turn giving it one unit
    (short of the target) or taking one unit unless its quota is 1 (above
    the target).  [main_author_diverse_stratified_sample] selects from the
    strata in that same order; [stratified_sample] draws from them in
    insertion order, whatever their sizes.  In both, every stratum
    contributes one block of at least one entry to the selection, the
    blocks in the order of the strata. *)
Theorem stratum_order `{PyRandom} (round_quota : Z → Z → Z → Z)
    (population : list Script.RepoEntry)
    (population' : list DistinctAuthors.RepoEntry)
    (target_size : Z) (g : rng_state) :
  1 ≤ len population → 1 ≤ len population' → 1 ≤ target_size →
  (let t := Z.min target_size (len population) in
   let buckets := bucket_entries Script.system population in
   let systems := systems_sorted buckets in
   ∃ alloc selected g' out counts,
     allocate Script.system round_quota population t
     = Return (buckets, alloc, systems)
     ∧ by_size_then_first_seen Script.system population systems
     ∧ fixed_up_in_order systems
         (initial_alloc round_quota buckets (len population) t) alloc t
     ∧ draw_samples alloc buckets [] g = Return (selected, g')
     ∧ Script.stratified_sample round_quota population target_size g
       = ('(sample, g) ← reconcile Script.entry_id population t selected g';
          Return (sample, g, out))
     ∧ length counts = length (first_seen (Script.system <$> population))
     ∧ Forall (λ c, 0 < c)%nat counts
     ∧ Script.system <$> selected
       = in_blocks counts (first_seen (Script.system <$> population)))
  ∧ (let t := Z.min target_size (len population') in
     let buckets := bucket_entries DistinctAuthors.system population' in
     let systems := systems_sorted buckets in
     ∃ alloc out st counts,
       allocate DistinctAuthors.system round_quota population' t
       = Return (buckets, alloc, systems)
       ∧ by_size_then_first_seen DistinctAuthors.system population' systems
       ∧ fixed_up_in_order systems
           (initial_alloc round_quota buckets (len population') t) alloc t
       ∧ selection_pass DistinctAuthors.main_author true buckets alloc systems
           (Selection [] [] ∅ g)
         = Return st
       ∧ DistinctAuthors.selection_stage round_quota true population'
           target_size g
         = Return (t, out, st)
       ∧ length counts = length systems
       ∧ Forall (λ c, 0 < c)%nat counts
       ∧ DistinctAuthors.system <$> selected st = in_blocks counts systems).
Proof.
  intros Hn Hn' Ht.
  assert (population ≠ []) as Hne by (by destruct population).
  assert (population' ≠ []) as Hne' by (by destruct population').
  split.
  - intros t buckets systems.
    destruct (stratified_sample_selected Script.system round_quota
                population target_size g Hne Ht)
      as (out & alloc & selected & g' & Hc & Ha & Hd & _).
    fold t buckets systems in Hc, Ha, Hd.
    destruct (adjust_alloc_in_order systems
                (systems_sorted_nonempty Script.system population Hne)
                (initial_alloc round_quota buckets (len population) t) t
                (initial_alloc_ok Script.system round_quota population
                   (len population) t))
      as (alloc0 & Hadj & Hok & Hfix).
    assert (alloc0 = alloc) as ->.
    { revert Ha. unfold allocate. cbv zeta. fold buckets systems.
      rewrite Hadj. cbn. congruence. }
    destruct (bucket_entries_spec Script.system population)
      as [Hnd _ Hnonempty Hsys]. fold buckets in Hnd, Hnonempty, Hsys.
    destruct (draw_samples_blocks Script.system alloc buckets [] g selected g')
      as (counts & Hlen & Hpos & Hblocks); [| |done|].
    { apply Forall_forall. intros kb Hkb. rewrite Forall_forall in Hnonempty, Hsys.
      split; auto. }
    { intros s Hs. rewrite <- systems_sorted_perm in Hs.
      destruct (alloc_ok_item _ _ s Hok Hs) as (v & -> & _ & Hv). cbn. lia. }
    exists alloc, selected, g', out, counts. split_and!; try done.
    + apply systems_sorted_order.
    + unfold Script.stratified_sample, stratified_sample.
      fold t. rewrite Hc. cbn. fold buckets systems. rewrite Ha. cbn.
      by rewrite Hd.
    + rewrite Hlen, <- bucket_entries_keys. unfold keys.
      by rewrite length_fmap.
    + by rewrite <- bucket_entries_keys.
  - intros t buckets systems.
    destruct (check_target_Return population' target_size Hne' Ht) as [out Hout].
    fold t in Hout.
    destruct (adjust_alloc_in_order systems
                (systems_sorted_nonempty DistinctAuthors.system population'
                   Hne')
                (initial_alloc round_quota buckets (len population') t) t
                (initial_alloc_ok DistinctAuthors.system round_quota
                   population' (len population') t))
      as (alloc & Hadj & Hok & Hfix).
    assert (allocate DistinctAuthors.system round_quota population' t
            = Return (buckets, alloc, systems)) as Ha.
    { unfold allocate. cbv zeta. fold buckets systems. by rewrite Hadj. }
    destruct (bucket_entries_spec DistinctAuthors.system population')
      as [Hnd _ Hnonempty Hsys]. fold buckets in Hnd, Hnonempty, Hsys.
    destruct (selection_pass_spec DistinctAuthors.main_author true buckets alloc
                systems (Selection [] [] ∅ g) [])
      as (st & Hpass & _).
    { intros s. unfold systems. by rewrite systems_sorted_perm. }
    { done. }
    { split; cbn; [constructor|constructor|set_solver|done]. }
    destruct (selection_pass_blocks DistinctAuthors.system
                DistinctAuthors.main_author true buckets alloc
                systems (Selection [] [] ∅ g) st)
      as (counts & Hlen & Hpos & Hblocks); [| |done|].
    { intros s Hs. unfold systems in Hs. rewrite systems_sorted_perm in Hs.
      apply dict_get_is_Some in Hs as [bucket Hb]. exists bucket.
      pose proof (dict_get_Some_elem _ _ _ Hb) as Hin.
      rewrite Forall_forall in Hnonempty, Hsys.
      split_and!; [done|apply (Hnonempty _ Hin)|apply (Hsys _ Hin)]. }
    { intros s Hs.
      destruct (alloc_ok_item _ _ s Hok Hs) as (v & -> & _ & Hv). cbn. lia. }
    exists alloc, out, st, counts. split_and!; try done.
    + apply systems_sorted_order.
    + unfold DistinctAuthors.selection_stage, selection_stage.
      fold t. rewrite Hout. cbn. rewrite Ha. cbn. by rewrite Hpass.
Qed.

(** ** Fetching *)

Section fetch_facts.
Context {R : Type} (from_api_result : raw_hit → outcome R).
(** [from_api_result] raises nothing but [KeyError]. *)
Hypothesis only_KeyError :
  ∀ d, is_Some (kept from_api_result d)
       ∨ raises_KeyError (from_api_result d) = true.

Lemma collect_hits_spec hits all_entries :
  collect_hits from_api_result hits all_entries
  = Return (all_entries ++ omap (kept from_api_result) hits).
Proof.
  revert all_entries. induction hits as [|d hits IH]; intros all_entries; cbn.
  - by rewrite app_nil_r.
  - unfold kept at 1.
    destruct (only_KeyError d) as [[e He]|Hk]; unfold kept in *.
    + destruct (from_api_result d) as [e'| |]; [|done..].
      cbn. by rewrite IH, <- app_assoc.
    + destruct (from_api_result d) as [e'|[]|]; done.
Qed.

Lemma kept_or_malformed hits :
  (length (omap (kept from_api_result) hits)
   + malformed from_api_result hits = length hits)%nat.
Proof.
  unfold malformed. induction hits as [|d hits IH]; [done|].
  cbn [omap list_omap length]. rewrite filter_cons.
  pose proof (only_KeyError d) as Hd. unfold kept in *.
  destruct (from_api_result d) as [e|[]|]; cbn in *;
    try (destruct Hd as [[? ?]|?]; discriminate).
  - rewrite decide_False by done. lia.
  - rewrite decide_True by done. cbn [length]. lia.
Qed.

Lemma fetch_pages_no_KeyError post fuel n page_after_value all_entries page out k :
  (fetch_pages from_api_result post fuel n page_after_value all_entries page out).1
  ≠ Raise (KeyError k).
Proof.
  revert n page_after_value all_entries page out.
  induction fuel as [|fuel IH]; intros n pav all_entries page out; cbn; [done|].
  case_decide; [done|]. case_decide; [done|].
  rewrite collect_hits_spec.
  destruct (next_page_after_value (post n pav)) as [next_val|]; [|done].
  case_decide; [done|]. apply IH.
Qed.

Lemma fetch_one_page hits fuel :
  hits ≠ [] →
  fetch_all from_api_result (one_page hits) (S fuel)
  = (Return (omap (kept from_api_result) hits),
     [InfoFetching;
      PageLine 1 (len hits) (len (omap (kept from_api_result) hits));
      InfoDone (len (omap (kept from_api_result) hits))]).
Proof.
  intros Hne. unfold fetch_all, one_page.
  cbn [fetch_pages status_code data next_page_after_value].
  rewrite (decide_False (P := 400 ≤ 200 < 600)) by lia.
  rewrite (decide_False (P := hits = [])) by done.
  by rewrite collect_hits_spec.
Qed.
End fetch_facts.

Lemma Script_only_KeyError d :
  is_Some (kept Script.from_api_result d)
  ∨ raises_KeyError (Script.from_api_result d) = true.
Proof.
  unfold kept, Script.from_api_result.
  destruct (hit_entry_id d); [left; eauto | by right].
Qed.

Lemma DistinctAuthors_only_KeyError strip d :
  is_Some (kept (DistinctAuthors.from_api_result strip) d)
  ∨ raises_KeyError (DistinctAuthors.from_api_result strip d) = true.
Proof.
  unfold kept, DistinctAuthors.from_api_result.
  destruct (hit_entry_id d); [left; eauto | by right].
Qed.

(** C9, as stated, fails in its last part.  A page with a good hit and a
    page with the same hit and a hit without the key [entry_id] give the
    caller the same list; the one skipped record shows nowhere in what is returned,
    and no line that is printed carries a count of skipped records. *)
Lemma skipped_count_counterexample :
  Script.fetch_all_orca_entries (one_page [good_hit]) 1
  = (Return [{| Script.entry_id := Some "e1"; Script.upload_id := Some "u1";
                Script.mainfile := Some "mol.out";
                Script.system := "molecule";
                Script.structural_type := Some "molecule" |}],
     [InfoFetching; PageLine 1 1 1; InfoDone 1])
  ∧ Script.fetch_all_orca_entries (one_page [good_hit; hit_without_id]) 1
    = (Return [{| Script.entry_id := Some "e1"; Script.upload_id := Some "u1";
                  Script.mainfile := Some "mol.out";
                  Script.system := "molecule";
                  Script.structural_type := Some "molecule" |}],
       [InfoFetching; PageLine 1 2 1; InfoDone 1])
  ∧ malformed Script.from_api_result [good_hit] = 0%nat
  ∧ malformed Script.from_api_result [good_hit; hit_without_id] = 1%nat
  ∧ ¬ ∃ report : list Script.RepoEntry → nat,
        ∀ hits entries,
          (Script.fetch_all_orca_entries (one_page hits) 1).1 = Return entries →
          report entries = malformed Script.from_api_result hits.
Proof.
  split_and!; try by vm_compute.
  intros [report Hreport].
  pose proof (Hreport [good_hit] _ eq_refl) as H1.
  pose proof (Hreport [good_hit; hit_without_id] _ eq_refl) as H2.
  vm_compute in H1, H2. congruence.
Qed.

(** C9, amended: in both scripts a hit without the key [entry_id], and no
    other hit, raises [KeyError]; the hit loop skips it and goes on with
    the remaining hits, and the fetch never ends in a [KeyError].  The
    entries of all other hits are kept, in order, each with the [entry_id]
    of its hit: a hit whose [entry_id] is null is kept too, as an entry
    with [entry_id = None].  No count of skipped hits is returned: the
    function returns the kept entries only, and the page line prints the
    number of hits received and the number of entries kept so far. *)
Theorem malformed_hits_skipped (strip : string → string)
    (hits : list raw_hit) :
  hits ≠ [] →
  (∀ d, hit_entry_id d = None
        ↔ Script.from_api_result d = Raise (KeyError "entry_id"))
  ∧ (∀ d, hit_entry_id d = None
          ↔ DistinctAuthors.from_api_result strip d
            = Raise (KeyError "entry_id"))
  ∧ (∀ d id, hit_entry_id d = Some id →
       (∃ e, Script.from_api_result d = Return e ∧ Script.entry_id e = id)
       ∧ ∃ e, DistinctAuthors.from_api_result strip d = Return e
              ∧ DistinctAuthors.entry_id e = id)
  ∧ (∀ all_entries,
       collect_hits Script.from_api_result hits all_entries
       = Return (all_entries ++ omap (kept Script.from_api_result) hits))
  ∧ (∀ all_entries,
       collect_hits (DistinctAuthors.from_api_result strip) hits all_entries
       = Return (all_entries
                 ++ omap (kept (DistinctAuthors.from_api_result strip)) hits))
  ∧ (length (omap (kept Script.from_api_result) hits)
     + malformed Script.from_api_result hits = length hits)%nat
  ∧ (∀ post fuel k,
       (Script.fetch_all_orca_entries post fuel).1 ≠ Raise (KeyError k)
       ∧ (DistinctAuthors.fetch_all_entries strip post fuel).1
         ≠ Raise (KeyError k))
  ∧ (∀ fuel,
       Script.fetch_all_orca_entries (one_page hits) (S fuel)
       = (Return (omap (kept Script.from_api_result) hits),
          [InfoFetching;
           PageLine 1 (len hits)
             (len (omap (kept Script.from_api_result) hits));
           InfoDone (len (omap (kept Script.from_api_result) hits))])).
Proof.
  intros Hne. split_and!.
  - intros d. unfold Script.from_api_result.
    destruct (hit_entry_id d); split; done.
  - intros d. unfold DistinctAuthors.from_api_result.
    destruct (hit_entry_id d); split; done.
  - intros d id Hid.
    unfold Script.from_api_result, DistinctAuthors.from_api_result.
    rewrite Hid. split; eexists; split; done.
  - intros all_entries. apply collect_hits_spec, Script_only_KeyError.
  - intros all_entries. apply collect_hits_spec, DistinctAuthors_only_KeyError.
  - apply kept_or_malformed, Script_only_KeyError.
  - intros post fuel k. split.
    + apply fetch_pages_no_KeyError, Script_only_KeyError.
    + apply fetch_pages_no_KeyError, DistinctAuthors_only_KeyError.
  - intros fuel. apply fetch_one_page; [apply Script_only_KeyError | done].
Qed.

Lemma malformed_hits_skipped_witness :
  Script.fetch_all_orca_entries
    (one_page [good_hit; hit_without_id; hit_with_null_id]) 1
  = (Return [{| Script.entry_id := Some "e1"; Script.upload_id := Some "u1";
                Script.mainfile := Some "mol.out";
                Script.system := "molecule";
                Script.structural_type := Some "molecule" |};
             {| Script.entry_id := None; Script.upload_id := Some "u3";
                Script.mainfile := Some "null.out";
                Script.system := "unknown";
                Script.structural_type := None |}],
     [InfoFetching; PageLine 1 3 2; InfoDone 2]).
Proof.
  assert ([good_hit; hit_without_id; hit_with_null_id] ≠ []) as H1
    by discriminate.
  destruct (malformed_hits_skipped id
              [good_hit; hit_without_id; hit_with_null_id] H1)
    as (_ & _ & _ & _ & _ & _ & _ & Hfetch).
  exact (Hfetch 0%nat).
Defined.

Lemma stratum_order_witness :
  1 ≤ len small_first ∧ 1 ≤ len authored_population ∧ 1 ≤ 3
  ∧ (let t := Z.min 3 (len small_first) in
     let buckets := bucket_entries Script.system small_first in
     let systems := systems_sorted buckets in
     ∃ alloc selected g' out counts,
       allocate Script.system exact_round_quota small_first t
       = Return (buckets, alloc, systems)
       ∧ by_size_then_first_seen Script.system small_first systems
       ∧ fixed_up_in_order systems
           (initial_alloc exact_round_quota buckets (len small_first) t)
           alloc t
       ∧ draw_samples alloc buckets [] (Random 0) = Return (selected, g')
       ∧ Script.stratified_sample exact_round_quota small_first 3 (Random 0)
         = ('(sample, g) ← reconcile Script.entry_id small_first t selected
                             g';
            Return (sample, g, out))
       ∧ length counts = length (first_seen (Script.system <$> small_first))
       ∧ Forall (λ c, 0 < c)%nat counts
       ∧ Script.system <$> selected
         = in_blocks counts (first_seen (Script.system <$> small_first)))
  ∧ (let t := Z.min 3 (len authored_population) in
     let buckets :=
       bucket_entries DistinctAuthors.system authored_population in
     let systems := systems_sorted buckets in
     ∃ alloc out st counts,
       allocate DistinctAuthors.system exact_round_quota authored_population t
       = Return (buckets, alloc, systems)
       ∧ by_size_then_first_seen DistinctAuthors.system authored_population
           systems
       ∧ fixed_up_in_order systems
           (initial_alloc exact_round_quota buckets
              (len authored_population) t) alloc t
       ∧ selection_pass DistinctAuthors.main_author true buckets alloc systems
           (Selection [] [] ∅ (Random 0))
         = Return st
       ∧ DistinctAuthors.selection_stage exact_round_quota true
           authored_population 3 (Random 0)
         = Return (t, out, st)
       ∧ length counts = length systems
       ∧ Forall (λ c, 0 < c)%nat counts
       ∧ DistinctAuthors.system <$> selected st = in_blocks counts systems).
Proof.
  assert (1 ≤ len small_first) as H1 by (vm_compute; discriminate).
  assert (1 ≤ len authored_population) as H2 by (vm_compute; discriminate).
  assert (1 ≤ 3) as H3 by lia.
  split_and!; try assumption.
  - exact (proj1 (stratum_order exact_round_quota small_first
                    authored_population 3 (Random 0) H1 H2 H3)).
  - exact (proj2 (stratum_order exact_round_quota small_first
                    authored_population 3 (Random 0) H1 H2 H3)).
Defined.

(** ** Mutable lists *)

Section store_facts.
Context {E : Type}.
Implicit Types (h hp rest : list (list E)) (l : list E).

Lemma store_bind_eq {A B} (m : storeM E A) (f : A → storeM E B) h :
  (m ≫= f) h
  = match m h with
    | (Return a, h') => f a h'
    | (Raise e, h') => (Raise e, h')
    | (OutOfFuel, h') => (OutOfFuel, h')
    end.
Proof. done. Qed.

Lemma store_bind_Return {A B} (m : storeM E A) (f : A → storeM E B) h a h' :
  m h = (Return a, h') → (m ≫= f) h = f a h'.
Proof. intros Hm. by rewrite store_bind_eq, Hm. Qed.

Lemma contents_at hp l rest :
  contents (length hp) (hp ++ l :: rest) = (Return l, hp ++ l :: rest).
Proof. unfold contents. by rewrite list_lookup_middle. Qed.

Lemma contents_Some h p l : h !! p = Some l → contents p h = (Return l, h).
Proof. unfold contents. by intros ->. Qed.

Lemma assign_at hp l l' rest :
  assign (length hp) l' (hp ++ l :: rest) = (Return (), hp ++ l' :: rest).
Proof.
  unfold assign. f_equal.
  rewrite <- (Nat.add_0_r (length hp)). by rewrite insert_app_r.
Qed.

Lemma append_at hp l (e : E) rest :
  append (length hp) e (hp ++ l :: rest)
  = (Return (), hp ++ (l ++ [e]) :: rest).
Proof.
  unfold append. rewrite (store_bind_Return _ _ _ _ _ (contents_at hp l rest)).
  apply assign_at.
Qed.

Lemma extend_at hp l (es : list E) rest :
  extend (length hp) es (hp ++ l :: rest)
  = (Return (), hp ++ (l ++ es) :: rest).
Proof.
  unfold extend. rewrite (store_bind_Return _ _ _ _ _ (contents_at hp l rest)).
  apply assign_at.
Qed.
End store_facts.

Section store_buckets.
Context {E : Type} (system : E → string).
Implicit Types (h hp : list (list E)) (buckets : dict (list E)).

Lemma bucket_append_cons k e k' p (bl : dict loc) h :
  k' ≠ k →
  bucket_append k e ((k', p) :: bl) h
  = (let '(r, h') := bucket_append k e bl h in
     (match r with
      | Return bl' => Return ((k', p) :: bl')
      | Raise x => Raise x
      | OutOfFuel => OutOfFuel
      end, h')).
Proof.
  intros Hne. unfold bucket_append. cbn [dict_get].
  rewrite decide_False by done.
  destruct (dict_get bl k) as [q|].
  - rewrite !store_bind_eq. by destruct (append q e h) as [[[]| |] h'].
  - rewrite !store_bind_eq. cbn.
    rewrite !store_bind_eq.
    destruct (append (length h) e (h ++ [[]])) as [[[]| |] h']; try done.
    cbn. by rewrite decide_False.
Qed.

Lemma bucket_append_spec k e buckets hp :
  bucket_append k e (buckets_from (length hp) buckets) (hp ++ values buckets)
  = (Return (buckets_from (length hp) (setdefault_append k e buckets)),
     hp ++ values (setdefault_append k e buckets)).
Proof.
  revert hp. induction buckets as [|[k' l] buckets IH]; intros hp.
  - cbn. unfold bucket_append. cbn. rewrite store_bind_eq. cbn.
    rewrite app_nil_r.
    rewrite (store_bind_Return _ _ _ _ _ (append_at hp [] e [])). done.
  - cbn [buckets_from setdefault_append]. destruct (decide (k' = k)) as [->|Hne].
    + unfold bucket_append. cbn [dict_get]. rewrite decide_True by done.
      unfold values. cbn [fmap list_fmap snd].
      rewrite (store_bind_Return _ _ _ _ _ (append_at hp l e _)). done.
    + rewrite bucket_append_cons by done.
      unfold values in *. cbn [fmap list_fmap snd].
      specialize (IH (hp ++ [l])). rewrite length_app in IH. cbn [length] in IH.
      rewrite Nat.add_1_r, <- !app_assoc in IH. cbn [app] in IH.
      by rewrite IH.
Qed.

Lemma fill_buckets_spec entries buckets hp :
  fill_buckets system entries (buckets_from (length hp) buckets)
    (hp ++ values buckets)
  = (Return (buckets_from (length hp)
               (foldl (λ buckets e, setdefault_append (system e) e buckets)
                  buckets entries)),
     hp ++ values (foldl (λ buckets e, setdefault_append (system e) e buckets)
                     buckets entries)).
Proof.
  revert buckets. induction entries as [|e entries IH]; intros buckets; cbn.
  - done.
  - rewrite (store_bind_Return _ _ _ _ _ (bucket_append_spec _ e buckets hp)).
    apply IH.
Qed.

Lemma read_buckets_spec buckets hp rest :
  read_buckets (buckets_from (length hp) buckets) (hp ++ values buckets ++ rest)
  = (Return buckets, hp ++ values buckets ++ rest).
Proof.
  revert hp. induction buckets as [|[k l] buckets IH]; intros hp; [done|].
  cbn [buckets_from read_buckets]. unfold values. cbn [fmap list_fmap snd app].
  rewrite (store_bind_Return _ _ _ _ _ (contents_at hp l _)).
  specialize (IH (hp ++ [l])). rewrite length_app in IH. cbn [length] in IH.
  rewrite Nat.add_1_r, <- !app_assoc in IH. cbn [app] in IH.
  unfold values in IH. by rewrite (store_bind_Return _ _ _ _ _ IH).
Qed.
End store_buckets.

Section store_sampling.
Context {E : Type} `{EqDecision E} {K : Type} `{Countable K}.
Context (entry_id : E → K) (system : E → string).
Context (main_author : E → option string) `{PyRandom}.
Context (round_quota : Z → Z → Z → Z).
Implicit Types (h hp mid rest : list (list E)) (g : rng_state).

Lemma extend_at_loc (p : loc) h hp l (es : list E) rest :
  h = hp ++ l :: rest → p = length hp →
  extend p es h = (Return (), hp ++ (l ++ es) :: rest).
Proof. intros -> ->. apply extend_at. Qed.

Lemma append_at_loc (p : loc) hp l (e : E) rest :
  p = length hp →
  append p e (hp ++ l :: rest) = (Return (), hp ++ (l ++ [e]) :: rest).
Proof. intros ->. apply append_at. Qed.

Lemma contents_at_loc (p : loc) hp (l : list E) rest :
  p = length hp → contents p (hp ++ l :: rest) = (Return l, hp ++ l :: rest).
Proof. intros ->. apply contents_at. Qed.

Lemma allocate_in_store_spec (entries : list E) target_size h :
  allocate_in_store system round_quota entries target_size h
  = (match allocate system round_quota entries target_size with
     | Return (buckets, alloc, systems) =>
         Return (buckets_from (length h) buckets, alloc, systems)
     | Raise e => Raise e
     | OutOfFuel => OutOfFuel
     end,
     h ++ values (bucket_entries system entries)).
Proof.
  unfold allocate_in_store, allocate. cbv zeta.
  pose proof (fill_buckets_spec system entries [] h) as Hfill.
  cbn [buckets_from values fmap list_fmap] in Hfill. rewrite app_nil_r in Hfill.
  fold (bucket_entries system entries) in Hfill.
  rewrite (store_bind_Return _ _ _ _ _ Hfill).
  pose proof (read_buckets_spec (bucket_entries system entries) h []) as Hread.
  rewrite app_nil_r in Hread.
  rewrite (store_bind_Return _ _ _ _ _ Hread).
  rewrite store_bind_eq. unfold pure_step.
  by destruct (adjust_alloc _ _ target_size).
Qed.

Lemma draw_samples_in_store_spec alloc (items : dict (list E)) hp mid rest
    selected g selected' g' (sel : loc) :
  sel = (length hp + length items + length mid)%nat →
  draw_samples alloc items selected g = Return (selected', g') →
  draw_samples_in_store alloc (buckets_from (length hp) items) sel g
    (hp ++ values items ++ mid ++ selected :: rest)
  = (Return g', hp ++ values items ++ mid ++ selected' :: rest).
Proof.
  revert hp selected g.
  induction items as [|[s l] items IH]; intros hp selected g Hsel; cbn.
  - by intros [= -> ->].
  - unfold values. cbn [fmap list_fmap snd app].
    rewrite (store_bind_Return _ _ _ _ _ (contents_at hp l _)).
    assert (sel = (length (hp ++ [l]) + length items + length mid)%nat) as Hsel'
      by (rewrite length_app; cbn [length] in *; lia).
    pose proof (IH (hp ++ [l])) as IH'.
    rewrite length_app in IH'. cbn [length] in IH'.
    rewrite Nat.add_1_r in IH'. unfold values in IH'.
    case_decide.
    + intros Hrun. specialize (IH' selected g ltac:(rewrite length_app in Hsel'; cbn [length] in Hsel'; lia) Hrun).
      rewrite <- !app_assoc in IH'. exact IH'.
    + intros ([drawn g1] & Hs & Hrun)%bind_Return.
      rewrite store_bind_eq. unfold pure_step at 1. rewrite Hs.
      specialize (IH' (selected ++ drawn) g1
                    ltac:(rewrite length_app in Hsel'; cbn [length] in Hsel'; lia)
                    Hrun).
      rewrite <- !app_assoc in IH'. cbn [app] in IH'.
      rewrite store_bind_eq.
      rewrite (extend_at_loc sel _ (hp ++ l :: items.*2 ++ mid) selected drawn rest);
        cycle 1.
      { rewrite <- !app_assoc. cbn [app]. by rewrite <- !app_assoc. }
      { clear -Hsel. rewrite ?length_app; cbn [length] in *.
        rewrite ?length_app, ?length_fmap. lia. }
      rewrite <- !app_assoc. cbn [app]. rewrite <- !app_assoc. exact IH'.
Qed.

(** The store after the trim / top-up: the list [selected] may have grown
    in place and one list may have been added; the sample is at the
    location returned. *)
Lemma reconcile_in_store_spec (entries sel : loc) (es : list E) target_size
    hp selected rest g sample g' :
  sel = length hp →
  (hp ++ selected :: rest) !! entries = Some es →
  reconcile entry_id es target_size selected g = Return (sample, g') →
  ∃ r selected' tail,
    reconcile_in_store entry_id entries target_size sel g
      (hp ++ selected :: rest)
    = (Return (r, g'), hp ++ selected' :: rest ++ tail)
    ∧ (hp ++ selected' :: rest ++ tail) !! r = Some sample.
Proof.
  intros -> Hes. unfold reconcile, reconcile_in_store. cbv zeta.
  rewrite (store_bind_Return _ _ _ _ _ (contents_at hp selected rest)).
  case_decide; [|case_decide; [|]].
  - intros Hs. rewrite store_bind_eq. unfold pure_step at 1. rewrite Hs.
    rewrite store_bind_eq. cbn.
    exists (length (hp ++ selected :: rest)), selected, [sample].
    split; [by rewrite <- app_assoc|].
    replace (hp ++ selected :: rest ++ [sample])
      with ((hp ++ selected :: rest) ++ [sample]) by (by rewrite <- app_assoc).
    by apply list_lookup_middle.
  - rewrite (store_bind_Return _ _ _ _ _ (contents_Some _ _ _ Hes)).
    case_decide.
    + intros ([extra g1] & Hs & [= <- <-])%bind_Return.
      rewrite store_bind_eq. unfold pure_step at 1. rewrite Hs.
      rewrite store_bind_eq, extend_at. cbn.
      exists (length hp), (selected ++ extra), [].
      rewrite app_nil_r. split; [done|]. by apply list_lookup_middle.
    + intros [= <- <-]. exists (length hp), selected, [].
      rewrite app_nil_r. split; [done|]. by apply list_lookup_middle.
  - intros [= <- <-]. exists (length hp), selected, [].
    rewrite app_nil_r. split; [done|]. by apply list_lookup_middle.
Qed.
End store_sampling.

Section store_stratified_sample.
Context {E : Type} `{EqDecision E} {K : Type} `{Countable K}.
Context (entry_id : E → K) (system : E → string).
Context `{PyRandom} (round_quota : Z → Z → Z → Z).
Implicit Types (h : list (list E)) (g : rng_state).

Lemma check_target_Return_inv (es : list E) target_size t out :
  check_target es target_size = Return (t, out) → es ≠ [] ∧ 1 ≤ t.
Proof.
  rewrite check_target_cases. repeat case_decide; try done.
  all: intros [= <- _]; split; [done|].
  all: assert (1 ≤ len es) by (destruct es; [done | cbn [length]; lia]); lia.
Qed.

Lemma stratified_sample_in_store_spec h (entries : loc) es target_size g :
  h !! entries = Some es →
  store_run_of h
    (stratified_sample_in_store entry_id system round_quota entries
       target_size g h)
    (stratified_sample entry_id system round_quota es target_size g).
Proof.
  intros Hes. unfold stratified_sample_in_store, stratified_sample, store_run_of.
  rewrite (store_bind_Return _ _ _ _ _ (contents_Some _ _ _ Hes)).
  rewrite store_bind_eq. unfold pure_step at 1.
  destruct (check_target es target_size) as [[t out]|e|] eqn:Hcheck; cbn;
    [|done..].
  apply check_target_Return_inv in Hcheck as [Hne Ht].
  destruct (allocate_spec system round_quota es t Hne) as (alloc & Halloc & _).
  rewrite store_bind_eq, allocate_in_store_spec, Halloc. cbn.
  set (buckets := bucket_entries system es).
  destruct (draw_samples_spec alloc buckets [] g [])
    as (selected & g1 & Hdraw & _); [done|].
  rewrite Hdraw. cbn.
  destruct (reconcile_returns entry_id es t selected g1) as [[sample g2] Hrec];
    [lia|].
  rewrite Hrec. cbn.
  rewrite store_bind_eq. cbn. rewrite <- app_assoc.
  pose proof (draw_samples_in_store_spec alloc buckets h [] [] [] g selected g1
                (length (h ++ values buckets))) as Hd.
  cbn [app length] in Hd. rewrite store_bind_eq, Hd; [|..|done]; cycle 1.
  { unfold values. rewrite length_app, length_fmap. lia. }
  destruct (reconcile_in_store_spec entry_id entries
              (length (h ++ values buckets)) es t (h ++ values buckets)
              selected [] g1 sample g2)
    as (r & selected' & tail & Hrun & Hr); [done| |done|].
  { rewrite <- app_assoc. rewrite lookup_app_l; [done|]. by eapply lookup_lt_Some. }
  rewrite <- app_assoc in Hrun, Hr. rewrite store_bind_eq, Hrun. cbn [fst snd].
  split.
  - rewrite <- app_assoc. by apply prefix_app_r.
  - exists r. split; [done|]. by rewrite <- app_assoc.
Qed.
End store_stratified_sample.

Lemma buckets_from_in_store {E} (buckets : dict (list E)) hp rest :
  buckets_in_store (hp ++ values buckets ++ rest)
    (buckets_from (length hp) buckets) buckets.
Proof.
  revert hp. induction buckets as [|[k l] buckets IH]; intros hp s; [done|].
  cbn [dict_get buckets_from]. case_decide.
  - exists (length hp). split; [done|]. by apply list_lookup_middle.
  - specialize (IH (hp ++ [l]) s). rewrite length_app in IH. cbn [length] in IH.
    rewrite Nat.add_1_r in IH. unfold values in *. cbn [fmap list_fmap snd app].
    by rewrite <- app_assoc in IH.
Qed.

Section store_passes.
Context {E : Type} `{EqDecision E} (main_author : E → option string).
Context `{PyRandom}.
Implicit Types (h hp rest : list (list E)) (l ss : list E) (g : rng_state).

Lemma contents_in (p : loc) h hp l rest :
  h = hp ++ l :: rest → p = length hp → contents p h = (Return l, h).
Proof. intros -> ->. apply contents_at. Qed.

Lemma assign_in (p : loc) h hp l l' rest :
  h = hp ++ l :: rest → p = length hp →
  assign p l' h = (Return (), hp ++ l' :: rest).
Proof. intros -> ->. apply assign_at. Qed.

Lemma first_pass_in_store_spec need l hp ss used rest :
  first_pass_in_store main_author need l (length hp) used (hp ++ ss :: rest)
  = (Return (first_pass main_author need l ss used).2,
     hp ++ (first_pass main_author need l ss used).1 :: rest).
Proof.
  revert ss used. induction l as [|e l IH]; intros ss used; [done|].
  cbn [first_pass_in_store first_pass].
  rewrite (store_bind_Return _ _ _ _ _ (contents_at hp ss rest)).
  case_decide; [done|].
  destruct (main_author e) as [a|]; [case_decide|]; try apply IH.
  rewrite (store_bind_Return _ _ _ _ _ (append_at hp ss e rest)). apply IH.
Qed.

Lemma second_pass_in_store_spec need l hp ss rest :
  second_pass_in_store need l (length hp) (hp ++ ss :: rest)
  = (Return (), hp ++ second_pass need l ss :: rest).
Proof.
  revert ss. induction l as [|e l IH]; intros ss; [done|].
  cbn [second_pass_in_store second_pass].
  rewrite (store_bind_Return _ _ _ _ _ (contents_at hp ss rest)).
  case_decide; [done|]. case_decide; [apply IH|].
  rewrite (store_bind_Return _ _ _ _ _ (append_at hp ss e rest)). apply IH.
Qed.

Lemma select_system_in_store_spec need bucket hp chosen picks used g rest :
  let st := select_system main_author true need bucket
              (Selection chosen picks used g) in
  ∃ tail,
    select_system_in_store main_author need bucket (length hp) used g
      (hp ++ chosen :: rest)
    = (Return (used_authors st, rng st),
       hp ++ selected st :: rest ++ tail).
Proof.
  unfold select_system_in_store, select_system. cbn [rng used_authors].
  rewrite store_bind_eq. cbn [new_list].
  set (S0 := hp ++ chosen :: rest).
  rewrite (store_bind_Return _ _ _ _ _
             (contents_in (length S0) (S0 ++ [bucket]) S0 bucket [] eq_refl eq_refl)).
  destruct (rng_shuffle g bucket) as [shuffled g'].
  rewrite (store_bind_Return _ _ _ _ _
             (assign_in (length S0) (S0 ++ [bucket]) S0 bucket shuffled []
                eq_refl eq_refl)).
  rewrite store_bind_eq. cbn [new_list].
  rewrite (store_bind_Return _ _ _ _ _
             (contents_in (length S0) ((S0 ++ [shuffled]) ++ [[]]) S0 shuffled
                [[]] ltac:(by rewrite <- app_assoc) eq_refl)).
  rewrite (store_bind_Return _ _ _ _ _
             (first_pass_in_store_spec need shuffled (S0 ++ [shuffled]) [] used [])).
  destruct (first_pass main_author need shuffled [] used) as [ss used'].
  cbn [fst snd].
  rewrite (store_bind_Return _ _ _ _ _
             (contents_at (S0 ++ [shuffled]) ss [])).
  set (filled := if decide (len ss < need)
                 then second_pass need shuffled ss else ss).
  assert ((if decide (len ss < need) then
             b ← contents (length S0);
             second_pass_in_store need b (length (S0 ++ [shuffled]))
           else mret ()) ((S0 ++ [shuffled]) ++ [ss])
          = (Return (), (S0 ++ [shuffled]) ++ [filled])) as Hsecond.
  { subst filled. case_decide; [|done].
    rewrite (store_bind_Return _ _ _ _ _
               (contents_in (length S0) ((S0 ++ [shuffled]) ++ [ss]) S0 shuffled
                  [ss] ltac:(by rewrite <- app_assoc) eq_refl)).
    apply second_pass_in_store_spec. }
  rewrite (store_bind_Return _ _ _ _ _ Hsecond).
  rewrite (store_bind_Return _ _ _ _ _
             (contents_at (S0 ++ [shuffled]) filled [])).
  rewrite (store_bind_Return _ _ _ _ _
             (extend_at_loc (length hp) ((S0 ++ [shuffled]) ++ [filled]) hp
                chosen filled (rest ++ [shuffled; filled])
                ltac:(subst S0; by rewrite <- !app_assoc) eq_refl)).
  by exists [shuffled; filled].
Qed.

Lemma selection_pass_in_store_spec bl buckets alloc systems hb chosen picks
    used g rest st' :
  buckets_in_store hb bl buckets →
  selection_pass main_author true buckets alloc systems
    (Selection chosen picks used g) = Return st' →
  ∃ tail,
    selection_pass_in_store main_author bl alloc systems (length hb) used g
      (hb ++ chosen :: rest)
    = (Return (used_authors st', rng st'),
       hb ++ selected st' :: rest ++ tail).
Proof.
  intros Hin. revert chosen picks used g rest.
  induction systems as [|s systems IH]; intros chosen picks used g rest.
  - cbn. intros [= <-]. exists []. by rewrite app_nil_r.
  - cbn [selection_pass selection_pass_in_store].
    specialize (Hin s). unfold dict_item.
    destruct (dict_get buckets s) as [bucket|]; [|done].
    destruct Hin as (p & -> & Hp). cbn.
    rewrite store_bind_eq. unfold pure_step at 1.
    assert ((hb ++ chosen :: rest) !! p = Some bucket) as Hp'.
    { rewrite lookup_app_l; [done|]. by eapply lookup_lt_Some. }
    rewrite (store_bind_Return _ _ _ _ _ (contents_Some _ _ _ Hp')).
    case_decide; [apply IH|].
    destruct (select_system_in_store_spec (default 0 (dict_get alloc s)) bucket
                hb chosen picks used g rest) as [tail1 Hstep].
    cbv zeta in Hstep.
    destruct (select_system main_author true _ bucket _)
      as [selected1 picks1 used1 g1] eqn:Hst.
    cbn [used_authors rng selected] in Hstep.
    intros Hrun. apply (IH _ _ _ _ (rest ++ tail1)) in Hrun as [tail2 Hrun].
    rewrite store_bind_eq, Hstep. exists (tail1 ++ tail2).
    by rewrite app_assoc.
Qed.
End store_passes.

Section store_diverse_sample.
Context {E : Type} `{EqDecision E} {K : Type} `{Countable K}.
Context (entry_id : E → K) (system : E → string).
Context (main_author : E → option string).
Context `{PyRandom} (round_quota : Z → Z → Z → Z).
Implicit Types (h : list (list E)) (g : rng_state).

Lemma main_author_diverse_stratified_sample_in_store_spec h (entries : loc)
    es target_size g :
  h !! entries = Some es →
  store_run_of h
    (main_author_diverse_stratified_sample_in_store entry_id system
       main_author round_quota entries target_size g h)
    (main_author_diverse_stratified_sample entry_id system main_author
       round_quota es target_size g).
Proof.
  intros Hes.
  unfold main_author_diverse_stratified_sample_in_store,
    main_author_diverse_stratified_sample, sample_with_selection,
    selection_stage, store_run_of.
  rewrite (store_bind_Return _ _ _ _ _ (contents_Some _ _ _ Hes)).
  rewrite store_bind_eq. unfold pure_step at 1.
  destruct (check_target es target_size) as [[t out]|e|] eqn:Hcheck; cbn;
    [|done..].
  apply check_target_Return_inv in Hcheck as [Hne Ht].
  destruct (allocate_spec system round_quota es t Hne) as (alloc & Halloc & _).
  rewrite store_bind_eq, allocate_in_store_spec, Halloc. cbn.
  set (buckets := bucket_entries system es).
  destruct (selection_pass_spec main_author true buckets alloc
              (systems_sorted buckets) (Selection [] [] ∅ g) [])
    as (st & Hpass & _).
  { intros s. by rewrite systems_sorted_perm. }
  { done. }
  { split; cbn; [constructor|constructor|set_solver|done]. }
  rewrite Hpass. cbn.
  destruct (reconcile_returns entry_id es t (selected st) (rng st))
    as [[sample g2] Hrec]; [lia|].
  rewrite Hrec. cbn.
  rewrite store_bind_eq. cbn.
  destruct (selection_pass_in_store_spec main_author
              (buckets_from (length h) buckets) buckets alloc
              (systems_sorted buckets) (h ++ values buckets) [] [] ∅ g [] st)
    as [tail Hsel]; [|done|].
  { pose proof (buckets_from_in_store buckets h []) as Hb.
    by rewrite app_nil_r in Hb. }
  rewrite store_bind_eq, Hsel.
  destruct (reconcile_in_store_spec entry_id entries
              (length (h ++ values buckets)) es t (h ++ values buckets)
              (selected st) ([] ++ tail) (rng st) sample g2)
    as (r & selected' & tail' & Hrun & Hr); [done| |done|].
  { rewrite <- app_assoc. rewrite lookup_app_l; [done|]. by eapply lookup_lt_Some. }
  rewrite store_bind_eq, Hrun. cbn [fst snd]. split.
  - rewrite <- app_assoc. by apply prefix_app_r.
  - by exists r.
Qed.
End store_diverse_sample.

(** C10: the sampling functions do not change the list they are given nor
    any other list that exists when they are called: run on a store of
    mutable lists, with [entries] the location of the population, they
    leave every list of the store as it was (the store they end with
    extends the store they start from), whatever the outcome, and what
    they compute is what the functions on values compute, the sample being
    a list of the final store.  (Neither function assigns to a field of an
    entry.) *)
Theorem input_not_mutated `{PyRandom} (round_quota : Z → Z → Z → Z)
    (h : list (list Script.RepoEntry))
    (h' : list (list DistinctAuthors.RepoEntry))
    (entries entries' : loc) (population : list Script.RepoEntry)
    (population' : list DistinctAuthors.RepoEntry)
    (target_size : Z) (g : rng_state) :
  h !! entries = Some population → h' !! entries' = Some population' →
  let run := stratified_sample_in_store Script.entry_id Script.system
               round_quota entries target_size g h in
  let run' := main_author_diverse_stratified_sample_in_store
                DistinctAuthors.entry_id DistinctAuthors.system
                DistinctAuthors.main_author round_quota entries' target_size
                g h' in
  (run.2 !! entries = Some population
   ∧ (∀ q l, h !! q = Some l → run.2 !! q = Some l)
   ∧ store_run_of h run
       (Script.stratified_sample round_quota population target_size g))
  ∧ (run'.2 !! entries' = Some population'
     ∧ (∀ q l, h' !! q = Some l → run'.2 !! q = Some l)
     ∧ store_run_of h' run'
         (DistinctAuthors.main_author_diverse_stratified_sample round_quota
            population' target_size g)).
Proof.
  intros Hes Hes' run run'.
  pose proof (stratified_sample_in_store_spec Script.entry_id Script.system
                round_quota h entries population target_size g Hes) as Hrun.
  pose proof (main_author_diverse_stratified_sample_in_store_spec
                DistinctAuthors.entry_id DistinctAuthors.system
                DistinctAuthors.main_author round_quota h' entries'
                population' target_size g Hes') as Hrun'.
  fold run in Hrun. fold run' in Hrun'.
  split; split_and!; try done.
  - by eapply prefix_lookup_Some; [|apply Hrun].
  - intros q l Hq. by eapply prefix_lookup_Some; [|apply Hrun].
  - by eapply prefix_lookup_Some; [|apply Hrun'].
  - intros q l Hq. by eapply prefix_lookup_Some; [|apply Hrun'].
Qed.

Lemma input_not_mutated_witness :
  callers_store !! 1%nat = Some orca_population
  ∧ [authored_population] !! 0%nat = Some authored_population
  ∧ (stratified_sample_in_store Script.entry_id Script.system
       exact_round_quota 1%nat 3 (Random 5) callers_store).2 !! 1%nat
    = Some orca_population
  ∧ (main_author_diverse_stratified_sample_in_store DistinctAuthors.entry_id
       DistinctAuthors.system DistinctAuthors.main_author exact_round_quota
       0%nat 3 (Random 5) [authored_population]).2 !! 0%nat
    = Some authored_population.
Proof.
  assert (callers_store !! 1%nat = Some orca_population) as H1 by reflexivity.
  assert ([authored_population] !! 0%nat = Some authored_population) as H2
    by reflexivity.
  destruct (input_not_mutated exact_round_quota callers_store
              [authored_population] 1%nat 0%nat orca_population
              authored_population 3 (Random 5) H1 H2)
    as [(Hkeep & _ & _) (Hkeep' & _ & _)].
  split_and!; assumption.
Defined.

(** * Further properties of the two scripts *)

(** ** Bucketing keeps the population's order *)

Section bucket_order.
Context {E : Type} (system : E → string).
Implicit Types (e : E) (entries : list E) (buckets : dict (list E)).

Lemma setdefault_append_get k e buckets s :
  dict_get (setdefault_append k e buckets) s
  = if decide (k = s) then Some (default [] (dict_get buckets k) ++ [e])
    else dict_get buckets s.
Proof.
  induction buckets as [|[k' b] buckets IH]; cbn.
  - by repeat case_decide.
  - destruct (decide (k' = k)) as [->|Hne]; cbn.
    + by repeat case_decide.
    + rewrite IH. repeat case_decide; congruence.
Qed.

Lemma bucket_entries_get entries s :
  dict_get (bucket_entries system entries) s
  = match filter (λ e, system e = s) entries with
    | [] => None
    | b => Some b
    end.
Proof.
  induction entries as [|e entries IH] using rev_ind; [done|].
  rewrite bucket_entries_snoc, setdefault_append_get, filter_app.
  rewrite filter_cons, filter_nil, IH.
  destruct (decide (system e = s)) as [Heq|Hne].
  - rewrite Heq, IH. by destruct (filter _ entries).
  - by rewrite app_nil_r.
Qed.

(** X1: the bucket of a label holds exactly the entries with that label,
    in the order of the population; a label has a bucket iff some entry
    carries it; the dictionary lists the labels in order of first
    appearance. *)
Theorem buckets_are_filters entries s :
  bucket_of (bucket_entries system entries) s
  = filter (λ e, system e = s) entries
  ∧ (s ∈ keys (bucket_entries system entries)
     ↔ ∃ e, e ∈ entries ∧ system e = s)
  ∧ keys (bucket_entries system entries) = first_seen (system <$> entries).
Proof.
  split_and!.
  - unfold bucket_of. rewrite bucket_entries_get.
    by destruct (filter _ entries).
  - rewrite <- dict_get_is_Some, bucket_entries_get.
    destruct (filter (λ e, system e = s) entries) as [|e b] eqn:Hf.
    + split; [by intros [? ?]|]. intros (e & He & Hs).
      assert (e ∈ filter (λ e, system e = s) entries) as Hin
        by (by apply list_elem_of_filter).
      rewrite Hf in Hin. by apply elem_of_nil in Hin.
    + split; [|eauto]. intros _. exists e.
      assert (e ∈ filter (λ e, system e = s) entries) as Hin
        by (rewrite Hf; left).
      apply list_elem_of_filter in Hin as [? ?]. done.
  - apply bucket_entries_keys.
Qed.
End bucket_order.

(** ** The two fix-up loops, in closed form *)

(** X2: the surplus loop ends, within [surplus * len(systems_sorted)]
    iterations, whenever the allocation has exactly the sorted labels as
    keys and quotas of at least 1; it removes as many units as it can
    without taking a quota below 1, that is, it leaves the quotas summing
    to [max(sum - surplus, number of strata)]. *)
Theorem surplus_removed_exactly (systems : list string) (alloc : dict Z)
    (surplus : Z) (idx fuel : nat) :
  systems ≠ [] → NoDup (keys alloc) → keys alloc ≡ₚ systems →
  Forall (λ v, 1 ≤ v) (values alloc) → 0 ≤ surplus →
  (Z.to_nat surplus * length systems ≤ fuel)%nat →
  ∃ alloc',
    remove_surplus fuel systems surplus idx alloc = Return alloc'
    ∧ keys alloc' ≡ₚ systems
    ∧ Forall (λ v, 1 ≤ v) (values alloc')
    ∧ sum_values alloc'
      = Z.max (sum_values alloc - surplus) (len systems).
Proof.
  intros Hne Hnd Hk Hge Hs Hfuel.
  destruct (remove_surplus_spec systems (Z.to_nat surplus) Hne surplus idx
              alloc fuel eq_refl Hs (Build_alloc_ok _ _ Hnd Hk Hge) Hfuel)
    as (alloc' & removed & Hrun & Hok & Hrem & Hsum & Hstop).
  exists alloc'. split_and!; [done|apply Hok|apply Hok|].
  pose proof (sum_values_ge _ (alloc_ge_1 _ _ Hok)) as Hlow.
  rewrite (alloc_ok_length _ _ Hok) in Hlow.
  destruct Hstop as [->|Hnone]; [lia|].
  rewrite (sum_values_all_one _ (alloc_ge_1 _ _ Hok) Hnone) in *.
  rewrite (alloc_ok_length _ _ Hok) in *. lia.
Qed.

Lemma surplus_removed_exactly_witness :
  ["b"; "a"] ≠ [] ∧ NoDup (keys [("a", 1); ("b", 4)])
  ∧ keys [("a", 1); ("b", 4)] ≡ₚ ["b"; "a"]
  ∧ Forall (λ v, 1 ≤ v) (values [("a", 1); ("b", 4)]) ∧ 0 ≤ 5
  ∧ (Z.to_nat 5 * length ["b"; "a"] ≤ 10)%nat
  ∧ ∃ alloc',
      remove_surplus 10 ["b"; "a"] 5 0 [("a", 1); ("b", 4)] = Return alloc'
      ∧ keys alloc' ≡ₚ ["b"; "a"]
      ∧ Forall (λ v, 1 ≤ v) (values alloc')
      ∧ sum_values alloc'
        = Z.max (sum_values [("a", 1); ("b", 4)] - 5) (len ["b"; "a"]).
Proof.
  assert (["b"; "a"] ≠ []) as H1 by discriminate.
  assert (NoDup (keys [("a", 1); ("b", 4)])) as H2
    by (apply (bool_decide_unpack _); vm_compute; exact I).
  assert (keys [("a", 1); ("b", 4)] ≡ₚ ["b"; "a"]) as H3
    by (cbn; apply Permutation_swap).
  assert (Forall (λ v, 1 ≤ v) (values [("a", 1); ("b", 4)])) as H4
    by (apply (bool_decide_unpack _); vm_compute; exact I).
  assert (0 ≤ 5) as H5 by lia.
  assert (Z.to_nat 5 * length ["b"; "a"] ≤ 10)%nat as H6 by (cbn; lia).
  split_and!; try assumption.
  exact (surplus_removed_exactly ["b"; "a"] [("a", 1); ("b", 4)] 5 0 10
           H1 H2 H3 H4 H5 H6).
Defined.

Lemma outcome_bind_assoc {A B C} (m : outcome A) (f : A → outcome B)
    (k : B → outcome C) :
  (m ≫= f) ≫= k = m ≫= (λ a, f a ≫= k).
Proof. by destruct m. Qed.

Lemma outcome_bind_Return {A B} (a : A) (f : A → outcome B) :
  Return a ≫= f = f a.
Proof. done. Qed.

Lemma distribute_remaining_snoc systems remaining idx alloc :
  distribute_remaining systems (S remaining) idx alloc
  = distribute_remaining systems remaining idx alloc
    ≫= add_one systems (idx + remaining).
Proof.
  revert idx alloc. induction remaining as [|r IH]; intros idx alloc.
  - cbn [distribute_remaining]. rewrite Nat.add_0_r. unfold add_one.
    destruct (cyclic_item systems idx) as [s| |]; [|done..]. cbn.
    by destruct (dict_item alloc s).
  - change (distribute_remaining systems (S (S r)) idx alloc)
      with (s ← cyclic_item systems idx;
            v ← dict_item alloc s;
            distribute_remaining systems (S r) (S idx)
              (dict_set s (v + 1) alloc)).
    change (distribute_remaining systems (S r) idx alloc)
      with (s ← cyclic_item systems idx;
            v ← dict_item alloc s;
            distribute_remaining systems r (S idx) (dict_set s (v + 1) alloc)).
    destruct (cyclic_item systems idx) as [s| |]; [|done..].
    rewrite !outcome_bind_Return.
    destruct (dict_item alloc s) as [v| |]; [|done..].
    rewrite !outcome_bind_Return.
    rewrite IH. by replace (S idx + r)%nat with (idx + S r)%nat by lia.
Qed.

Lemma round_robin_step (L r i : nat) :
  (0 < L)%nat → (i < L)%nat →
  Z.of_nat (S r / L) + (if decide (i < S r mod L)%nat then 1 else 0)
  = Z.of_nat (r / L) + (if decide (i < r mod L)%nat then 1 else 0)
    + (if decide (r mod L = i)%nat then 1 else 0).
Proof.
  intros HL Hi.
  pose proof (Nat.div_mod_eq r L) as Hr.
  pose proof (Nat.mod_upper_bound r L ltac:(lia)) as Hm.
  destruct (decide (r mod L = L - 1)%nat) as [Hlast|Hmid].
  - assert (S r = (r / L + 1) * L + 0)%nat as Hs by nia.
    assert (S r / L = r / L + 1)%nat as ->
      by (symmetry; apply (Nat.div_unique _ _ _ 0%nat); lia).
    assert (S r mod L = 0)%nat as ->
      by (symmetry; apply (Nat.mod_unique _ _ (r / L + 1)%nat); lia).
    repeat case_decide; lia.
  - assert (S r = L * (r / L) + (r mod L + 1))%nat as Hs by lia.
    assert (S r / L = r / L)%nat as ->
      by (symmetry; apply (Nat.div_unique _ _ _ (r mod L + 1)%nat); lia).
    assert (S r mod L = r mod L + 1)%nat as ->
      by (symmetry; apply (Nat.mod_unique _ _ (r / L)%nat); lia).
    repeat case_decide; lia.
Qed.

(** X3: the loop that distributes the remaining units hands them out round
    robin over the sorted labels: with [r] units and [L] labels, the label
    at rank [i] gains [r / L], and one more if [i < r mod L].  So larger
    strata are served first and no two quotas gain amounts that differ by
    more than 1. *)
Theorem remaining_round_robin (systems : list string) (alloc : dict Z)
    (remaining : nat) :
  systems ≠ [] → NoDup systems →
  (∀ s, s ∈ systems → is_Some (dict_get alloc s)) →
  ∃ alloc',
    distribute_remaining systems remaining 0 alloc = Return alloc'
    ∧ keys alloc' = keys alloc
    ∧ ∀ i s v,
        systems !! i = Some s → dict_get alloc s = Some v →
        dict_get alloc' s
        = Some (v + Z.of_nat (remaining / length systems)
                + (if decide (i < remaining mod length systems)%nat
                   then 1 else 0)).
Proof.
  intros Hne Hnd Hall.
  assert (0 < length systems)%nat as HL by (destruct systems; [done|cbn; lia]).
  induction remaining as [|r IH].
  - exists alloc. split_and!; [done..|]. intros i s v Hi Hv.
    rewrite Nat.Div0.div_0_l, Nat.Div0.mod_0_l.
    rewrite decide_False by lia. rewrite Hv. f_equal. lia.
  - destruct IH as (alloc_r & Hrun & Hkeys & Hquota).
    rewrite distribute_remaining_snoc, Hrun. cbn. unfold add_one.
    destruct (cyclic_item_Return systems r Hne) as (s_r & -> & Hs_r). cbn.
    destruct (Hall s_r (list_elem_of_lookup_2 _ _ _ Hs_r)) as [v0 Hv0].
    pose proof (Hquota _ _ _ Hs_r Hv0) as Hv_r.
    unfold dict_item. rewrite Hv_r. cbn.
    eexists. split_and!; [done| |].
    + rewrite dict_set_keys_present; [done|].
      rewrite Hkeys. apply dict_get_is_Some. eauto.
    + intros i s v Hi Hv. rewrite dict_get_set.
      pose proof (lookup_lt_Some _ _ _ Hi) as Hlt.
      rewrite <- (Z.add_assoc v (Z.of_nat (S r / length systems))).
      rewrite round_robin_step by done.
      destruct (decide (s_r = s)) as [->|Hne'].
      * assert (r mod length systems = i)%nat as Hri
          by (by eapply NoDup_lookup).
        assert (v0 = v) as -> by congruence. subst i.
        rewrite (decide_True (P := (r mod length systems
                                    = r mod length systems)%nat)) by done.
        f_equal. lia.
      * rewrite (decide_False (P := (r mod length systems = i)%nat)).
        { rewrite (Hquota _ _ _ Hi Hv). f_equal. lia. }
        intros Hri. apply Hne'. rewrite Hri in Hs_r. congruence.
Qed.

Lemma remaining_round_robin_witness :
  ["b"; "a"; "c"] ≠ [] ∧ NoDup ["b"; "a"; "c"]
  ∧ (∀ s, s ∈ ["b"; "a"; "c"] →
       is_Some (dict_get [("a", 1); ("b", 3); ("c", 1)] s))
  ∧ ∃ alloc',
      distribute_remaining ["b"; "a"; "c"] 5 0 [("a", 1); ("b", 3); ("c", 1)]
      = Return alloc'
      ∧ keys alloc' = keys [("a", 1); ("b", 3); ("c", 1)]
      ∧ ∀ i s v,
          ["b"; "a"; "c"] !! i = Some s →
          dict_get [("a", 1); ("b", 3); ("c", 1)] s = Some v →
          dict_get alloc' s
          = Some (v + Z.of_nat (5 / length ["b"; "a"; "c"])
                  + (if decide (i < 5 mod length ["b"; "a"; "c"])%nat
                     then 1 else 0)).
Proof.
  assert (["b"; "a"; "c"] ≠ []) as H1 by discriminate.
  assert (NoDup ["b"; "a"; "c"]) as H2
    by (apply (bool_decide_unpack _); vm_compute; exact I).
  assert (∀ s, s ∈ ["b"; "a"; "c"] →
            is_Some (dict_get [("a", 1); ("b", 3); ("c", 1)] s)) as H3.
  { intros s Hs. repeat (apply elem_of_cons in Hs as [->|Hs]; [by eexists|]).
    by apply elem_of_nil in Hs. }
  split_and!; try assumption.
  exact (remaining_round_robin ["b"; "a"; "c"] [("a", 1); ("b", 3); ("c", 1)]
           5 H1 H2 H3).
Defined.

(** ** Every stratum is sampled *)

Lemma sum_Permutation (l k : list Z) :
  l ≡ₚ k → foldr Z.add 0 l = foldr Z.add 0 k.
Proof.
  induction 1 as [|x l k _ IH|x y l|l k m _ IH1 _ IH2]; cbn; lia.
Qed.

Lemma granted_Permutation alloc l k : l ≡ₚ k → granted alloc l = granted alloc k.
Proof. intros Hp. unfold granted. apply sum_Permutation. by rewrite Hp. Qed.

Lemma granted_nonneg alloc l : 0 ≤ granted alloc l.
Proof. unfold granted. induction l as [|s l IH]; cbn; lia. Qed.

Lemma granted_keys (alloc : dict Z) :
  NoDup (keys alloc) → Forall (λ v, 1 ≤ v) (values alloc) →
  granted alloc (keys alloc) = sum_values alloc.
Proof.
  unfold granted, sum_values, keys, values.
  induction alloc as [|[k v] d IH]; [done|].
  cbn [fmap list_fmap fst snd foldr dict_get].
  intros [Hk Hnd]%NoDup_cons [Hv Hge]%Forall_cons.
  rewrite decide_True by done. cbn [default id].
  rewrite <- IH by done. rewrite Z.max_r by lia. do 2 f_equal.
  apply list_fmap_ext. intros i s Hs. rewrite decide_False; [done|].
  intros ->. apply Hk. by eapply list_elem_of_lookup_2.
Qed.

Lemma in_blocks_elem (counts : list nat) (labels : list string) s :
  length counts = length labels → Forall (λ c, 0 < c)%nat counts →
  s ∈ labels → s ∈ in_blocks counts labels.
Proof.
  unfold in_blocks. revert counts.
  induction labels as [|x labels IH]; intros [|c counts] Hlen Hpos Hs;
    try done; try (by apply elem_of_nil in Hs).
  apply Forall_cons in Hpos as [Hc Hpos]. cbn.
  apply elem_of_app. apply elem_of_cons in Hs as [->|Hs].
  - left. destruct c; [lia|]. left.
  - right. apply IH; [by injection Hlen|done..].
Qed.

Lemma nonempty_lists_length {A} (ls : list (list A)) :
  Forall (λ l, l ≠ []) ls → (length ls ≤ length (concat ls))%nat.
Proof.
  induction 1 as [|l ls Hl _ IH]; cbn; [lia|].
  rewrite length_app. destruct l; [done|]. cbn. lia.
Qed.

Section strata_sampled.
Context {E : Type} `{EqDecision E} {K : Type} `{Countable K}.
Context (entry_id : E → K) (system : E → string).
Context (main_author : E → option string) `{PyRandom}.
Context (round_quota : Z → Z → Z → Z).
Implicit Types (entries selected : list E) (g : rng_state) (alloc : dict Z).

Lemma strata_count_le entries :
  (length (bucket_entries system entries) ≤ length entries)%nat.
Proof.
  destruct (bucket_entries_spec system entries) as [_ Hperm Hne _].
  rewrite <- (Permutation_length Hperm).
  unfold values. rewrite <- (length_fmap snd (bucket_entries system entries)).
  apply nonempty_lists_length. by apply Forall_fmap.
Qed.

Lemma reconcile_keeps_selection entries target_size selected g sample g' :
  len selected ≤ target_size →
  reconcile entry_id entries target_size selected g = Return (sample, g') →
  ∃ extra, sample = selected ++ extra.
Proof.
  intros Hle. unfold reconcile. cbv zeta.
  rewrite decide_False by lia. repeat case_decide.
  - intros ([extra g1] & _ & [= <- _])%bind_Return. by exists extra.
  - intros [= <- _]. exists []. by rewrite app_nil_r.
  - intros [= <- _]. exists []. by rewrite app_nil_r.
Qed.

Lemma draw_samples_length alloc (items : dict (list E)) selected g
    selected' g' :
  draw_samples alloc items selected g = Return (selected', g') →
  len selected' ≤ len selected + granted alloc (keys items).
Proof.
  revert selected g. induction items as [|[s bucket] items IH];
    intros selected g; cbn [draw_samples].
  - intros [= <- _]. cbn. lia.
  - unfold granted, keys in *. cbn [fmap list_fmap fst foldr]. cbv zeta.
    case_decide as Hk.
    + intros Hrun%IH. lia.
    + match goal with |- context [rng_sample g bucket ?k] =>
        destruct (rng_sample_Return g bucket k)
          as (drawn & g1 & -> & _ & Hlen); [lia|] end.
      cbn. intros Hrun%IH. rewrite length_app in Hrun. lia.
Qed.

Lemma second_pass_bound need (l ss : list E) :
  len (second_pass need l ss) ≤ Z.max need (len ss).
Proof.
  revert ss. induction l as [|e l IH]; intros ss; cbn; [lia|].
  repeat case_decide; try lia.
  - apply IH.
  - etrans; [apply IH|]. rewrite length_app. cbn. lia.
Qed.

Lemma select_system_length need bucket (st : selection (E := E)) :
  0 < need →
  len (selected (select_system main_author true need bucket st))
  ≤ len (selected st) + need.
Proof.
  intros Hneed. unfold select_system.
  destruct (rng_shuffle (rng st) bucket) as [l g].
  pose proof (first_pass_length main_author need l [] (used_authors st)) as Hf.
  destruct (first_pass main_author need l [] (used_authors st)) as [ss used].
  cbn [fst selected] in *. rewrite length_app.
  case_decide.
  - pose proof (second_pass_bound need l ss). lia.
  - cbn [length] in Hf. lia.
Qed.

Lemma selection_pass_length buckets alloc systems
    (st st' : selection (E := E)) :
  selection_pass main_author true buckets alloc systems st = Return st' →
  len (selected st') ≤ len (selected st) + granted alloc systems.
Proof.
  revert st. induction systems as [|s systems IH]; intros st;
    cbn [selection_pass].
  - intros [= <-]. cbn. lia.
  - unfold granted in *. cbn [fmap list_fmap foldr].
    intros (bucket & _ & Hrun)%bind_Return. revert Hrun. case_decide as Hskip.
    + intros Hrun%IH. lia.
    + intros Hrun%IH.
      pose proof (select_system_length (default 0 (dict_get alloc s)) bucket st).
      lia.
Qed.
Lemma system_in_buckets entries e :
  e ∈ entries → system e ∈ keys (bucket_entries system entries).
Proof.
  intros He. apply dict_get_is_Some. rewrite bucket_entries_get.
  assert (e ∈ filter (λ e', system e' = system e) entries) as Hin
    by (by apply list_elem_of_filter).
  destruct (filter _ entries); [by apply elem_of_nil in Hin | eauto].
Qed.

(** With no more strata than the target, the quotas add up to the
    effective target, and both selections then stay within it. *)
Lemma quotas_within_target entries target_size alloc :
  entries ≠ [] → len (bucket_entries system entries) ≤ target_size →
  alloc_ok (systems_sorted (bucket_entries system entries)) alloc →
  sum_values alloc
  = Z.max (Z.min target_size (len entries))
      (len (systems_sorted (bucket_entries system entries))) →
  granted alloc (keys (bucket_entries system entries))
  = Z.min target_size (len entries)
  ∧ granted alloc (systems_sorted (bucket_entries system entries))
    = Z.min target_size (len entries).
Proof.
  intros Hne HL [Hnd Hk Hge] Hsum.
  pose proof (strata_count_le entries) as HLn.
  pose proof (Permutation_length
                (systems_sorted_perm (bucket_entries system entries))) as Hlen.
  unfold keys in Hlen at 1. rewrite length_fmap in Hlen.
  assert (granted alloc (systems_sorted (bucket_entries system entries))
          = Z.min target_size (len entries)) as Hg.
  { rewrite <- (granted_Permutation alloc _ _ Hk), granted_keys by done. lia. }
  split; [|done].
  by rewrite <- (granted_Permutation alloc _ _
                   (systems_sorted_perm (bucket_entries system entries))).
Qed.

Lemma stratified_sample_covers_strata entries target_size g :
  entries ≠ [] → len (bucket_entries system entries) ≤ target_size →
  ∃ sample g' out,
    stratified_sample entry_id system round_quota entries target_size g
    = Return (sample, g', out)
    ∧ ∀ e, e ∈ entries → ∃ e', e' ∈ sample ∧ system e' = system e.
Proof.
  intros Hne HL.
  assert (1 ≤ target_size) as Ht.
  { pose proof (bucket_entries_nonempty system entries Hne).
    destruct (bucket_entries system entries); [done | cbn [length] in HL; lia]. }
  destruct (stratified_sample_selected system round_quota entries
              target_size g Hne Ht)
    as (out & alloc & selected & g1 & Hc & Ha & Hd & _).
  destruct (allocate_spec system round_quota entries
              (Z.min target_size (len entries)) Hne)
    as (alloc0 & Ha0 & Hok & Hsum).
  assert (alloc0 = alloc) as -> by congruence.
  destruct (quotas_within_target entries target_size alloc Hne HL Hok Hsum)
    as [Hg _].
  pose proof (draw_samples_length _ _ _ _ _ _ Hd) as Hlen.
  rewrite Hg in Hlen. cbn [length] in Hlen.
  destruct (reconcile_returns entry_id entries
              (Z.min target_size (len entries)) selected g1)
    as [[sample g2] Hr]; [lia|].
  apply reconcile_keeps_selection in Hr as Hkeep; [|lia].
  destruct Hkeep as [extra ->].
  destruct (bucket_entries_spec system entries) as [Hnd _ Hnonempty Hsys].
  destruct (draw_samples_blocks system alloc (bucket_entries system entries)
              [] g selected g1)
    as (counts & Hcl & Hpos & Hblocks); [| |done|].
  { apply Forall_forall. intros kb Hkb. rewrite Forall_forall in Hnonempty, Hsys.
    split; auto. }
  { intros s Hs. rewrite <- systems_sorted_perm in Hs.
    destruct (alloc_ok_item _ _ s Hok Hs) as (v & -> & _ & Hv). cbn. lia. }
  exists (selected ++ extra), g2, out. split.
  - unfold stratified_sample.
    rewrite Hc. cbn. rewrite Ha. cbn. rewrite Hd. cbn. by rewrite Hr.
  - intros e He%system_in_buckets.
    apply (in_blocks_elem counts) in He;
      [|by unfold keys; rewrite length_fmap|done].
    cbn in Hblocks. rewrite <- Hblocks in He.
    apply list_elem_of_fmap in He as (e' & Heq & He').
    exists e'. split; [|done]. apply elem_of_app. by left.
Qed.

Lemma diverse_sample_covers_strata entries target_size g :
  entries ≠ [] → len (bucket_entries system entries) ≤ target_size →
  ∃ sample g' out,
    main_author_diverse_stratified_sample entry_id system main_author
      round_quota entries target_size g
    = Return (sample, g', out)
    ∧ ∀ e, e ∈ entries → ∃ e', e' ∈ sample ∧ system e' = system e.
Proof.
  intros Hne HL.
  assert (1 ≤ target_size) as Ht.
  { pose proof (bucket_entries_nonempty system entries Hne).
    destruct (bucket_entries system entries); [done | cbn [length] in HL; lia]. }
  destruct (check_target_Return entries target_size Hne Ht) as [out Hout].
  destruct (allocate_spec system round_quota entries
              (Z.min target_size (len entries)) Hne)
    as (alloc & Ha & Hok & Hsum).
  destruct (quotas_within_target entries target_size alloc Hne HL Hok Hsum)
    as [_ Hg].
  set (buckets := bucket_entries system entries) in *.
  destruct (bucket_entries_spec system entries) as [Hnd _ Hnonempty Hsys].
  fold buckets in Hnd, Hnonempty, Hsys.
  destruct (selection_pass_spec main_author true buckets alloc
              (systems_sorted buckets) (Selection [] [] ∅ g) [])
    as (st & Hpass & _).
  { intros s. by rewrite systems_sorted_perm. }
  { done. }
  { split; cbn; [constructor|constructor|set_solver|done]. }
  pose proof (selection_pass_length _ _ _ _ _ Hpass) as Hlen.
  rewrite Hg in Hlen. cbn [selected length] in Hlen.
  destruct (reconcile_returns entry_id entries
              (Z.min target_size (len entries)) (selected st) (rng st))
    as [[sample g2] Hr]; [lia|].
  apply reconcile_keeps_selection in Hr as Hkeep; [|lia].
  destruct Hkeep as [extra ->].
  destruct (selection_pass_blocks system main_author true buckets alloc
              (systems_sorted buckets) (Selection [] [] ∅ g) st)
    as (counts & Hcl & Hpos & Hblocks); [| |done|].
  { intros s Hs. rewrite systems_sorted_perm in Hs.
    apply dict_get_is_Some in Hs as [bucket Hb]. exists bucket.
    pose proof (dict_get_Some_elem _ _ _ Hb) as Hin.
    rewrite Forall_forall in Hnonempty, Hsys.
    split_and!; [done|apply (Hnonempty _ Hin)|apply (Hsys _ Hin)]. }
  { intros s Hs.
    destruct (alloc_ok_item _ _ s Hok Hs) as (v & -> & _ & Hv). cbn. lia. }
  exists (selected st ++ extra), g2, out. split.
  - unfold main_author_diverse_stratified_sample, sample_with_selection,
      selection_stage.
    rewrite Hout. cbn. rewrite Ha. cbn. rewrite Hpass. cbn. by rewrite Hr.
  - intros e He%system_in_buckets. fold buckets in He.
    rewrite <- systems_sorted_perm in He.
    apply (in_blocks_elem counts) in He; [|done..].
    cbn in Hblocks. rewrite <- Hblocks in He.
    apply list_elem_of_fmap in He as (e' & Heq & He').
    exists e'. split; [|done]. apply elem_of_app. by left.
Qed.
End strata_sampled.

(** X4: when the population has no more strata than the requested size,
    [stratified_sample] returns a sample in which every stratum of the
    population is represented: each entry of the population has an entry
    of its own [system] label in the sample. *)
Theorem every_stratum_sampled `{PyRandom} (round_quota : Z → Z → Z → Z)
    (entries : list Script.RepoEntry) (target_size : Z) (g : rng_state) :
  entries ≠ [] →
  len (bucket_entries Script.system entries) ≤ target_size →
  ∃ sample g' out,
    Script.stratified_sample round_quota entries target_size g
    = Return (sample, g', out)
    ∧ ∀ e, e ∈ entries →
           ∃ e', e' ∈ sample ∧ Script.system e' = Script.system e.
Proof. apply stratified_sample_covers_strata. Qed.

Lemma every_stratum_sampled_witness :
  orca_population ≠ []
  ∧ len (bucket_entries Script.system orca_population) ≤ 3
  ∧ ∃ sample g' out,
      Script.stratified_sample exact_round_quota orca_population 3 (Random 0)
      = Return (sample, g', out)
      ∧ ∀ e, e ∈ orca_population →
             ∃ e', e' ∈ sample ∧ Script.system e' = Script.system e.
Proof.
  assert (orca_population ≠ []) as H1 by done.
  assert (len (bucket_entries Script.system orca_population) ≤ 3) as H2
    by (vm_compute; discriminate).
  split_and!; try assumption.
  exact (every_stratum_sampled exact_round_quota orca_population 3 (Random 0)
           H1 H2).
Defined.

(** X5: when the population has no more strata than the requested size,
    [main_author_diverse_stratified_sample] returns a sample in which every
    stratum of the population is represented. *)
Theorem every_stratum_sampled_diverse `{PyRandom}
    (round_quota : Z → Z → Z → Z)
    (entries : list DistinctAuthors.RepoEntry) (target_size : Z)
    (g : rng_state) :
  entries ≠ [] →
  len (bucket_entries DistinctAuthors.system entries) ≤ target_size →
  ∃ sample g' out,
    DistinctAuthors.main_author_diverse_stratified_sample round_quota
      entries target_size g
    = Return (sample, g', out)
    ∧ ∀ e, e ∈ entries →
           ∃ e', e' ∈ sample
                 ∧ DistinctAuthors.system e' = DistinctAuthors.system e.
Proof. apply diverse_sample_covers_strata. Qed.

Lemma every_stratum_sampled_diverse_witness :
  authored_population ≠ []
  ∧ len (bucket_entries DistinctAuthors.system authored_population) ≤ 3
  ∧ ∃ sample g' out,
      DistinctAuthors.main_author_diverse_stratified_sample exact_round_quota
        authored_population 3 (Random 0)
      = Return (sample, g', out)
      ∧ ∀ e, e ∈ authored_population →
             ∃ e', e' ∈ sample
                   ∧ DistinctAuthors.system e' = DistinctAuthors.system e.
Proof.
  assert (authored_population ≠ []) as H1 by done.
  assert (len (bucket_entries DistinctAuthors.system authored_population) ≤ 3)
    as H2 by (vm_compute; discriminate).
  split_and!; try assumption.
  exact (every_stratum_sampled_diverse exact_round_quota authored_population 3
           (Random 0) H1 H2).
Defined.

(** ** The fetch loop, page by page *)

Section fetch_runs.
Context {R : Type} (from_api_result : raw_hit → outcome R).
Hypothesis only_KeyError :
  ∀ d, is_Some (kept from_api_result d)
       ∨ raises_KeyError (from_api_result d) = true.
Context (post : nat → option string → response).

Lemma fetch_pages_continues fuel n pav (all_entries : list R) page out :
  continues (post n pav) →
  fetch_pages from_api_result post (S fuel) n pav all_entries page out
  = fetch_pages from_api_result post fuel (S n)
      (next_page_after_value (post n pav))
      (all_entries ++ omap (kept from_api_result) (data (post n pav)))
      (page + 1)
      (out ++ page_lines from_api_result [data (post n pav)] page
                (len all_entries)).
Proof.
  intros (Hs & Hd & Hc). cbn [fetch_pages page_lines]. unfold refused in Hs.
  rewrite decide_False by done. rewrite decide_False by done.
  rewrite collect_hits_spec by done.
  destruct (next_page_after_value (post n pav)) as [c|]; [|done].
  rewrite decide_False by done.
  by rewrite length_app, Nat2Z.inj_add.
Qed.

Lemma fetch_pages_last fuel n pav (all_entries : list R) page out :
  last_page (post n pav) →
  fetch_pages from_api_result post (S fuel) n pav all_entries page out
  = (Return (all_entries ++ omap (kept from_api_result) (data (post n pav))),
     out
     ++ page_lines from_api_result
          (filter (λ hits, hits ≠ []) [data (post n pav)]) page
          (len all_entries)
     ++ [InfoDone
           (len (all_entries
                 ++ omap (kept from_api_result) (data (post n pav))))]).
Proof.
  intros (Hs & Hlast). cbn [fetch_pages]. unfold refused in Hs.
  rewrite decide_False by done. rewrite filter_cons, filter_nil.
  destruct (decide (data (post n pav) = [])) as [Hd|Hd].
  - rewrite Hd. cbn. by rewrite app_nil_r.
  - rewrite decide_True by done.
    rewrite collect_hits_spec by done. cbn [page_lines].
    rewrite <- (Nat2Z.inj_add (length all_entries)), <- length_app.
    rewrite (app_assoc out).
    destruct Hlast as [?|[->| ->]]; [done|done|].
    by rewrite decide_True.
Qed.

Lemma fetch_pages_refused fuel n pav (all_entries : list R) page out :
  refused (post n pav) →
  fetch_pages from_api_result post (S fuel) n pav all_entries page out
  = (Raise HTTPError,
     out ++ [ErrorStatus (status_code (post n pav)); ErrorBody]).
Proof. intros Hs. cbn [fetch_pages]. by rewrite decide_True. Qed.

Lemma fetch_pages_run rs : ∀ r k fuel n pav (all_entries : list R) page out,
  responses post n pav (S k) = rs ++ [r] → Forall continues rs →
  (k < fuel)%nat →
  (last_page r →
   fetch_pages from_api_result post fuel n pav all_entries page out
   = (Return (all_entries
              ++ concat ((λ resp, omap (kept from_api_result) (data resp))
                         <$> rs ++ [r])),
      out
      ++ page_lines from_api_result
           (filter (λ hits, hits ≠ []) (data <$> rs ++ [r])) page
           (len all_entries)
      ++ [InfoDone
            (len (all_entries
                  ++ concat ((λ resp, omap (kept from_api_result) (data resp))
                             <$> rs ++ [r])))]))
  ∧ (refused r →
     fetch_pages from_api_result post fuel n pav all_entries page out
     = (Raise HTTPError,
        out
        ++ page_lines from_api_result (data <$> rs) page (len all_entries)
        ++ [ErrorStatus (status_code r); ErrorBody])).
Proof.
  induction rs as [|r0 rs IH];
    intros r k fuel n pav all_entries page out Hrs Hcont Hfuel.
  - destruct fuel as [|fuel]; [lia|]. cbn in Hrs. injection Hrs as Hr _.
    subst r. split.
    + intros Hlast. rewrite fetch_pages_last by done. cbn.
      by rewrite app_nil_r.
    + intros Href. by rewrite fetch_pages_refused.
  - destruct fuel as [|fuel]; [lia|]. cbn [responses] in Hrs. cbv zeta in Hrs.
    cbn [app] in Hrs. injection Hrs as Hr0 Hrs. subst r0.
    apply Forall_cons in Hcont as [Hc Hcont].
    destruct k as [|k]; [by destruct rs|].
    rewrite fetch_pages_continues by done.
    assert (k < fuel)%nat as Hfuel' by lia.
    destruct (IH r k fuel (S n) (next_page_after_value (post n pav))
                (all_entries
                 ++ omap (kept from_api_result) (data (post n pav)))
                (page + 1)
                (out ++ page_lines from_api_result [data (post n pav)] page
                          (len all_entries)) Hrs Hcont Hfuel')
      as [IHlast IHref].
    assert (len (all_entries
                 ++ omap (kept from_api_result) (data (post n pav)))
            = len all_entries
              + len (omap (kept from_api_result) (data (post n pav))))
      as Hlen by (rewrite length_app; lia).
    split.
    + intros Hlast. rewrite (IHlast Hlast). cbn [fmap list_fmap concat app].
      rewrite filter_cons_True by apply Hc.
      rewrite <- !app_assoc. do 2 f_equal. cbn [page_lines app]. cbv zeta.
      by rewrite Hlen.
    + intros Href. rewrite (IHref Href). cbn [fmap list_fmap].
      rewrite <- !app_assoc. f_equal. cbn [page_lines app]. cbv zeta.
      by rewrite Hlen.
Qed.

Lemma fetch_pages_endless fuel : ∀ n pav (all_entries : list R) page out,
  (∀ k, Forall continues (responses post n pav k)) →
  (fetch_pages from_api_result post fuel n pav all_entries page out).1
  = OutOfFuel.
Proof.
  induction fuel as [|fuel IH]; intros n pav all_entries page out Hall;
    [done|].
  pose proof (Hall 1%nat) as H1. cbn in H1. apply Forall_cons in H1 as [Hc _].
  rewrite fetch_pages_continues by done. apply IH. intros k.
  pose proof (Hall (S k)) as Hk. cbn in Hk. by apply Forall_cons in Hk as [_ ?].
Qed.

Lemma fetch_pages_Forall (P : R → Prop) fuel :
  ∀ n pav (all_entries : list R) page out entries,
  (∀ n pav d e, d ∈ data (post n pav) → from_api_result d = Return e → P e) →
  Forall P all_entries →
  (fetch_pages from_api_result post fuel n pav all_entries page out).1
  = Return entries →
  Forall P entries.
Proof.
  intros n pav all_entries page out entries HP. revert n pav all_entries page out.
  induction fuel as [|fuel IH]; intros n pav all_entries page out Hall;
    [done|].
  cbn [fetch_pages]. case_decide; [done|]. case_decide; [by intros [= <-]|].
  rewrite collect_hits_spec by done.
  assert (Forall P (all_entries
                    ++ omap (kept from_api_result) (data (post n pav))))
    as Hall'.
  { apply Forall_app. split; [done|]. apply Forall_forall. intros e He.
    apply list_elem_of_omap in He as (d & Hin & Hd). unfold kept in Hd.
    destruct (from_api_result d) eqn:Heq; [|done..].
    injection Hd as ->. by eapply HP. }
  destruct (next_page_after_value (post n pav)) as [c|];
    [case_decide|]; try by intros [= <-].
  by apply IH.
Qed.
End fetch_runs.

(** X6: when the server answers [k] requests with a non-empty page and a
    non-empty cursor and the next one with a last page (no hits, or no
    cursor), both fetch functions return the entries kept from all these
    pages, in order, for any budget above [k]; they print one page line per
    non-empty page, with the running total, and the final total. *)
Theorem fetch_returns_all_pages (strip : string → string)
    (post : nat → option string → response) (rs : list response)
    (r : response) (k fuel : nat) :
  responses post 0 None (S k) = rs ++ [r] → Forall continues rs →
  last_page r → (k < fuel)%nat →
  Script.fetch_all_orca_entries post fuel
  = (Return (concat ((λ resp, omap (kept Script.from_api_result) (data resp))
                     <$> rs ++ [r])),
     [InfoFetching]
     ++ page_lines Script.from_api_result
          (filter (λ hits, hits ≠ []) (data <$> rs ++ [r])) 0 0
     ++ [InfoDone
           (len (concat ((λ resp,
                            omap (kept Script.from_api_result) (data resp))
                         <$> rs ++ [r])))])
  ∧ DistinctAuthors.fetch_all_entries strip post fuel
    = (Return (concat ((λ resp,
                          omap (kept (DistinctAuthors.from_api_result strip))
                            (data resp))
                       <$> rs ++ [r])),
       [InfoFetching]
       ++ page_lines (DistinctAuthors.from_api_result strip)
            (filter (λ hits, hits ≠ []) (data <$> rs ++ [r])) 0 0
       ++ [InfoDone
             (len (concat ((λ resp,
                              omap
                                (kept (DistinctAuthors.from_api_result strip))
                                (data resp))
                           <$> rs ++ [r])))]).
Proof.
  intros Hrs Hcont Hlast Hfuel. split.
  - apply (fetch_pages_run Script.from_api_result Script_only_KeyError post
             rs r k fuel 0%nat None [] 0 [InfoFetching] Hrs Hcont Hfuel).
    exact Hlast.
  - apply (fetch_pages_run (DistinctAuthors.from_api_result strip)
             (DistinctAuthors_only_KeyError strip) post
             rs r k fuel 0%nat None [] 0 [InfoFetching] Hrs Hcont Hfuel).
    exact Hlast.
Qed.

Lemma fetch_returns_all_pages_witness :
  Script.fetch_all_orca_entries two_pages 2
  = (Return [{| Script.entry_id := Some "e1"; Script.upload_id := Some "u1";
                Script.mainfile := Some "mol.out";
                Script.system := "molecule";
                Script.structural_type := Some "molecule" |};
             {| Script.entry_id := Some "e2"; Script.upload_id := None;
                Script.mainfile := None; Script.system := "unknown";
                Script.structural_type := None |}],
     [InfoFetching; PageLine 1 2 1; PageLine 2 1 2; InfoDone 2]).
Proof.
  assert (responses two_pages 0 None 2
          = [Response 200 [good_hit; hit_without_id] (Some "e1")]
            ++ [Response 200 [other_hit] None]) as H1 by reflexivity.
  assert (Forall continues
            [Response 200 [good_hit; hit_without_id] (Some "e1")]) as H2.
  { repeat constructor; [unfold refused; cbn; lia | done | done]. }
  assert (last_page (Response 200 [other_hit] None)) as H3.
  { split; [unfold refused; cbn; lia | right; left; done]. }
  assert (1 < 2)%nat as H4 by lia.
  exact (proj1 (fetch_returns_all_pages id two_pages _ _ 1 2 H1 H2 H3 H4)).
Defined.

(** X7: when the server answers [k] requests with a non-empty page and a
    non-empty cursor and refuses the next one (status 4xx or 5xx), both
    fetch functions raise the HTTP error after printing status and body:
    the entries of the pages fetched before are not returned. *)
Theorem http_error_aborts_fetch (strip : string → string)
    (post : nat → option string → response) (rs : list response)
    (r : response) (k fuel : nat) :
  responses post 0 None (S k) = rs ++ [r] → Forall continues rs →
  refused r → (k < fuel)%nat →
  Script.fetch_all_orca_entries post fuel
  = (Raise HTTPError,
     [InfoFetching]
     ++ page_lines Script.from_api_result (data <$> rs) 0 0
     ++ [ErrorStatus (status_code r); ErrorBody])
  ∧ DistinctAuthors.fetch_all_entries strip post fuel
    = (Raise HTTPError,
       [InfoFetching]
       ++ page_lines (DistinctAuthors.from_api_result strip) (data <$> rs) 0 0
       ++ [ErrorStatus (status_code r); ErrorBody]).
Proof.
  intros Hrs Hcont Href Hfuel. split.
  - apply (fetch_pages_run Script.from_api_result Script_only_KeyError post
             rs r k fuel 0%nat None [] 0 [InfoFetching] Hrs Hcont Hfuel).
    exact Href.
  - apply (fetch_pages_run (DistinctAuthors.from_api_result strip)
             (DistinctAuthors_only_KeyError strip) post
             rs r k fuel 0%nat None [] 0 [InfoFetching] Hrs Hcont Hfuel).
    exact Href.
Qed.

Lemma http_error_aborts_fetch_witness :
  Script.fetch_all_orca_entries fails_on_second 2
  = (Raise HTTPError,
     [InfoFetching; PageLine 1 1 1; ErrorStatus 502; ErrorBody]).
Proof.
  assert (responses fails_on_second 0 None 2
          = [Response 200 [good_hit] (Some "e1")] ++ [Response 502 [] None])
    as H1 by reflexivity.
  assert (Forall continues [Response 200 [good_hit] (Some "e1")]) as H2.
  { repeat constructor; [unfold refused; cbn; lia | done | done]. }
  assert (refused (Response 502 [] None)) as H3 by (unfold refused; cbn; lia).
  assert (1 < 2)%nat as H4 by lia.
  exact (proj1 (http_error_aborts_fetch id fails_on_second _ _ 1 2
                  H1 H2 H3 H4)).
Defined.

Lemma same_page_for_ever_continues n pav k :
  Forall continues (responses same_page_for_ever n pav k).
Proof.
  revert n pav. induction k as [|k IH]; intros n pav; cbn; constructor.
  - split_and!; [unfold refused; cbn; lia | done | done].
  - apply IH.
Qed.

(** X8: the fetch loop has no bound of its own.  Against a server that
    answers every request with a non-empty page and a non-empty cursor,
    neither fetch function ever returns or raises: every budget runs out. *)
Theorem fetch_never_ends (strip : string → string)
    (post : nat → option string → response) (fuel : nat) :
  (∀ k, Forall continues (responses post 0 None k)) →
  (Script.fetch_all_orca_entries post fuel).1 = OutOfFuel
  ∧ (DistinctAuthors.fetch_all_entries strip post fuel).1 = OutOfFuel.
Proof.
  intros Hall. split.
  - by apply fetch_pages_endless; [apply Script_only_KeyError|].
  - by apply fetch_pages_endless; [apply DistinctAuthors_only_KeyError|].
Qed.

Lemma fetch_never_ends_witness :
  (Script.fetch_all_orca_entries same_page_for_ever 1000).1 = OutOfFuel
  ∧ (DistinctAuthors.fetch_all_entries id same_page_for_ever 1000).1
    = OutOfFuel.
Proof.
  exact (fetch_never_ends id same_page_for_ever 1000
           (same_page_for_ever_continues 0 None)).
Defined.

(** X9: every entry the fetch functions return carries a non-empty
    [system] label: its [structural_type] when that is a non-empty string,
    and ["unknown"] otherwise. *)
Theorem fetched_entries_labelled (strip : string → string)
    (post : nat → option string → response) (fuel : nat)
    (entries : list Script.RepoEntry)
    (entries' : list DistinctAuthors.RepoEntry) :
  (Script.fetch_all_orca_entries post fuel).1 = Return entries →
  (DistinctAuthors.fetch_all_entries strip post fuel).1 = Return entries' →
  Forall (λ e, Script.system e ≠ ""
               ∧ Script.system e
                 = match Script.structural_type e with
                   | Some s => if decide (s = "") then "unknown" else s
                   | None => "unknown"
                   end) entries
  ∧ Forall (λ e, DistinctAuthors.system e ≠ ""
                 ∧ DistinctAuthors.system e
                   = match DistinctAuthors.structural_type e with
                     | Some s => if decide (s = "") then "unknown" else s
                     | None => "unknown"
                     end) entries'.
Proof.
  assert (∀ st, system_label st ≠ "") as Hlabel.
  { intros [s|]; cbn; [case_decide|]; done. }
  intros Hs Hd. split.
  - eapply (fetch_pages_Forall Script.from_api_result Script_only_KeyError);
      [|constructor|exact Hs].
    intros _ _ d e _. unfold Script.from_api_result.
    destruct (hit_entry_id d); [|done]. intros [= <-]. cbn. split; [|done].
    apply Hlabel.
  - eapply (fetch_pages_Forall (DistinctAuthors.from_api_result strip)
              (DistinctAuthors_only_KeyError strip));
      [|constructor|exact Hd].
    intros _ _ d e _. unfold DistinctAuthors.from_api_result.
    destruct (hit_entry_id d); [|done]. intros [= <-]. cbn. split; [|done].
    apply Hlabel.
Qed.

Lemma fetched_entries_labelled_witness :
  Forall (λ e, Script.system e ≠ ""
               ∧ Script.system e
                 = match Script.structural_type e with
                   | Some s => if decide (s = "") then "unknown" else s
                   | None => "unknown"
                   end)
    [{| Script.entry_id := Some "e1"; Script.upload_id := Some "u1";
        Script.mainfile := Some "mol.out"; Script.system := "molecule";
        Script.structural_type := Some "molecule" |};
     {| Script.entry_id := Some "e2"; Script.upload_id := None;
        Script.mainfile := None; Script.system := "unknown";
        Script.structural_type := None |}].
Proof.
  exact (proj1 (fetched_entries_labelled id two_pages 2 _ _ eq_refl eq_refl)).
Defined.

(** ** The distributions [main] prints *)

Section distributions.
Context {E : Type} (system : E → string).
Implicit Types (entries : list E).

Lemma count_systems_snoc entries e :
  count_systems system (entries ++ [e])
  = dict_set (system e)
      (default 0 (dict_get (count_systems system entries) (system e)) + 1)
      (count_systems system entries).
Proof. unfold count_systems. by rewrite foldl_app. Qed.

Lemma count_setdefault_append k e (buckets : dict (list E)) :
  let sizes := (λ kb : string * list E, (kb.1, len kb.2)) <$> buckets in
  dict_set k (default 0 (dict_get sizes k) + 1) sizes
  = (λ kb : string * list E, (kb.1, len kb.2)) <$> setdefault_append k e buckets.
Proof.
  cbv zeta. induction buckets as [|[k' bucket] buckets IH]; [done|].
  cbn [fmap list_fmap dict_get dict_set setdefault_append fst snd].
  case_decide.
  - cbn. rewrite length_app. cbn. do 2 f_equal. lia.
  - cbn. f_equal. apply IH.
Qed.

Lemma count_systems_buckets entries :
  count_systems system entries
  = (λ kb, (kb.1, len kb.2)) <$> bucket_entries system entries.
Proof.
  induction entries as [|e entries IH] using rev_ind; [done|].
  rewrite count_systems_snoc, bucket_entries_snoc, IH.
  apply count_setdefault_append.
Qed.

Lemma dict_get_sizes (buckets : dict (list E)) s :
  dict_get ((λ kb : string * list E, (kb.1, len kb.2)) <$> buckets) s
  = (λ b : list E, len b) <$> dict_get buckets s.
Proof.
  induction buckets as [|[k b] buckets IH]; [done|]. cbn.
  by case_decide.
Qed.

Lemma sum_sizes (buckets : dict (list E)) :
  sum_values ((λ kb : string * list E, (kb.1, len kb.2)) <$> buckets)
  = len (concat (values buckets)).
Proof.
  unfold sum_values, values.
  induction buckets as [|[k b] buckets IH]; [done|].
  cbn in *. rewrite length_app, IH. lia.
Qed.
End distributions.

(** X10: the distribution that [main] computes with
    [dist[e.system] = dist.get(e.system, 0) + 1] lists the labels in order
    of first appearance, gives each label the number of entries that carry
    it, has no other keys, adds up to the number of entries, and is the
    table of the sizes of the buckets the sampling functions build. *)
Theorem distribution_counts_strata {E} (system : E → string)
    (entries : list E) :
  keys (count_systems system entries) = first_seen (system <$> entries)
  ∧ (∀ s, dict_get (count_systems system entries) s
          = if decide (s ∈ system <$> entries)
            then Some (len (filter (λ e, system e = s) entries))
            else None)
  ∧ sum_values (count_systems system entries) = len entries
  ∧ count_systems system entries
    = (λ kb, (kb.1, len kb.2)) <$> bucket_entries system entries.
Proof.
  rewrite count_systems_buckets. split_and!; [| | |done].
  - rewrite <- bucket_entries_keys. unfold keys.
    rewrite <- list_fmap_compose. by apply list_fmap_ext.
  - intros s. rewrite dict_get_sizes, bucket_entries_get.
    case_decide as Hin.
    + apply list_elem_of_fmap in Hin as (e & -> & He).
      assert (e ∈ filter (λ e', system e' = system e) entries) as Hf
        by (by apply list_elem_of_filter).
      by destruct (filter _ entries); [apply elem_of_nil in Hf|].
    + destruct (filter _ entries) as [|e l] eqn:Hf; [done|].
      assert (e ∈ filter (λ e', system e' = s) entries) as He
        by (rewrite Hf; left).
      apply list_elem_of_filter in He as [<- He]. destruct Hin.
      apply list_elem_of_fmap. eauto.
  - rewrite sum_sizes.
    by rewrite (buckets_perm _ _ _ (bucket_entries_spec system entries)).
Qed.

(** ** Writing the samples *)

Lemma dict_set_set {V} (d : dict V) k v v' :
  dict_set k v' (dict_set k v d) = dict_set k v' d.
Proof.
  induction d as [|[k0 v0] d IH]; cbn.
  - by rewrite decide_True.
  - case_decide; cbn.
    + by rewrite decide_True.
    + rewrite decide_False by done. by rewrite IH.
Qed.

Lemma io_bind_Return {A B} (m : io A) (f : A → io B) fs a fs' out :
  m fs = (Return a, fs', out) →
  (m ≫= f) fs = (let '(r, fs'', out') := f a fs' in (r, fs'', out ++ out')).
Proof. intros Hm. unfold mbind, io_mbind, io_bind. by rewrite Hm. Qed.

Section output_facts.
Context {E : Type} (asdict : E → dict (option string)).
Context (fieldnames : list string) (row : E → list string).
Hypothesis row_written :
  ∀ e, dict_to_list fieldnames (asdict e) = Return (row e).

Lemma write_rows_run filename (entries : list E) rows fs :
  write_rows asdict fieldnames filename entries rows
    (dict_set filename (CsvFile fieldnames rows) fs)
  = (Return (),
     dict_set filename (CsvFile fieldnames (rows ++ (row <$> entries))) fs,
     []).
Proof.
  revert rows. induction entries as [|e entries IH]; intros rows.
  - cbn. by rewrite app_nil_r.
  - cbn [write_rows].
    unfold mbind, io_mbind, io_bind, run, write_file. rewrite row_written.
    rewrite dict_set_set.
    rewrite IH. cbn. by rewrite <- app_assoc.
Qed.

Lemma write_csv_run filename (entries : list E) fs :
  write_csv asdict fieldnames filename entries fs
  = (Return (),
     dict_set filename (CsvFile fieldnames (row <$> entries)) fs,
     [WroteCsv filename]).
Proof.
  unfold write_csv, mbind, io_mbind, io_bind, write_file at 1.
  rewrite write_rows_run. by cbn.
Qed.

Lemma write_json_run filename (entries : list E) fs :
  write_json asdict filename entries fs
  = (Return (), dict_set filename (JsonFile (asdict <$> entries)) fs,
     [WroteJson filename]).
Proof. done. Qed.
End output_facts.

Section main_loop_facts.
Context {E : Type} `{PyRandom}.
Context (sample : list E → Z → rng_state
                  → outcome (list E * rng_state * list notice)).
Context (asdict : E → dict (option string)) (fieldnames : list string).
Context (sample_stats : Z → list E → list printed).
Context (json_name csv_name : Z → string) (row : E → list string).
Hypothesis row_written :
  ∀ e, dict_to_list fieldnames (asdict e) = Return (row e).

Lemma sample_each_size_cons size sizes (all_entries : list E) g fs chosen g' :
  0 < size →
  sample all_entries (Z.min size (len all_entries)) g
  = Return (chosen, g', []) →
  sample_each_size sample asdict fieldnames sample_stats json_name csv_name
    (size :: sizes) all_entries g fs
  = (let t := Z.min size (len all_entries) in
     let '(r, fs', out) :=
       sample_each_size sample asdict fieldnames sample_stats json_name
         csv_name sizes all_entries g'
         (with_sample_files asdict fieldnames row json_name csv_name t
            chosen fs) in
     (r, fs',
      (if decide (len all_entries < size)
       then [WarnRequested size (len all_entries)] else [])
      ++ [InfoCreating t] ++ sample_stats t chosen
      ++ [WroteJson (json_name t); WroteCsv (csv_name t); Blank] ++ out)).
Proof.
  intros Hsize Hsample. cbn [sample_each_size]. cbv zeta.
  rewrite decide_False by lia.
  unfold mbind, io_mbind, io_bind.
  destruct (decide (len all_entries < size)) as [Hlt|Hge].
  - rewrite Z.min_r in * by lia. cbn.
    unfold run. rewrite Hsample. cbn.
    rewrite write_json_run. cbn.
    rewrite (write_csv_run asdict fieldnames row row_written).
    unfold with_sample_files.
    destruct (sample_each_size _ _ _ _ _ _ sizes all_entries g' _)
      as [[r fs'] out].
    done.
  - rewrite Z.min_l in * by lia. cbn.
    unfold run. rewrite Hsample. cbn.
    rewrite write_json_run. cbn.
    rewrite (write_csv_run asdict fieldnames row row_written).
    unfold with_sample_files.
    destruct (sample_each_size _ _ _ _ _ _ sizes all_entries g' _)
      as [[r fs'] out].
    done.
Qed.

(** What the sampling function does on a target within range. *)
Hypothesis sample_in_range :
  ∀ (all_entries : list E) t g,
    all_entries ≠ [] → 0 < t ≤ len all_entries →
    ∃ chosen g', sample all_entries t g = Return (chosen, g', []).

Lemma sample_two_sizes size1 size2 (all_entries : list E) g fs :
  0 < size1 → 0 < size2 → all_entries ≠ [] →
  let n := len all_entries in
  let files := with_sample_files asdict fieldnames row json_name csv_name in
  let printed_for size chosen :=
    (if decide (n < size) then [WarnRequested size n] else [])
    ++ [InfoCreating (Z.min size n)] ++ sample_stats (Z.min size n) chosen
    ++ [WroteJson (json_name (Z.min size n));
        WroteCsv (csv_name (Z.min size n)); Blank] in
  ∃ s1 g1 s2 g2,
    sample all_entries (Z.min size1 n) g = Return (s1, g1, [])
    ∧ sample all_entries (Z.min size2 n) g1 = Return (s2, g2, [])
    ∧ sample_each_size sample asdict fieldnames sample_stats json_name
        csv_name [size1; size2] all_entries g fs
      = (Return g2,
         files (Z.min size2 n) s2 (files (Z.min size1 n) s1 fs),
         printed_for size1 s1 ++ printed_for size2 s2).
Proof.
  intros H1 H2 Hne n files printed_for.
  assert (0 < n) as Hn
    by (subst n; destruct all_entries; [done | cbn [length]; lia]).
  destruct (sample_in_range all_entries (Z.min size1 n) g Hne)
    as (s1 & g1 & Hs1); [lia|].
  destruct (sample_in_range all_entries (Z.min size2 n) g1 Hne)
    as (s2 & g2 & Hs2); [lia|].
  exists s1, g1, s2, g2. split_and!; [done..|].
  rewrite (sample_each_size_cons size1 [size2] all_entries g fs s1 g1 H1 Hs1).
  cbv zeta.
  rewrite (sample_each_size_cons size2 [] all_entries g1 _ s2 g2 H2 Hs2).
  cbv zeta. cbn [sample_each_size]. unfold mret, io_mret, io_ret.
  subst printed_for files n. cbv beta.
  by rewrite !app_nil_r, <- !app_assoc.
Qed.
End main_loop_facts.

Lemma string_last_app s t : t ≠ "" → string_last (s +:+ t) = string_last t.
Proof.
  intros Ht. induction s as [|c s IH]; [done|].
  change (String c s +:+ t) with (String c (s +:+ t)). rewrite <- IH.
  destruct (s +:+ t) as [|c' u] eqn:Heq; [|done].
  destruct s, t; done.
Qed.

Lemma string_length_app (s t : string) :
  String.length (s +:+ t) = (String.length s + String.length t)%nat.
Proof.
  induction s as [|c s IH]; [done|].
  change (String c s +:+ t) with (String c (s +:+ t)). cbn. f_equal. exact IH.
Qed.

Lemma string_app_inj_r (s1 s2 t : string) : s1 +:+ t = s2 +:+ t → s1 = s2.
Proof.
  revert s2. induction s1 as [|c s1 IH]; intros [|c' s2] Heq; [done| | |].
  - change (t = String c' (s2 +:+ t)) in Heq.
    apply (f_equal String.length) in Heq. cbn in Heq.
    rewrite string_length_app in Heq. lia.
  - change (String c (s1 +:+ t) = t) in Heq.
    apply (f_equal String.length) in Heq. cbn in Heq.
    rewrite string_length_app in Heq. lia.
  - change (String c (s1 +:+ t) = String c' (s2 +:+ t)) in Heq.
    injection Heq as -> Heq. f_equal. by apply IH.
Qed.

Section sample_files_facts.
Context {E : Type} (asdict : E → dict (option string)).
Context (fieldnames : list string) (row : E → list string).
Context (json_name csv_name : Z → string).
Hypothesis json_name_inj : ∀ a b, json_name a = json_name b → a = b.
Hypothesis csv_name_inj : ∀ a b, csv_name a = csv_name b → a = b.
Hypothesis json_not_csv : ∀ a b, json_name a ≠ csv_name b.

(** The files two rounds of the loop leave behind. *)
Lemma two_rounds_files t1 t2 (s1 s2 : list E) fs :
  let files := with_sample_files asdict fieldnames row json_name csv_name in
  let fs' := files t2 s2 (files t1 s1 fs) in
  dict_get fs' (json_name t2) = Some (JsonFile (asdict <$> s2))
  ∧ dict_get fs' (csv_name t2) = Some (CsvFile fieldnames (row <$> s2))
  ∧ (t1 ≠ t2 →
     dict_get fs' (json_name t1) = Some (JsonFile (asdict <$> s1))
     ∧ dict_get fs' (csv_name t1) = Some (CsvFile fieldnames (row <$> s1)))
  ∧ (∀ k, k ∉ [json_name t1; csv_name t1; json_name t2; csv_name t2] →
          dict_get fs' k = dict_get fs k)
  ∧ (∀ k, k ∈ keys fs'
          ↔ k ∈ keys fs
            ∨ k ∈ [json_name t1; csv_name t1; json_name t2; csv_name t2]).
Proof.
  intros files fs'. subst fs' files. unfold with_sample_files.
  assert (∀ a b, csv_name a ≠ json_name b) as csv_not_json
    by (intros a b Heq; by apply (json_not_csv b a)).
  split_and!.
  - rewrite !dict_get_set. rewrite decide_False by done.
    by rewrite decide_True.
  - rewrite !dict_get_set. by rewrite decide_True.
  - intros Hne. split; rewrite !dict_get_set.
    + rewrite decide_False by done.
      rewrite decide_False by (intros ?%json_name_inj; done).
      rewrite decide_False by done. by rewrite decide_True.
    + rewrite decide_False by (intros ?%csv_name_inj; done).
      rewrite decide_False by done. by rewrite decide_True.
  - intros k Hk. rewrite !dict_get_set.
    rewrite !not_elem_of_cons in Hk. destruct Hk as (? & ? & ? & ? & _).
    by rewrite !decide_False by done.
  - intros k. rewrite <- !dict_get_is_Some, !dict_get_set.
    rewrite !elem_of_cons, elem_of_nil.
    repeat case_decide; subst;
      (split; [intros ?; tauto | intros ?; first [by eauto | naive_solver]]).
Qed.
End sample_files_facts.

(** ** [main] *)

Lemma Script_row_written e :
  dict_to_list Script.fieldnames (Script.asdict e)
  = Return (cells (Script.asdict e)).
Proof. by destruct e as [? [?|] [?|] ? [?|]]. Qed.

Lemma DistinctAuthors_row_written e :
  dict_to_list DistinctAuthors.fieldnames (DistinctAuthors.asdict e)
  = Return (cells (DistinctAuthors.asdict e)).
Proof. by destruct e as [? [?|] [?|] [?|] ? [?|]]. Qed.

Lemma name_inj (prefix suffix : string) (a b : Z) :
  prefix +:+ pretty a +:+ suffix = prefix +:+ pretty b +:+ suffix → a = b.
Proof.
  intros Heq%(inj (String.app prefix))%string_app_inj_r.
  by apply (inj pretty).
Qed.

Lemma json_name_not_csv_name (prefix prefix' s s' : string) :
  prefix +:+ s +:+ ".json" ≠ prefix' +:+ s' +:+ ".csv".
Proof.
  assert (∀ p u t, t ≠ "" → string_last (p +:+ u +:+ t) = string_last t)
    as Hlast.
  { intros p u t Ht. rewrite !string_last_app; [done..|]. by destruct u, t. }
  intros Heq. apply (f_equal string_last) in Heq.
  by rewrite !Hlast in Heq.
Qed.

Section in_range.
Context `{PyRandom} (round_quota : Z → Z → Z → Z).

Lemma Script_sample_in_range (all_entries : list Script.RepoEntry) t g :
  all_entries ≠ [] → 0 < t ≤ len all_entries →
  ∃ chosen g',
    Script.stratified_sample round_quota all_entries t g
    = Return (chosen, g', []).
Proof.
  intros Hne Ht.
  destruct (stratified_sample_guard Script.entry_id Script.system round_quota
              all_entries t g) as (_ & _ & _ & Hrun).
  destruct (Hrun ltac:(lia) Hne) as (chosen & g' & out & Heq & -> & _).
  exists chosen, g'. rewrite decide_False in Heq by lia. exact Heq.
Qed.

Lemma DistinctAuthors_sample_in_range
    (all_entries : list DistinctAuthors.RepoEntry) t g :
  all_entries ≠ [] → 0 < t ≤ len all_entries →
  ∃ chosen g',
    DistinctAuthors.main_author_diverse_stratified_sample round_quota
      all_entries t g
    = Return (chosen, g', []).
Proof.
  intros Hne Ht.
  destruct (sample_with_selection_guard DistinctAuthors.entry_id
              DistinctAuthors.system DistinctAuthors.main_author round_quota
              true all_entries t g) as (_ & _ & _ & Hrun).
  destruct (Hrun ltac:(lia) Hne) as (chosen & g' & out & Heq & -> & _).
  exists chosen, g'. rewrite decide_False in Heq by lia. exact Heq.
Qed.
End in_range.

Section main_facts.
Context `{PyRandom} (round_quota : Z → Z → Z → Z).
Context (post : nat → option string → response) (fuel : nat).

Lemma Script_main_run (all_entries : list Script.RepoEntry) lines fs :
  Script.fetch_all_orca_entries post fuel = (Return all_entries, lines) →
  all_entries ≠ [] →
  let n := len all_entries in
  let files :=
    with_sample_files Script.asdict Script.fieldnames
      (λ e, cells (Script.asdict e)) Script.json_name Script.csv_name in
  let printed_for size chosen :=
    (if decide (n < size) then [WarnRequested size n] else [])
    ++ [InfoCreating (Z.min size n);
        SampleSystems (Z.min size n) (count_systems Script.system chosen);
        WroteJson (Script.json_name (Z.min size n));
        WroteCsv (Script.csv_name (Z.min size n)); Blank] in
  ∃ s1 g1 s2 g2,
    Script.stratified_sample round_quota all_entries (Z.min 500 n)
      (Random 123456)
    = Return (s1, g1, [])
    ∧ Script.stratified_sample round_quota all_entries (Z.min 2000 n) g1
      = Return (s2, g2, [])
    ∧ Script.main round_quota post fuel fs
      = (Return (),
         files (Z.min 2000 n) s2 (files (Z.min 500 n) s1 fs),
         (Fetching <$> lines)
         ++ [GlobalSystems (count_systems Script.system all_entries)]
         ++ printed_for 500 s1 ++ printed_for 2000 s2 ++ [Done]).
Proof.
  intros Hfetch Hne n files printed_for.
  destruct (sample_two_sizes (Script.stratified_sample round_quota)
              Script.asdict Script.fieldnames
              (λ size chosen,
                 [SampleSystems size (count_systems Script.system chosen)])
              Script.json_name Script.csv_name
              (λ e, cells (Script.asdict e)) Script_row_written
              (Script_sample_in_range round_quota)
              500 2000 all_entries (Random 123456) fs)
    as (s1 & g1 & s2 & g2 & Hs1 & Hs2 & Hloop); [lia|lia|done|].
  exists s1, g1, s2, g2. split_and!; [done..|].
  unfold Script.main, Script.TARGET_SIZES, Script.RNG_SEED.
  unfold mbind, io_mbind, io_bind, fetched. rewrite Hfetch. cbn [fst snd].
  rewrite decide_False by done. cbn [print_line].
  rewrite Hloop. subst printed_for files n. cbn.
  by rewrite <- !app_assoc.
Qed.

Lemma DistinctAuthors_main_run strip
    (all_entries : list DistinctAuthors.RepoEntry) lines fs :
  DistinctAuthors.fetch_all_entries strip post fuel
  = (Return all_entries, lines) →
  all_entries ≠ [] →
  let n := len all_entries in
  let files :=
    with_sample_files DistinctAuthors.asdict DistinctAuthors.fieldnames
      (λ e, cells (DistinctAuthors.asdict e)) DistinctAuthors.json_name
      DistinctAuthors.csv_name in
  let printed_for size chosen :=
    (if decide (n < size) then [WarnRequested size n] else [])
    ++ [InfoCreating (Z.min size n);
        SampleSystems (Z.min size n)
          (count_systems DistinctAuthors.system chosen);
        SampleAuthors (Z.min size n)
          (DistinctAuthors.distinct_main_authors chosen);
        WroteJson (DistinctAuthors.json_name (Z.min size n));
        WroteCsv (DistinctAuthors.csv_name (Z.min size n)); Blank] in
  ∃ s1 g1 s2 g2,
    DistinctAuthors.main_author_diverse_stratified_sample round_quota
      all_entries (Z.min 500 n) (Random 123456)
    = Return (s1, g1, [])
    ∧ DistinctAuthors.main_author_diverse_stratified_sample round_quota
        all_entries (Z.min 2000 n) g1
      = Return (s2, g2, [])
    ∧ DistinctAuthors.main strip round_quota post fuel fs
      = (Return (),
         files (Z.min 2000 n) s2 (files (Z.min 500 n) s1 fs),
         (Fetching <$> lines)
         ++ [GlobalSystems (count_systems DistinctAuthors.system all_entries);
             GlobalAuthors (DistinctAuthors.distinct_main_authors all_entries)]
         ++ printed_for 500 s1 ++ printed_for 2000 s2 ++ [Done]).
Proof.
  intros Hfetch Hne n files printed_for.
  destruct (sample_two_sizes
              (DistinctAuthors.main_author_diverse_stratified_sample
                 round_quota)
              DistinctAuthors.asdict DistinctAuthors.fieldnames
              (λ size chosen,
                 [SampleSystems size
                    (count_systems DistinctAuthors.system chosen);
                  SampleAuthors size
                    (DistinctAuthors.distinct_main_authors chosen)])
              DistinctAuthors.json_name DistinctAuthors.csv_name
              (λ e, cells (DistinctAuthors.asdict e))
              DistinctAuthors_row_written
              (DistinctAuthors_sample_in_range round_quota)
              500 2000 all_entries (Random 123456) fs)
    as (s1 & g1 & s2 & g2 & Hs1 & Hs2 & Hloop); [lia|lia|done|].
  exists s1, g1, s2, g2. split_and!; [done..|].
  unfold DistinctAuthors.main, DistinctAuthors.TARGET_SIZES,
    DistinctAuthors.RNG_SEED.
  unfold mbind, io_mbind, io_bind, fetched. rewrite Hfetch. cbn [fst snd].
  rewrite decide_False by done. cbn [print_line].
  rewrite Hloop. subst printed_for files n. cbn.
  by rewrite <- !app_assoc.
Qed.
End main_facts.

(** X11: when the fetch returns a non-empty list, [main] of [script.py]
    returns normally.  It draws the sample for 500 with the generator
    seeded with 123456 and the sample for 2000 with the generator as the
    first draw left it, each for the size capped at the number of entries,
    so that the sampling function never raises and never prints its own
    warning; it writes a JSON and a CSV file per round and prints the
    lines below. *)
Theorem main_draws_both_samples `{PyRandom} (round_quota : Z → Z → Z → Z)
    (post : nat → option string → response) (fuel : nat)
    (all_entries : list Script.RepoEntry) (lines : list line)
    (fs : dict file) :
  Script.fetch_all_orca_entries post fuel = (Return all_entries, lines) →
  all_entries ≠ [] →
  let n := len all_entries in
  let files :=
    with_sample_files Script.asdict Script.fieldnames
      (λ e, cells (Script.asdict e)) Script.json_name Script.csv_name in
  let printed_for size chosen :=
    (if decide (n < size) then [WarnRequested size n] else [])
    ++ [InfoCreating (Z.min size n);
        SampleSystems (Z.min size n) (count_systems Script.system chosen);
        WroteJson (Script.json_name (Z.min size n));
        WroteCsv (Script.csv_name (Z.min size n)); Blank] in
  ∃ s1 g1 s2 g2,
    Script.stratified_sample round_quota all_entries (Z.min 500 n)
      (Random 123456)
    = Return (s1, g1, [])
    ∧ Script.stratified_sample round_quota all_entries (Z.min 2000 n) g1
      = Return (s2, g2, [])
    ∧ Script.main round_quota post fuel fs
      = (Return (),
         files (Z.min 2000 n) s2 (files (Z.min 500 n) s1 fs),
         (Fetching <$> lines)
         ++ [GlobalSystems (count_systems Script.system all_entries)]
         ++ printed_for 500 s1 ++ printed_for 2000 s2 ++ [Done]).
Proof. apply Script_main_run. Qed.

Lemma main_draws_both_samples_witness :
  (Script.main exact_round_quota two_pages 2 []).1.1 = Return ().
Proof.
  destruct (main_draws_both_samples exact_round_quota two_pages 2
              [{| Script.entry_id := Some "e1"; Script.upload_id := Some "u1";
                  Script.mainfile := Some "mol.out";
                  Script.system := "molecule";
                  Script.structural_type := Some "molecule" |};
               {| Script.entry_id := Some "e2"; Script.upload_id := None;
                  Script.mainfile := None; Script.system := "unknown";
                  Script.structural_type := None |}]
              [InfoFetching; PageLine 1 2 1; PageLine 2 1 2; InfoDone 2]
              [] eq_refl ltac:(discriminate))
    as (s1 & g1 & s2 & g2 & _ & _ & ->).
  reflexivity.
Defined.

(** X12: the same for [main] of [script_distinct_authors.py], which also
    prints the numbers of distinct main authors. *)
Theorem main_draws_both_samples_diverse `{PyRandom}
    (strip : string → string) (round_quota : Z → Z → Z → Z)
    (post : nat → option string → response) (fuel : nat)
    (all_entries : list DistinctAuthors.RepoEntry) (lines : list line)
    (fs : dict file) :
  DistinctAuthors.fetch_all_entries strip post fuel
  = (Return all_entries, lines) →
  all_entries ≠ [] →
  let n := len all_entries in
  let files :=
    with_sample_files DistinctAuthors.asdict DistinctAuthors.fieldnames
      (λ e, cells (DistinctAuthors.asdict e)) DistinctAuthors.json_name
      DistinctAuthors.csv_name in
  let printed_for size chosen :=
    (if decide (n < size) then [WarnRequested size n] else [])
    ++ [InfoCreating (Z.min size n);
        SampleSystems (Z.min size n)
          (count_systems DistinctAuthors.system chosen);
        SampleAuthors (Z.min size n)
          (DistinctAuthors.distinct_main_authors chosen);
        WroteJson (DistinctAuthors.json_name (Z.min size n));
        WroteCsv (DistinctAuthors.csv_name (Z.min size n)); Blank] in
  ∃ s1 g1 s2 g2,
    DistinctAuthors.main_author_diverse_stratified_sample round_quota
      all_entries (Z.min 500 n) (Random 123456)
    = Return (s1, g1, [])
    ∧ DistinctAuthors.main_author_diverse_stratified_sample round_quota
        all_entries (Z.min 2000 n) g1
      = Return (s2, g2, [])
    ∧ DistinctAuthors.main strip round_quota post fuel fs
      = (Return (),
         files (Z.min 2000 n) s2 (files (Z.min 500 n) s1 fs),
         (Fetching <$> lines)
         ++ [GlobalSystems (count_systems DistinctAuthors.system all_entries);
             GlobalAuthors (DistinctAuthors.distinct_main_authors all_entries)]
         ++ printed_for 500 s1 ++ printed_for 2000 s2 ++ [Done]).
Proof. apply DistinctAuthors_main_run. Qed.

Lemma main_draws_both_samples_diverse_witness :
  (DistinctAuthors.main id exact_round_quota two_pages 2 []).1.1 = Return ().
Proof.
  destruct (main_draws_both_samples_diverse id exact_round_quota two_pages 2
              [{| DistinctAuthors.entry_id := Some "e1";
                  DistinctAuthors.upload_id := Some "u1";
                  DistinctAuthors.mainfile := Some "mol.out";
                  DistinctAuthors.main_author := None;
                  DistinctAuthors.system := "molecule";
                  DistinctAuthors.structural_type := Some "molecule" |};
               {| DistinctAuthors.entry_id := Some "e2";
                  DistinctAuthors.upload_id := None;
                  DistinctAuthors.mainfile := None;
                  DistinctAuthors.main_author := Some " A. Author ";
                  DistinctAuthors.system := "unknown";
                  DistinctAuthors.structural_type := None |}]
              [InfoFetching; PageLine 1 2 1; PageLine 2 1 2; InfoDone 2]
              [] eq_refl ltac:(discriminate))
    as (s1 & g1 & s2 & g2 & _ & _ & ->).
  reflexivity.
Defined.

Lemma Script_names :
  (∀ a b, Script.json_name a = Script.json_name b → a = b)
  ∧ (∀ a b, Script.csv_name a = Script.csv_name b → a = b)
  ∧ (∀ a b, Script.json_name a ≠ Script.csv_name b).
Proof.
  split_and!; intros a b.
  - apply name_inj.
  - apply name_inj.
  - apply json_name_not_csv_name.
Qed.

Lemma DistinctAuthors_names :
  (∀ a b, DistinctAuthors.json_name a = DistinctAuthors.json_name b → a = b)
  ∧ (∀ a b, DistinctAuthors.csv_name a = DistinctAuthors.csv_name b → a = b)
  ∧ (∀ a b, DistinctAuthors.json_name a ≠ DistinctAuthors.csv_name b).
Proof.
  split_and!; intros a b.
  - apply name_inj.
  - apply name_inj.
  - apply json_name_not_csv_name.
Qed.

(** X13: the files [main] of [script.py] leaves behind when the fetch
    returns [n > 0] entries.  The files named after the second size (capped
    at [n]) hold the second sample, as records and as rows of cells.  With
    more than 500 entries the files [orca_sample_500.json] and
    [orca_sample_500.csv] hold the first sample; with at most 500 entries
    both rounds use the names for [n], so the first sample is overwritten
    and only one pair of files is new.  No other file is touched. *)
Theorem main_sample_files `{PyRandom} (round_quota : Z → Z → Z → Z)
    (post : nat → option string → response) (fuel : nat)
    (all_entries : list Script.RepoEntry) (lines : list line)
    (fs : dict file) :
  Script.fetch_all_orca_entries post fuel = (Return all_entries, lines) →
  all_entries ≠ [] →
  let n := len all_entries in
  ∃ s1 g1 s2 g2 fs' out,
    Script.stratified_sample round_quota all_entries (Z.min 500 n)
      (Random 123456)
    = Return (s1, g1, [])
    ∧ Script.stratified_sample round_quota all_entries (Z.min 2000 n) g1
      = Return (s2, g2, [])
    ∧ Script.main round_quota post fuel fs = (Return (), fs', out)
    ∧ dict_get fs' (Script.json_name (Z.min 2000 n))
      = Some (JsonFile (Script.asdict <$> s2))
    ∧ dict_get fs' (Script.csv_name (Z.min 2000 n))
      = Some (CsvFile Script.fieldnames
                ((λ e, cells (Script.asdict e)) <$> s2))
    ∧ (500 < n →
       dict_get fs' "orca_sample_500.json"
       = Some (JsonFile (Script.asdict <$> s1))
       ∧ dict_get fs' "orca_sample_500.csv"
         = Some (CsvFile Script.fieldnames
                   ((λ e, cells (Script.asdict e)) <$> s1)))
    ∧ (n ≤ 500 →
       ∀ k, k ∈ keys fs'
            ↔ k ∈ keys fs ∨ k = Script.json_name n ∨ k = Script.csv_name n)
    ∧ (∀ k, k ∉ [Script.json_name (Z.min 500 n);
                 Script.csv_name (Z.min 500 n);
                 Script.json_name (Z.min 2000 n);
                 Script.csv_name (Z.min 2000 n)] →
            dict_get fs' k = dict_get fs k).
Proof.
  intros Hfetch Hne n.
  destruct (Script_main_run round_quota post fuel all_entries lines fs
              Hfetch Hne) as (s1 & g1 & s2 & g2 & Hs1 & Hs2 & Hmain).
  destruct Script_names as (Hj & Hc & Hjc).
  destruct (two_rounds_files Script.asdict Script.fieldnames
              (λ e, cells (Script.asdict e)) Script.json_name
              Script.csv_name Hj Hc Hjc (Z.min 500 n) (Z.min 2000 n) s1 s2 fs)
    as (Hj2 & Hc2 & H1 & Hother & Hkeys).
  eexists s1, g1, s2, g2, _, _. split_and!; [exact Hs1|exact Hs2|exact Hmain|..].
  - exact Hj2.
  - exact Hc2.
  - intros Hn. assert (Z.min 500 n = 500) as Hmin by lia.
    assert (Script.json_name (Z.min 500 n) = "orca_sample_500.json") as <-
      by (by rewrite Hmin).
    assert (Script.csv_name (Z.min 500 n) = "orca_sample_500.csv") as <-
      by (by rewrite Hmin).
    apply H1. lia.
  - intros Hn k. etrans; [apply Hkeys|].
    assert (Z.min 500 n = n) as -> by lia.
    assert (Z.min 2000 n = n) as -> by lia.
    rewrite !elem_of_cons, elem_of_nil. tauto.
  - exact Hother.
Qed.

Lemma main_sample_files_witness :
  ∃ fs',
    (Script.main exact_round_quota two_pages 2 []).1.2 = fs'
    ∧ ∀ k, k ∈ keys fs'
           ↔ k ∈ keys ([] : dict file) ∨ k = "orca_sample_2.json"
             ∨ k = "orca_sample_2.csv".
Proof.
  destruct (main_sample_files exact_round_quota two_pages 2
              [{| Script.entry_id := Some "e1"; Script.upload_id := Some "u1";
                  Script.mainfile := Some "mol.out";
                  Script.system := "molecule";
                  Script.structural_type := Some "molecule" |};
               {| Script.entry_id := Some "e2"; Script.upload_id := None;
                  Script.mainfile := None; Script.system := "unknown";
                  Script.structural_type := None |}]
              [InfoFetching; PageLine 1 2 1; PageLine 2 1 2; InfoDone 2]
              [] eq_refl ltac:(discriminate))
    as (s1 & g1 & s2 & g2 & fs' & out & _ & _ & Hmain & _ & _ & _ & Hkeys & _).
  exists fs'. split; [by rewrite Hmain|]. apply Hkeys. cbn. lia.
Defined.

(** X14: the same for [main] of [script_distinct_authors.py] and its
    files [sample_mainauthor_<size>.json] and [.csv]. *)
Theorem main_sample_files_diverse `{PyRandom} (strip : string → string)
    (round_quota : Z → Z → Z → Z)
    (post : nat → option string → response) (fuel : nat)
    (all_entries : list DistinctAuthors.RepoEntry) (lines : list line)
    (fs : dict file) :
  DistinctAuthors.fetch_all_entries strip post fuel
  = (Return all_entries, lines) →
  all_entries ≠ [] →
  let n := len all_entries in
  ∃ s1 g1 s2 g2 fs' out,
    DistinctAuthors.main_author_diverse_stratified_sample round_quota
      all_entries (Z.min 500 n) (Random 123456)
    = Return (s1, g1, [])
    ∧ DistinctAuthors.main_author_diverse_stratified_sample round_quota
        all_entries (Z.min 2000 n) g1
      = Return (s2, g2, [])
    ∧ DistinctAuthors.main strip round_quota post fuel fs
      = (Return (), fs', out)
    ∧ dict_get fs' (DistinctAuthors.json_name (Z.min 2000 n))
      = Some (JsonFile (DistinctAuthors.asdict <$> s2))
    ∧ dict_get fs' (DistinctAuthors.csv_name (Z.min 2000 n))
      = Some (CsvFile DistinctAuthors.fieldnames
                ((λ e, cells (DistinctAuthors.asdict e)) <$> s2))
    ∧ (500 < n →
       dict_get fs' "sample_mainauthor_500.json"
       = Some (JsonFile (DistinctAuthors.asdict <$> s1))
       ∧ dict_get fs' "sample_mainauthor_500.csv"
         = Some (CsvFile DistinctAuthors.fieldnames
                   ((λ e, cells (DistinctAuthors.asdict e)) <$> s1)))
    ∧ (n ≤ 500 →
       ∀ k, k ∈ keys fs'
            ↔ k ∈ keys fs ∨ k = DistinctAuthors.json_name n
              ∨ k = DistinctAuthors.csv_name n)
    ∧ (∀ k, k ∉ [DistinctAuthors.json_name (Z.min 500 n);
                 DistinctAuthors.csv_name (Z.min 500 n);
                 DistinctAuthors.json_name (Z.min 2000 n);
                 DistinctAuthors.csv_name (Z.min 2000 n)] →
            dict_get fs' k = dict_get fs k).
Proof.
  intros Hfetch Hne n.
  destruct (DistinctAuthors_main_run round_quota post fuel strip all_entries
              lines fs Hfetch Hne)
    as (s1 & g1 & s2 & g2 & Hs1 & Hs2 & Hmain).
  destruct DistinctAuthors_names as (Hj & Hc & Hjc).
  destruct (two_rounds_files DistinctAuthors.asdict DistinctAuthors.fieldnames
              (λ e, cells (DistinctAuthors.asdict e))
              DistinctAuthors.json_name DistinctAuthors.csv_name Hj Hc Hjc
              (Z.min 500 n) (Z.min 2000 n) s1 s2 fs)
    as (Hj2 & Hc2 & H1 & Hother & Hkeys).
  eexists s1, g1, s2, g2, _, _. split_and!; [exact Hs1|exact Hs2|exact Hmain|..].
  - exact Hj2.
  - exact Hc2.
  - intros Hn. assert (Z.min 500 n = 500) as Hmin by lia.
    assert (DistinctAuthors.json_name (Z.min 500 n)
            = "sample_mainauthor_500.json") as <- by (by rewrite Hmin).
    assert (DistinctAuthors.csv_name (Z.min 500 n)
            = "sample_mainauthor_500.csv") as <- by (by rewrite Hmin).
    apply H1. lia.
  - intros Hn k. etrans; [apply Hkeys|].
    assert (Z.min 500 n = n) as -> by lia.
    assert (Z.min 2000 n = n) as -> by lia.
    rewrite !elem_of_cons, elem_of_nil. tauto.
  - exact Hother.
Qed.

Lemma main_sample_files_diverse_witness :
  ∃ fs',
    (DistinctAuthors.main id exact_round_quota two_pages 2 []).1.2 = fs'
    ∧ ∀ k, k ∈ keys fs'
           ↔ k ∈ keys ([] : dict file) ∨ k = "sample_mainauthor_2.json"
             ∨ k = "sample_mainauthor_2.csv".
Proof.
  destruct (main_sample_files_diverse id exact_round_quota two_pages 2
              [{| DistinctAuthors.entry_id := Some "e1";
                  DistinctAuthors.upload_id := Some "u1";
                  DistinctAuthors.mainfile := Some "mol.out";
                  DistinctAuthors.main_author := None;
                  DistinctAuthors.system := "molecule";
                  DistinctAuthors.structural_type := Some "molecule" |};
               {| DistinctAuthors.entry_id := Some "e2";
                  DistinctAuthors.upload_id := None;
                  DistinctAuthors.mainfile := None;
                  DistinctAuthors.main_author := Some " A. Author ";
                  DistinctAuthors.system := "unknown";
                  DistinctAuthors.structural_type := None |}]
              [InfoFetching; PageLine 1 2 1; PageLine 2 1 2; InfoDone 2]
              [] eq_refl ltac:(discriminate))
    as (s1 & g1 & s2 & g2 & fs' & out & _ & _ & Hmain & _ & _ & _ & Hkeys & _).
  exists fs'. split; [by rewrite Hmain|]. apply Hkeys. cbn. lia.
Defined.

(** ** [main] when the fetch fails or finds nothing *)

Lemma concat_all_nil {A} (ls : list (list A)) :
  Forall (λ l, l = []) ls → concat ls = [].
Proof. induction 1 as [|l ls -> _ IH]; [done|]. by cbn. Qed.

Lemma nothing_kept {R} (from_api_result : raw_hit → outcome R)
    (rs : list response) :
  (∀ d, hit_entry_id d = None → kept from_api_result d = None) →
  Forall (λ resp, Forall (λ d, hit_entry_id d = None) (data resp)) rs →
  concat ((λ resp, omap (kept from_api_result) (data resp)) <$> rs) = [].
Proof.
  intros Hkept Hall. apply concat_all_nil, Forall_fmap.
  eapply Forall_impl; [exact Hall|]. cbn. intros resp Hresp.
  induction Hresp as [|d hits Hd _ IH]; [done|]. cbn.
  by rewrite (Hkept d Hd).
Qed.

Section main_stops.
Context `{PyRandom} (round_quota : Z → Z → Z → Z).
Context (post : nat → option string → response) (fuel : nat).

Lemma Script_main_raises e lines fs :
  Script.fetch_all_orca_entries post fuel = (Raise e, lines) →
  Script.main round_quota post fuel fs = (Raise e, fs, Fetching <$> lines).
Proof.
  intros Hfetch. unfold Script.main, mbind, io_mbind, io_bind, fetched.
  by rewrite Hfetch.
Qed.

Lemma DistinctAuthors_main_raises strip e lines fs :
  DistinctAuthors.fetch_all_entries strip post fuel = (Raise e, lines) →
  DistinctAuthors.main strip round_quota post fuel fs
  = (Raise e, fs, Fetching <$> lines).
Proof.
  intros Hfetch. unfold DistinctAuthors.main, mbind, io_mbind, io_bind, fetched.
  by rewrite Hfetch.
Qed.

Lemma Script_main_empty lines fs :
  Script.fetch_all_orca_entries post fuel = (Return [], lines) →
  Script.main round_quota post fuel fs
  = (Return (), fs, (Fetching <$> lines) ++ [ErrorNoEntries]).
Proof.
  intros Hfetch. unfold Script.main, mbind, io_mbind, io_bind, fetched.
  by rewrite Hfetch.
Qed.

Lemma DistinctAuthors_main_empty strip lines fs :
  DistinctAuthors.fetch_all_entries strip post fuel = (Return [], lines) →
  DistinctAuthors.main strip round_quota post fuel fs
  = (Return (), fs, (Fetching <$> lines) ++ [ErrorNoEntries]).
Proof.
  intros Hfetch. unfold DistinctAuthors.main, mbind, io_mbind, io_bind, fetched.
  by rewrite Hfetch.
Qed.
End main_stops.

(** X15: when the server refuses a request (status 4xx or 5xx) after any
    number of pages, [main] of either script ends in the HTTP error: it
    writes no file, draws no sample and prints nothing after the two error
    lines of the fetch. *)
Theorem main_aborts_on_http_error `{PyRandom} (strip : string → string)
    (round_quota : Z → Z → Z → Z)
    (post : nat → option string → response) (rs : list response)
    (r : response) (k fuel : nat) (fs : dict file) :
  responses post 0 None (S k) = rs ++ [r] → Forall continues rs →
  refused r → (k < fuel)%nat →
  Script.main round_quota post fuel fs
  = (Raise HTTPError, fs,
     Fetching <$> [InfoFetching]
                  ++ page_lines Script.from_api_result (data <$> rs) 0 0
                  ++ [ErrorStatus (status_code r); ErrorBody])
  ∧ DistinctAuthors.main strip round_quota post fuel fs
    = (Raise HTTPError, fs,
       Fetching <$> [InfoFetching]
                    ++ page_lines (DistinctAuthors.from_api_result strip)
                         (data <$> rs) 0 0
                    ++ [ErrorStatus (status_code r); ErrorBody]).
Proof.
  intros Hrs Hcont Href Hfuel. split.
  - apply Script_main_raises.
    apply (fetch_pages_run Script.from_api_result Script_only_KeyError post
             rs r k fuel 0%nat None [] 0 [InfoFetching] Hrs Hcont Hfuel).
    exact Href.
  - apply DistinctAuthors_main_raises.
    apply (fetch_pages_run (DistinctAuthors.from_api_result strip)
             (DistinctAuthors_only_KeyError strip) post
             rs r k fuel 0%nat None [] 0 [InfoFetching] Hrs Hcont Hfuel).
    exact Href.
Qed.

Lemma main_aborts_on_http_error_witness :
  Script.main exact_round_quota fails_on_second 2 []
  = (Raise HTTPError, [],
     [Fetching InfoFetching; Fetching (PageLine 1 1 1);
      Fetching (ErrorStatus 502); Fetching ErrorBody]).
Proof.
  assert (responses fails_on_second 0 None 2
          = [Response 200 [good_hit] (Some "e1")] ++ [Response 502 [] None])
    as H1 by reflexivity.
  assert (Forall continues [Response 200 [good_hit] (Some "e1")]) as H2.
  { repeat constructor; [unfold refused; cbn; lia | done | done]. }
  assert (refused (Response 502 [] None)) as H3 by (unfold refused; cbn; lia).
  assert (1 < 2)%nat as H4 by lia.
  exact (proj1 (main_aborts_on_http_error id exact_round_quota fails_on_second
                  _ _ 1 2 [] H1 H2 H3 H4)).
Defined.

(** X16: when the fetch ends normally but no hit of any page has the key
    [entry_id] (in particular when the first page has no hits), [main] of
    either script prints the error line after the lines of the fetch and
    returns normally: no sample is drawn, no file is written and the final
    line is not printed. *)
Theorem main_without_entries `{PyRandom} (strip : string → string)
    (round_quota : Z → Z → Z → Z)
    (post : nat → option string → response) (rs : list response)
    (r : response) (k fuel : nat) (fs : dict file) :
  responses post 0 None (S k) = rs ++ [r] → Forall continues rs →
  last_page r → (k < fuel)%nat →
  Forall (λ resp, Forall (λ d, hit_entry_id d = None) (data resp))
    (rs ++ [r]) →
  let pages := filter (λ hits, hits ≠ []) (data <$> rs ++ [r]) in
  Script.main round_quota post fuel fs
  = (Return (), fs,
     (Fetching <$> [InfoFetching]
                   ++ page_lines Script.from_api_result pages 0 0
                   ++ [InfoDone 0])
     ++ [ErrorNoEntries])
  ∧ DistinctAuthors.main strip round_quota post fuel fs
    = (Return (), fs,
       (Fetching <$> [InfoFetching]
                     ++ page_lines (DistinctAuthors.from_api_result strip)
                          pages 0 0
                     ++ [InfoDone 0])
       ++ [ErrorNoEntries]).
Proof.
  intros Hrs Hcont Hlast Hfuel Hnone pages. split.
  - apply Script_main_empty.
    destruct (fetch_pages_run Script.from_api_result Script_only_KeyError post
                rs r k fuel 0%nat None [] 0 [InfoFetching] Hrs Hcont Hfuel)
      as [Hrun _].
    unfold Script.fetch_all_orca_entries, fetch_all. rewrite (Hrun Hlast).
    rewrite nothing_kept; [done| |done].
    intros d Hd. unfold kept, Script.from_api_result. by rewrite Hd.
  - apply DistinctAuthors_main_empty.
    destruct (fetch_pages_run (DistinctAuthors.from_api_result strip)
                (DistinctAuthors_only_KeyError strip) post
                rs r k fuel 0%nat None [] 0 [InfoFetching] Hrs Hcont Hfuel)
      as [Hrun _].
    unfold DistinctAuthors.fetch_all_entries, fetch_all. rewrite (Hrun Hlast).
    rewrite nothing_kept; [done| |done].
    intros d Hd. unfold kept, DistinctAuthors.from_api_result. by rewrite Hd.
Qed.

Lemma main_without_entries_witness :
  Script.main exact_round_quota (one_page [hit_without_id]) 1 []
  = (Return (), [],
     [Fetching InfoFetching; Fetching (PageLine 1 1 0);
      Fetching (InfoDone 0); ErrorNoEntries]).
Proof.
  assert (responses (one_page [hit_without_id]) 0 None 1
          = [] ++ [Response 200 [hit_without_id] None]) as H1 by reflexivity.
  assert (Forall continues []) as H2 by constructor.
  assert (last_page (Response 200 [hit_without_id] None)) as H3.
  { split; [unfold refused; cbn; lia | right; left; done]. }
  assert (0 < 1)%nat as H4 by lia.
  assert (Forall (λ resp, Forall (λ d, hit_entry_id d = None) (data resp))
            ([] ++ [Response 200 [hit_without_id] None])) as H5
    by (repeat constructor).
  exact (proj1 (main_without_entries id exact_round_quota
                  (one_page [hit_without_id]) _ _ 0 1 [] H1 H2 H3 H4 H5)).
Defined.

(** ** The sample is a new list *)

Section store_fresh.
Context {E : Type} `{EqDecision E}.
Context {K : Type} `{Countable K}.
Context (entry_id : E → K) (system : E → string).
Context (main_author : E → option string).
Context `{PyRandom}.
Variable round_quota : Z → Z → Z → Z.

Lemma store_bind_inv {A B} (m : storeM E A) (f : A → storeM E B) h b h' :
  (m ≫= f) h = (Return b, h') →
  ∃ a h1, m h = (Return a, h1) ∧ f a h1 = (Return b, h').
Proof.
  rewrite store_bind_eq. destruct (m h) as [[a|e|] h1]; [eauto|done..].
Qed.

Lemma contents_inv (p : loc) (h h1 : list (list E)) l :
  contents p h = (Return l, h1) → h1 = h ∧ h !! p = Some l.
Proof. unfold contents. destruct (h !! p); [|done]. by intros [= -> ->]. Qed.

Lemma pure_step_inv {A} (o : outcome A) (h h1 : list (list E)) a :
  pure_step o h = (Return a, h1) → h1 = h ∧ o = Return a.
Proof. unfold pure_step. by intros [= -> ->]. Qed.

Lemma reconcile_in_store_fresh (entries sel : loc) target_size g h r g' h' :
  reconcile_in_store entry_id entries target_size sel g h
  = (Return (r, g'), h') →
  (sel ≤ r)%nat.
Proof.
  unfold reconcile_in_store.
  intros (l & h1 & [-> Hsel]%contents_inv & Hrun)%store_bind_inv.
  apply lookup_lt_Some in Hsel. revert Hrun. cbv zeta. case_decide.
  - intros ([trimmed g1] & h1 & [-> _]%pure_step_inv & Hrun)%store_bind_inv.
    apply store_bind_inv in Hrun as (p & h2 & Hnew & Hret).
    unfold new_list in Hnew. injection Hnew as <- <-.
    injection Hret as <- _ _. lia.
  - case_decide; [|by intros [= <- _ _]].
    intros (es & h1 & _ & Hrun)%store_bind_inv. revert Hrun. case_decide.
    + intros ([extra g1] & h2 & _ & Hrun)%store_bind_inv.
      apply store_bind_inv in Hrun as (? & h3 & _ & Hret).
      by injection Hret as <- _ _.
    + by intros [= <- _ _].
Qed.

Lemma stratified_sample_in_store_fresh (entries : loc) target_size g h r g'
    out h' :
  stratified_sample_in_store entry_id system round_quota entries target_size
    g h
  = (Return (r, g', out), h') →
  (length h ≤ r)%nat.
Proof.
  unfold stratified_sample_in_store.
  intros (es & h1 & [-> _]%contents_inv & Hrun)%store_bind_inv.
  apply store_bind_inv in Hrun as ([t out1] & h1 & [-> _]%pure_step_inv & Hrun).
  apply store_bind_inv in Hrun as ([[bl alloc] systems] & h1 & Ha & Hrun).
  rewrite allocate_in_store_spec in Ha. injection Ha as _ <-.
  apply store_bind_inv in Hrun as (sel & h2 & Hnew & Hrun).
  unfold new_list in Hnew. injection Hnew as <- <-.
  apply store_bind_inv in Hrun as (g1 & h3 & _ & Hrun).
  apply store_bind_inv in Hrun as ([r' g2] & h4 & Hrec & Hret).
  apply reconcile_in_store_fresh in Hrec. injection Hret as <- _ _ _.
  rewrite length_app in Hrec. lia.
Qed.

Lemma main_author_diverse_stratified_sample_in_store_fresh (entries : loc)
    target_size g h r g' out h' :
  main_author_diverse_stratified_sample_in_store entry_id system main_author
    round_quota entries target_size g h
  = (Return (r, g', out), h') →
  (length h ≤ r)%nat.
Proof.
  unfold main_author_diverse_stratified_sample_in_store.
  intros (es & h1 & [-> _]%contents_inv & Hrun)%store_bind_inv.
  apply store_bind_inv in Hrun as ([t out1] & h1 & [-> _]%pure_step_inv & Hrun).
  apply store_bind_inv in Hrun as ([[bl alloc] systems] & h1 & Ha & Hrun).
  rewrite allocate_in_store_spec in Ha. injection Ha as _ <-.
  apply store_bind_inv in Hrun as (sel & h2 & Hnew & Hrun).
  unfold new_list in Hnew. injection Hnew as <- <-.
  apply store_bind_inv in Hrun as ([used g1] & h3 & _ & Hrun).
  apply store_bind_inv in Hrun as ([r' g2] & h4 & Hrec & Hret).
  apply reconcile_in_store_fresh in Hrec. injection Hret as <- _ _ _.
  rewrite length_app in Hrec. lia.
Qed.
End store_fresh.

(** X17: the list either sampling function returns is a list object made
    during the call: it is none of the lists that existed before, and in
    particular not the list of entries that was passed in.  A caller may
    therefore change the sample in place without changing the
    population. *)
Theorem sample_is_a_new_list `{PyRandom} (round_quota : Z → Z → Z → Z)
    (h : list (list Script.RepoEntry))
    (h' : list (list DistinctAuthors.RepoEntry))
    (entries entries' : loc) (population : list Script.RepoEntry)
    (population' : list DistinctAuthors.RepoEntry)
    (target_size : Z) (g : rng_state)
    (r r' : loc) (g1 g1' : rng_state) (out out' : list notice) :
  h !! entries = Some population → h' !! entries' = Some population' →
  (stratified_sample_in_store Script.entry_id Script.system round_quota
     entries target_size g h).1
  = Return (r, g1, out) →
  (main_author_diverse_stratified_sample_in_store DistinctAuthors.entry_id
     DistinctAuthors.system DistinctAuthors.main_author round_quota entries'
     target_size g h').1
  = Return (r', g1', out') →
  (r ≠ entries ∧ ∀ q, is_Some (h !! q) → q ≠ r)
  ∧ (r' ≠ entries' ∧ ∀ q, is_Some (h' !! q) → q ≠ r').
Proof.
  intros Hes Hes' Hrun Hrun'.
  assert (length h ≤ r)%nat as Hr.
  { destruct (stratified_sample_in_store _ _ _ _ _ _ h) as [o hr] eqn:Heq.
    cbn in Hrun. subst o.
    by eapply stratified_sample_in_store_fresh. }
  assert (length h' ≤ r')%nat as Hr'.
  { destruct (main_author_diverse_stratified_sample_in_store _ _ _ _ _ _ _ h')
      as [o hr] eqn:Heq.
    cbn in Hrun'. subst o.
    by eapply main_author_diverse_stratified_sample_in_store_fresh. }
  apply lookup_lt_Some in Hes, Hes'.
  split; (split; [lia|]); intros q [l Hq]; apply lookup_lt_Some in Hq; lia.
Qed.

Lemma sample_is_a_new_list_witness :
  (5 ≠ 1 ∧ ∀ q, is_Some (callers_store !! q) → q ≠ 5)%nat
  ∧ (4 ≠ 0 ∧ ∀ q, is_Some ([authored_population] !! q) → q ≠ 4)%nat.
Proof.
  assert (callers_store !! 1%nat = Some orca_population) as H1 by reflexivity.
  assert ([authored_population] !! 0%nat = Some authored_population) as H2
    by reflexivity.
  assert ((stratified_sample_in_store Script.entry_id Script.system
             exact_round_quota 1%nat 3 (Random 5) callers_store).1
          = Return (5%nat, 695785320, [])) as H3 by (vm_compute; reflexivity).
  assert ((main_author_diverse_stratified_sample_in_store
             DistinctAuthors.entry_id DistinctAuthors.system
             DistinctAuthors.main_author exact_round_quota 0%nat 3 (Random 5)
             [authored_population]).1
          = Return (4%nat, 668008486, [])) as H4 by (vm_compute; reflexivity).
  exact (sample_is_a_new_list exact_round_quota callers_store
           [authored_population] 1%nat 0%nat orca_population
           authored_population 3 (Random 5) _ _ _ _ _ _ H1 H2 H3 H4).
Defined.

(** ** Asking for everything *)

(** X18: when the requested size is at least the number of entries (and
    the entries have distinct ids), both sampling functions return the
    whole population in some order; they print the reduction warning
    exactly when the requested size is larger than the population. *)
Theorem whole_population_sampled `{PyRandom} (round_quota : Z → Z → Z → Z)
    (population : list Script.RepoEntry)
    (population' : list DistinctAuthors.RepoEntry)
    (target_size : Z) (g : rng_state) :
  NoDup (Script.entry_id <$> population) →
  NoDup (DistinctAuthors.entry_id <$> population') →
  population ≠ [] → population' ≠ [] →
  len population ≤ target_size → len population' ≤ target_size →
  (∃ sample g',
     Script.stratified_sample round_quota population target_size g
     = Return (sample, g',
               if decide (len population < target_size)
               then [WarnReduced target_size (len population)] else [])
     ∧ sample ≡ₚ population)
  ∧ (∃ sample g',
       DistinctAuthors.main_author_diverse_stratified_sample round_quota
         population' target_size g
       = Return (sample, g',
                 if decide (len population' < target_size)
                 then [WarnReduced target_size (len population')] else [])
       ∧ sample ≡ₚ population').
Proof.
  intros Hnd Hnd' Hne Hne' Ht Ht'.
  assert (0 < len population)
    by (destruct population; [done | cbn [length]; lia]).
  assert (0 < len population')
    by (destruct population'; [done | cbn [length]; lia]).
  split.
  - destruct (stratified_sample_spec Script.entry_id Script.system round_quota
                population target_size g Hnd Hne)
      as (sample & g' & out & Hrun & Hsub & Hlen); [lia|].
    destruct (stratified_sample_guard Script.entry_id Script.system
                round_quota population target_size g) as (_ & _ & _ & Hout).
    destruct (Hout ltac:(lia) Hne) as (sample0 & g0 & out0 & Hrun0 & -> & _).
    rewrite Hrun in Hrun0. injection Hrun0 as <- <- ->.
    exists sample, g'. split; [exact Hrun|].
    apply submseteq_length_Permutation; [done|lia].
  - destruct (sample_with_selection_spec DistinctAuthors.entry_id
                DistinctAuthors.system DistinctAuthors.main_author round_quota
                true population' target_size g Hnd' Hne')
      as (sample & g' & out & Hrun & Hsub & Hlen); [lia|].
    destruct (sample_with_selection_guard DistinctAuthors.entry_id
                DistinctAuthors.system DistinctAuthors.main_author round_quota
                true population' target_size g) as (_ & _ & _ & Hout).
    destruct (Hout ltac:(lia) Hne') as (sample0 & g0 & out0 & Hrun0 & -> & _).
    rewrite Hrun in Hrun0. injection Hrun0 as <- <- ->.
    exists sample, g'. split; [exact Hrun|].
    apply submseteq_length_Permutation; [done|lia].
Qed.

Lemma whole_population_sampled_witness :
  (∃ sample g',
     Script.stratified_sample exact_round_quota orca_population 7 (Random 0)
     = Return (sample, g', [WarnReduced 7 5])
     ∧ sample ≡ₚ orca_population)
  ∧ (∃ sample g',
       DistinctAuthors.main_author_diverse_stratified_sample exact_round_quota
         authored_population 7 (Random 0)
       = Return (sample, g', [WarnReduced 7 5])
       ∧ sample ≡ₚ authored_population).
Proof.
  assert (NoDup (Script.entry_id <$> orca_population)) as H1
    by (apply (bool_decide_unpack _); vm_compute; exact I).
  assert (NoDup (DistinctAuthors.entry_id <$> authored_population)) as H2
    by (apply (bool_decide_unpack _); vm_compute; exact I).
  assert (orca_population ≠ []) as H3 by done.
  assert (authored_population ≠ []) as H4 by done.
  assert (len orca_population ≤ 7) as H5 by (vm_compute; discriminate).
  assert (len authored_population ≤ 7) as H6 by (vm_compute; discriminate).
  exact (whole_population_sampled exact_round_quota orca_population
           authored_population 7 (Random 0) H1 H2 H3 H4 H5 H6).
Defined.

(** ** How many entries each stratum contributes *)

Section stratum_counts.
Context {E : Type} `{EqDecision E} {K : Type} `{Countable K}.
Context (entry_id : E → K) (system : E → string).
Context (main_author : E → option string) `{PyRandom}.
Context (round_quota : Z → Z → Z → Z).
Implicit Types (entries selected : list E) (g : rng_state) (alloc : dict Z).

Lemma labelled_filter (l : list E) k s :
  Forall (λ e, system e = k) l →
  len (filter (λ e, system e = s) l) = if decide (k = s) then len l else 0.
Proof.
  intros Hl. case_decide as Hk.
  - subst. by rewrite filter_all.
  - rewrite filter_none; [done|].
    eapply Forall_impl; [exact Hl|]. cbn. congruence.
Qed.

Lemma draw_samples_counts alloc (items : dict (list E)) selected g
    selected' g' s :
  NoDup (keys items) →
  Forall (λ kb, Forall (λ e, system e = kb.1) kb.2) items →
  draw_samples alloc items selected g = Return (selected', g') →
  len (filter (λ e, system e = s) selected')
  = len (filter (λ e, system e = s) selected)
    + match dict_get items s with
      | Some bucket =>
          Z.max 0 (Z.min (default 0 (dict_get alloc s)) (len bucket))
      | None => 0
      end.
Proof.
  revert selected g. induction items as [|[k bucket] items IH];
    intros selected g Hnd Hlab; cbn [draw_samples dict_get].
  - intros [= <- _]. lia.
  - unfold keys in Hnd. cbn in Hnd. apply NoDup_cons in Hnd as [Hk Hnd].
    apply Forall_cons in Hlab as [Hb Hlab]. cbn in Hb.
    assert (k = s → dict_get items s = None) as Hnone.
    { intros <-. by apply dict_get_None. }
    cbv zeta. case_decide as Hq.
    + intros Hrun. rewrite (IH _ _ Hnd Hlab Hrun).
      case_decide as Hks; [|done]. rewrite (Hnone Hks). subst. lia.
    + match goal with |- context [rng_sample g bucket ?q] =>
        destruct (rng_sample_Return g bucket q)
          as (drawn & g1 & -> & Hsub & Hlen); [lia|] end.
      cbn. intros Hrun. rewrite (IH _ _ Hnd Hlab Hrun).
      rewrite filter_app, length_app, Nat2Z.inj_add.
      rewrite (labelled_filter drawn k s)
        by (by eapply submseteq_Forall).
      case_decide as Hks; [|lia]. rewrite (Hnone Hks). subst. lia.
Qed.

Lemma select_system_count need bucket (st : selection (E := E)) :
  NoDup bucket → 0 < need →
  ∃ filled,
    selected (select_system main_author true need bucket st)
    = selected st ++ filled
    ∧ filled ⊆+ bucket ∧ len filled = Z.min need (len bucket).
Proof.
  intros Hnd Hneed.
  destruct (select_system_spec main_author true need bucket st)
    as (filled & picks & Heq & Hsub & _).
  exists filled. rewrite Heq. split_and!; [done..|].
  apply (f_equal selected) in Heq. cbn [selected] in Heq.
  unfold select_system in Heq.
  pose proof (rng_shuffle_perm (rng st) bucket) as Hperm.
  destruct (rng_shuffle (rng st) bucket) as [l g1]. cbn [fst] in Hperm.
  assert (NoDup l) as Hl by (by rewrite Hperm).
  assert (len l = len bucket) as Hlen by (by rewrite Hperm).
  destruct (first_pass_spec main_author need l [] (used_authors st))
    as (picks' & Hss & _ & Hpicks & _).
  pose proof (first_pass_length main_author need l [] (used_authors st))
    as Hle.
  destruct (first_pass main_author need l [] (used_authors st))
    as [ss used]. cbn [fst snd length] in Hss, Hle. cbn [app] in Hss. subst ss.
  cbn [selected] in Heq. apply app_inv_head in Heq. subst filled.
  assert (NoDup picks') as Hnp by (by eapply sublist_NoDup).
  assert (∀ x, x ∈ picks' → x ∈ l) as Hin
    by (intros x Hx; by eapply elem_of_sublist).
  pose proof (complement_length l picks' Hl Hnp Hin) as Hc.
  case_decide.
  - rewrite second_pass_length by (done || lia). lia.
  - apply sublist_length in Hpicks. lia.
Qed.

Lemma selection_pass_counts (buckets : dict (list E)) alloc systems
    (st st' : selection (E := E)) s :
  NoDup systems →
  (∀ k bucket, dict_get buckets k = Some bucket →
     NoDup bucket ∧ Forall (λ e, system e = k) bucket) →
  selection_pass main_author true buckets alloc systems st = Return st' →
  len (filter (λ e, system e = s) (selected st'))
  = len (filter (λ e, system e = s) (selected st))
    + (if decide (s ∈ systems)
       then Z.max 0 (Z.min (default 0 (dict_get alloc s))
                       (len (bucket_of buckets s)))
       else 0).
Proof.
  intros Hnd Hb. revert st. induction systems as [|k systems IH]; intros st;
    cbn [selection_pass].
  - intros [= <-]. rewrite decide_False by apply not_elem_of_nil. lia.
  - apply NoDup_cons in Hnd as [Hk Hnd].
    intros (bucket & Hitem & Hrun)%bind_Return.
    unfold dict_item in Hitem.
    destruct (dict_get buckets k) as [b|] eqn:Hget; [|done].
    injection Hitem as ->. destruct (Hb k bucket Hget) as [Hndb Hlab].
    assert ((if decide (s ∈ k :: systems)
             then Z.max 0 (Z.min (default 0 (dict_get alloc s))
                             (len (bucket_of buckets s)))
             else 0)
            = (if decide (k = s)
               then Z.max 0 (Z.min (default 0 (dict_get alloc k))
                               (len bucket))
               else 0)
              + (if decide (s ∈ systems)
                 then Z.max 0 (Z.min (default 0 (dict_get alloc s))
                                 (len (bucket_of buckets s)))
                 else 0)) as ->.
    { destruct (decide (k = s)) as [->|Hks].
      - rewrite decide_True by left. rewrite decide_False by done.
        unfold bucket_of. rewrite Hget. cbn. lia.
      - destruct (decide (s ∈ systems)) as [Hin|Hin].
        + rewrite decide_True by (by right). lia.
        + rewrite decide_False; [lia|].
          intros [?|?]%elem_of_cons; congruence. }
    revert Hrun.
    destruct (decide (default 0 (dict_get alloc k) ≤ 0 ∨ bucket = []))
      as [Hskip|Hskip].
    + intros Hrun. rewrite (IH Hnd _ Hrun).
      destruct (decide (k = s)); [|lia].
      destruct Hskip as [?| ->]; [lia | cbn [length]; lia].
    + intros Hrun. rewrite (IH Hnd _ Hrun).
      destruct (select_system_count (default 0 (dict_get alloc k)) bucket st
                  Hndb) as (filled & -> & Hsub & Hlen); [lia|].
      rewrite filter_app, length_app, Nat2Z.inj_add.
      rewrite (labelled_filter filled k s) by (by eapply submseteq_Forall).
      destruct (decide (k = s)); lia.
Qed.
End stratum_counts.

Lemma quota_nonneg systems alloc s :
  alloc_ok systems alloc → 0 ≤ default 0 (dict_get alloc s).
Proof.
  intros [_ _ Hge]. destruct (dict_get alloc s) as [v|] eqn:Hv; [|done].
  apply (dict_get_Forall (λ v, 1 ≤ v)) in Hv; [cbn; lia | done].
Qed.

Lemma reconcile_exact {E K} `{Countable K} `{PyRandom} (entry_id : E → K)
    (entries selected : list E) target_size g :
  len selected = target_size →
  reconcile entry_id entries target_size selected g = Return (selected, g).
Proof.
  intros Hlen. unfold reconcile. cbv zeta.
  rewrite decide_False by lia. by rewrite decide_False by lia.
Qed.

(** X19: in [stratified_sample], the draw loop takes from each stratum
    exactly as many entries as its quota allows and the stratum has:
    before the global trim / top-up, the number of selected entries with
    label [s] is the smaller of the quota of [s] and the number of entries
    of the population with label [s] (none for a label that is no
    stratum).  When these numbers add up to the effective target, the
    selection is returned as it is. *)
Theorem stratum_share_drawn `{PyRandom} (round_quota : Z → Z → Z → Z)
    (population : list Script.RepoEntry) (target_size : Z) (g : rng_state) :
  population ≠ [] → 1 ≤ target_size →
  ∃ alloc selected g' out,
    allocate Script.system round_quota population
      (Z.min target_size (len population))
    = Return (bucket_entries Script.system population, alloc,
              systems_sorted (bucket_entries Script.system population))
    ∧ draw_samples alloc (bucket_entries Script.system population) [] g
      = Return (selected, g')
    ∧ (∀ s, len (filter (λ e, Script.system e = s) selected)
            = Z.min (default 0 (dict_get alloc s))
                (len (filter (λ e, Script.system e = s) population)))
    ∧ Script.stratified_sample round_quota population target_size g
      = ('(sample, g) ← reconcile Script.entry_id population
                          (Z.min target_size (len population)) selected g';
         Return (sample, g, out))
    ∧ (len selected = Z.min target_size (len population) →
       Script.stratified_sample round_quota population target_size g
       = Return (selected, g', out)).
Proof.
  intros Hne Ht.
  destruct (stratified_sample_selected Script.system round_quota
              population target_size g Hne Ht)
    as (out & alloc & selected & g' & Hc & Ha & Hd & _).
  destruct (allocate_spec Script.system round_quota population
              (Z.min target_size (len population)) Hne)
    as (alloc0 & Ha0 & Hok & _).
  assert (alloc0 = alloc) as -> by congruence.
  destruct (bucket_entries_spec Script.system population)
    as [Hnd _ Hnonempty Hsys].
  assert (Script.stratified_sample round_quota population target_size g
          = ('(sample, g) ← reconcile Script.entry_id population
                              (Z.min target_size (len population))
                              selected g';
             Return (sample, g, out))) as Hrun.
  { unfold Script.stratified_sample, stratified_sample.
    rewrite Hc. cbn. rewrite Ha. cbn. by rewrite Hd. }
  exists alloc, selected, g', out. split_and!; [done..| |done|].
  - intros s.
    rewrite (draw_samples_counts Script.system alloc _ [] g selected g' s
               Hnd Hsys Hd).
    rewrite bucket_entries_get, filter_nil. cbn [length].
    pose proof (quota_nonneg _ alloc s Hok) as Hq.
    destruct (filter (λ e, Script.system e = s) population) as [|e b] eqn:Hf.
    + cbn [length]. lia.
    + assert (s ∈ systems_sorted (bucket_entries Script.system population))
        as Hs.
      { rewrite systems_sorted_perm. apply dict_get_is_Some.
        rewrite bucket_entries_get, Hf. eauto. }
      destruct (alloc_ok_item _ _ s Hok Hs) as (v & -> & _ & Hv).
      cbn [default id]. lia.
  - intros Hlen. rewrite Hrun, reconcile_exact by done. done.
Qed.

Lemma stratum_share_drawn_witness :
  ∃ alloc selected g' out,
    allocate Script.system exact_round_quota orca_population
      (Z.min 3 (len orca_population))
    = Return (bucket_entries Script.system orca_population, alloc,
              systems_sorted (bucket_entries Script.system orca_population))
    ∧ draw_samples alloc (bucket_entries Script.system orca_population) []
        (Random 0)
      = Return (selected, g')
    ∧ (∀ s, len (filter (λ e, Script.system e = s) selected)
            = Z.min (default 0 (dict_get alloc s))
                (len (filter (λ e, Script.system e = s) orca_population)))
    ∧ Script.stratified_sample exact_round_quota orca_population 3 (Random 0)
      = ('(sample, g) ← reconcile Script.entry_id orca_population
                          (Z.min 3 (len orca_population)) selected g';
         Return (sample, g, out))
    ∧ (len selected = Z.min 3 (len orca_population) →
       Script.stratified_sample exact_round_quota orca_population 3 (Random 0)
       = Return (selected, g', out)).
Proof.
  assert (orca_population ≠ []) as H1 by done.
  assert (1 ≤ 3) as H2 by lia.
  exact (stratum_share_drawn exact_round_quota orca_population 3 (Random 0)
           H1 H2).
Defined.

(** X20: in [main_author_diverse_stratified_sample], on entries with
    distinct ids, the two passes together take from each stratum exactly as
    many entries as its quota allows and the stratum has: before the global
    trim / top-up, the number of selected entries with label [s] is the
    smaller of the quota of [s] and the number of entries of the population
    with label [s].  When these numbers add up to the effective target, the
    selection is returned as it is. *)
Theorem stratum_share_selected `{PyRandom} (round_quota : Z → Z → Z → Z)
    (population : list DistinctAuthors.RepoEntry) (target_size : Z)
    (g : rng_state) :
  NoDup (DistinctAuthors.entry_id <$> population) →
  population ≠ [] → 1 ≤ target_size →
  ∃ alloc out st,
    allocate DistinctAuthors.system round_quota population
      (Z.min target_size (len population))
    = Return (bucket_entries DistinctAuthors.system population, alloc,
              systems_sorted
                (bucket_entries DistinctAuthors.system population))
    ∧ DistinctAuthors.selection_stage round_quota true population target_size
        g
      = Return (Z.min target_size (len population), out, st)
    ∧ (∀ s, len (filter (λ e, DistinctAuthors.system e = s) (selected st))
            = Z.min (default 0 (dict_get alloc s))
                (len (filter (λ e, DistinctAuthors.system e = s)
                        population)))
    ∧ (len (selected st) = Z.min target_size (len population) →
       DistinctAuthors.main_author_diverse_stratified_sample round_quota
         population target_size g
       = Return (selected st, rng st, out)).
Proof.
  intros Hids Hne Ht.
  assert (NoDup population) as Hndp by (by eapply NoDup_fmap_1).
  destruct (check_target_Return population target_size Hne Ht) as [out Hout].
  destruct (allocate_spec DistinctAuthors.system round_quota population
              (Z.min target_size (len population)) Hne)
    as (alloc & Ha & Hok & _).
  set (buckets := bucket_entries DistinctAuthors.system population) in *.
  destruct (bucket_entries_spec DistinctAuthors.system population)
    as [Hnd _ Hnonempty Hsys]. fold buckets in Hnd, Hnonempty, Hsys.
  destruct (selection_pass_spec DistinctAuthors.main_author true buckets alloc
              (systems_sorted buckets) (Selection [] [] ∅ g) [])
    as (st & Hpass & _).
  { intros s. by rewrite systems_sorted_perm. }
  { done. }
  { split; cbn; [constructor|constructor|set_solver|done]. }
  assert (DistinctAuthors.selection_stage round_quota true population
            target_size g
          = Return (Z.min target_size (len population), out, st)) as Hstage.
  { unfold DistinctAuthors.selection_stage, selection_stage.
    rewrite Hout. cbn. rewrite Ha. cbn. by rewrite Hpass. }
  exists alloc, out, st. split_and!; [done..| |].
  - intros s.
    rewrite (selection_pass_counts DistinctAuthors.system
               DistinctAuthors.main_author buckets alloc
               (systems_sorted buckets) (Selection [] [] ∅ g) st s);
      [| | |exact Hpass].
    + cbn [selected]. rewrite filter_nil. cbn [length].
      unfold bucket_of, buckets. rewrite bucket_entries_get.
      pose proof (quota_nonneg _ alloc s Hok) as Hq.
      destruct (filter (λ e, DistinctAuthors.system e = s) population)
        as [|e b] eqn:Hf.
      * cbn [default length]. case_decide; lia.
      * assert (s ∈ systems_sorted buckets) as Hs.
        { rewrite systems_sorted_perm. apply dict_get_is_Some.
          unfold buckets. rewrite bucket_entries_get, Hf. eauto. }
        rewrite decide_True by done.
        destruct (alloc_ok_item _ _ s Hok Hs) as (v & -> & _ & Hv).
        cbn [default id]. lia.
    + by rewrite systems_sorted_perm.
    + intros k bucket Hk. split.
      * by eapply buckets_NoDup_entries.
      * rewrite Forall_forall in Hsys.
        apply (Hsys (k, bucket)). by apply dict_get_Some_elem.
  - intros Hlen.
    unfold DistinctAuthors.main_author_diverse_stratified_sample,
      main_author_diverse_stratified_sample, sample_with_selection.
    unfold DistinctAuthors.selection_stage in Hstage. rewrite Hstage. cbn.
    by rewrite reconcile_exact.
Qed.

Lemma stratum_share_selected_witness :
  ∃ alloc out st,
    allocate DistinctAuthors.system exact_round_quota authored_population
      (Z.min 3 (len authored_population))
    = Return (bucket_entries DistinctAuthors.system authored_population,
              alloc,
              systems_sorted
                (bucket_entries DistinctAuthors.system authored_population))
    ∧ DistinctAuthors.selection_stage exact_round_quota true
        authored_population 3 (Random 0)
      = Return (Z.min 3 (len authored_population), out, st)
    ∧ (∀ s, len (filter (λ e, DistinctAuthors.system e = s) (selected st))
            = Z.min (default 0 (dict_get alloc s))
                (len (filter (λ e, DistinctAuthors.system e = s)
                        authored_population)))
    ∧ (len (selected st) = Z.min 3 (len authored_population) →
       DistinctAuthors.main_author_diverse_stratified_sample
         exact_round_quota authored_population 3 (Random 0)
       = Return (selected st, rng st, out)).
Proof.
  assert (NoDup (DistinctAuthors.entry_id <$> authored_population)) as H1
    by (apply (bool_decide_unpack _); vm_compute; exact I).
  assert (authored_population ≠ []) as H2 by done.
  assert (1 ≤ 3) as H3 by lia.
  exact (stratum_share_selected exact_round_quota authored_population 3
           (Random 0) H1 H2 H3).
Defined.

(** ** The main author of a fetched entry *)

Lemma stripped_nonempty strip s a :
  DistinctAuthors.stripped strip s = Some a → a ≠ "".
Proof.
  unfold DistinctAuthors.stripped. case_decide; [done|]. by intros [= <-].
Qed.

(** X21: [fetch_all_entries] never gives an entry the empty string as its
    main author.  A string that is blank after [strip] gives [None]; of an
    author object the name, else the email, is taken only when it is a
    string that is not blank after [strip], and the fallback is the dump
    of the object, which is assumed not to be empty (the dump of an object
    never is).  An entry without author is thus always marked by [None],
    which is what the first pass of the selection tests. *)
Theorem main_author_never_empty (strip : string → string)
    (post : nat → option string → response) (fuel : nat)
    (entries : list DistinctAuthors.RepoEntry) :
  (∀ n pav d name email dumps,
     d ∈ data (post n pav) →
     hit_main_author d = Some (AuthorObj name email dumps) → dumps ≠ "") →
  (DistinctAuthors.fetch_all_entries strip post fuel).1 = Return entries →
  Forall (λ e, DistinctAuthors.main_author e ≠ Some "") entries.
Proof.
  intros Hdumps Hrun.
  eapply (fetch_pages_Forall (DistinctAuthors.from_api_result strip)
            (DistinctAuthors_only_KeyError strip));
    [|constructor|exact Hrun].
  intros n pav d e Hin. unfold DistinctAuthors.from_api_result.
  destruct (hit_entry_id d) as [i|]; [|done]. intros [= <-]. cbn.
  unfold DistinctAuthors.normalize_main_author.
  destruct (hit_main_author d) as [[s|name email dumps|]|] eqn:Hma; [| |done..].
  - intros Heq. by apply stripped_nonempty in Heq.
  - destruct (name ≫= DistinctAuthors.stripped strip) as [a|] eqn:Hname.
    { destruct name as [s|]; [|done]. cbn in Hname. intros [= ->].
      by apply stripped_nonempty in Hname. }
    destruct (email ≫= DistinctAuthors.stripped strip) as [a|] eqn:Hemail.
    { destruct email as [s|]; [|done]. cbn in Hemail. intros [= ->].
      by apply stripped_nonempty in Hemail. }
    intros [= ->]. by eapply Hdumps.
Qed.

Lemma main_author_never_empty_witness :
  Forall (λ e, DistinctAuthors.main_author e ≠ Some "")
    [{| DistinctAuthors.entry_id := Some "e2";
        DistinctAuthors.upload_id := None;
        DistinctAuthors.mainfile := None;
        DistinctAuthors.main_author := Some " A. Author ";
        DistinctAuthors.system := "unknown";
        DistinctAuthors.structural_type := None |};
     {| DistinctAuthors.entry_id := Some "e3";
        DistinctAuthors.upload_id := None;
        DistinctAuthors.mainfile := None;
        DistinctAuthors.main_author := Some "a@b.c";
        DistinctAuthors.system := "unknown";
        DistinctAuthors.structural_type := None |}].
Proof.
  assert (∀ n pav d name email dumps,
            d ∈ data (one_page [other_hit; object_hit] n pav) →
            hit_main_author d = Some (AuthorObj name email dumps) →
            dumps ≠ "") as H1.
  { intros n pav d name email dumps Hin. cbn in Hin.
    apply elem_of_cons in Hin as [->|Hin]; [done|].
    apply list_elem_of_singleton in Hin as ->. by intros [= _ _ <-]. }
  exact (main_author_never_empty id (one_page [other_hit; object_hit]) 1 _
           H1 eq_refl).
Defined.

(** ** Fewer places than strata *)

Lemma in_blocks_length_ge (counts : list nat) (labels : list string) :
  length counts = length labels → Forall (λ c, 0 < c)%nat counts →
  (length labels ≤ length (in_blocks counts labels))%nat.
Proof.
  unfold in_blocks. revert counts.
  induction labels as [|x labels IH]; intros [|c counts] Hlen Hpos;
    try done; try (cbn; lia).
  apply Forall_cons in Hpos as [Hc Hpos]. cbn.
  rewrite length_app, length_replicate.
  specialize (IH counts ltac:(by injection Hlen) Hpos). lia.
Qed.

Section few_places.
Context {E : Type} `{EqDecision E} {K : Type} `{Countable K}.
Context (entry_id : E → K) (system : E → string).
Context (main_author : E → option string) `{PyRandom}.
Context (round_quota : Z → Z → Z → Z).
Implicit Types (entries selected : list E) (g : rng_state) (alloc : dict Z).

Lemma NoDup_fmap_counts (l : list E) :
  (∀ s, len (filter (λ e, system e = s) l) ≤ 1) → NoDup (system <$> l).
Proof.
  induction l as [|e l IH]; intros Hc; [constructor|]. cbn. constructor.
  - intros (e' & Heq & He')%list_elem_of_fmap.
    specialize (Hc (system e)). rewrite filter_cons_True in Hc by done.
    assert (e' ∈ filter (λ e0, system e0 = system e) l) as Hin
      by (by apply list_elem_of_filter).
    destruct (filter _ l); [by apply elem_of_nil in Hin|].
    cbn [length] in Hc. lia.
  - apply IH. intros s. specialize (Hc s). rewrite filter_cons in Hc.
    destruct (decide (system e = s)); cbn [length] in Hc; lia.
Qed.

Lemma quotas_all_one systems alloc target_size s :
  alloc_ok systems alloc →
  sum_values alloc = Z.max target_size (len systems) →
  target_size ≤ len systems →
  0 ≤ default 0 (dict_get alloc s) ≤ 1.
Proof.
  intros Hok Hsum Ht. split; [by eapply quota_nonneg|].
  pose proof (alloc_ok_length _ _ Hok) as Hlen. destruct Hok as [_ _ Hge].
  destruct (dict_get alloc s) as [v|] eqn:Hv; [|cbn; lia].
  apply (dict_get_Forall (λ v, v = 1)) in Hv; [cbn; lia|].
  apply sum_values_minimal; [done|]. lia.
Qed.

Lemma trimmed_sample entries target_size selected g sample g' :
  target_size < len selected → 0 ≤ target_size →
  reconcile entry_id entries target_size selected g = Return (sample, g') →
  sample ⊆+ selected ∧ len sample = target_size.
Proof.
  intros Hlt Ht. unfold reconcile. rewrite decide_True by done.
  destruct (rng_sample_Return g selected target_size) as (r & g1 & -> & ? & ?);
    [lia|].
  by intros [= <- _].
Qed.

Lemma stratified_sample_few_places entries target_size g :
  1 ≤ target_size → target_size < len (bucket_entries system entries) →
  ∃ sample g' out,
    stratified_sample entry_id system round_quota entries target_size g
    = Return (sample, g', out)
    ∧ len sample = target_size ∧ NoDup (system <$> sample).
Proof.
  intros Ht HL.
  assert (entries ≠ []) as Hne by (intros ->; cbn in HL; lia).
  pose proof (strata_count_le system entries) as HLn.
  destruct (stratified_sample_selected system round_quota entries target_size
              g Hne Ht)
    as (out & alloc & selected & g1 & Hc & Ha & Hd & _).
  destruct (allocate_spec system round_quota entries
              (Z.min target_size (len entries)) Hne)
    as (alloc0 & Ha0 & Hok & Hsum).
  assert (alloc0 = alloc) as -> by congruence.
  rewrite Z.min_l in * by lia.
  destruct (bucket_entries_spec system entries) as [Hnd _ Hnonempty Hsys].
  pose proof (Permutation_length
                (systems_sorted_perm (bucket_entries system entries))) as Hlen.
  unfold keys in Hlen at 1. rewrite length_fmap in Hlen.
  destruct (draw_samples_blocks system alloc (bucket_entries system entries)
              [] g selected g1)
    as (counts & Hcl & Hpos & Hblocks); [| |done|].
  { apply Forall_forall. intros kb Hkb. rewrite Forall_forall in Hnonempty, Hsys.
    split; auto. }
  { intros s Hs. rewrite <- systems_sorted_perm in Hs.
    destruct (alloc_ok_item _ _ s Hok Hs) as (v & -> & _ & Hv). cbn. lia. }
  assert (len (bucket_entries system entries) ≤ len selected) as Hsel.
  { cbn in Hblocks. rewrite <- (length_fmap system selected), Hblocks.
    pose proof (in_blocks_length_ge counts
                  (keys (bucket_entries system entries))) as Hge.
    unfold keys in Hge at 1 2. rewrite length_fmap in Hge.
    specialize (Hge Hcl Hpos). lia. }
  assert (NoDup (system <$> selected)) as Hnds.
  { apply NoDup_fmap_counts. intros s.
    rewrite (draw_samples_counts system alloc _ [] g selected g1 s Hnd Hsys Hd).
    rewrite filter_nil. cbn [length].
    pose proof (quotas_all_one _ alloc target_size s Hok Hsum ltac:(lia)).
    destruct (dict_get (bucket_entries system entries) s); lia. }
  destruct (reconcile_returns entry_id entries target_size selected g1)
    as [[sample g2] Hr]; [lia|].
  destruct (trimmed_sample entries target_size selected g1 sample g2)
    as [Hsub Hlens]; [lia|lia|done|].
  exists sample, g2, out. split_and!; [|done|].
  - unfold stratified_sample.
    rewrite Hc. cbn. rewrite Ha. cbn. rewrite Hd. cbn. by rewrite Hr.
  - by eapply submseteq_NoDup_fmap.
Qed.

Lemma diverse_sample_few_places entries target_size g :
  NoDup entries →
  1 ≤ target_size → target_size < len (bucket_entries system entries) →
  ∃ sample g' out,
    main_author_diverse_stratified_sample entry_id system main_author
      round_quota entries target_size g
    = Return (sample, g', out)
    ∧ len sample = target_size ∧ NoDup (system <$> sample).
Proof.
  intros Hnde Ht HL.
  assert (entries ≠ []) as Hne by (intros ->; cbn in HL; lia).
  pose proof (strata_count_le system entries) as HLn.
  destruct (check_target_Return entries target_size Hne Ht) as [out Hout].
  destruct (allocate_spec system round_quota entries
              (Z.min target_size (len entries)) Hne)
    as (alloc & Ha & Hok & Hsum).
  rewrite Z.min_l in * by lia.
  set (buckets := bucket_entries system entries) in *.
  destruct (bucket_entries_spec system entries) as [Hnd _ Hnonempty Hsys].
  fold buckets in Hnd, Hnonempty, Hsys.
  pose proof (Permutation_length (systems_sorted_perm buckets)) as Hlen.
  unfold keys in Hlen at 1. rewrite length_fmap in Hlen.
  destruct (selection_pass_spec main_author true buckets alloc
              (systems_sorted buckets) (Selection [] [] ∅ g) [])
    as (st & Hpass & _).
  { intros s. by rewrite systems_sorted_perm. }
  { done. }
  { split; cbn; [constructor|constructor|set_solver|done]. }
  destruct (selection_pass_blocks system main_author true buckets alloc
              (systems_sorted buckets) (Selection [] [] ∅ g) st)
    as (counts & Hcl & Hpos & Hblocks); [| |done|].
  { intros s Hs. rewrite systems_sorted_perm in Hs.
    apply dict_get_is_Some in Hs as [bucket Hb]. exists bucket.
    pose proof (dict_get_Some_elem _ _ _ Hb) as Hin.
    rewrite Forall_forall in Hnonempty, Hsys.
    split_and!; [done|apply (Hnonempty _ Hin)|apply (Hsys _ Hin)]. }
  { intros s Hs.
    destruct (alloc_ok_item _ _ s Hok Hs) as (v & -> & _ & Hv). cbn. lia. }
  assert (len buckets ≤ len (selected st)) as Hsel.
  { cbn in Hblocks. rewrite <- (length_fmap system (selected st)), Hblocks.
    pose proof (in_blocks_length_ge counts (systems_sorted buckets) Hcl Hpos).
    lia. }
  assert (NoDup (system <$> selected st)) as Hnds.
  { apply NoDup_fmap_counts. intros s.
    rewrite (selection_pass_counts system main_author buckets alloc
               (systems_sorted buckets) (Selection [] [] ∅ g) st s);
      [| | |exact Hpass].
    - cbn [selected]. rewrite filter_nil. cbn [length].
      pose proof (quotas_all_one _ alloc target_size s Hok Hsum ltac:(lia)).
      case_decide; lia.
    - by rewrite systems_sorted_perm.
    - intros k bucket Hk. split.
      + by eapply buckets_NoDup_entries.
      + rewrite Forall_forall in Hsys.
        apply (Hsys (k, bucket)). by apply dict_get_Some_elem. }
  destruct (reconcile_returns entry_id entries target_size (selected st)
              (rng st)) as [[sample g2] Hr]; [lia|].
  destruct (trimmed_sample entries target_size (selected st) (rng st)
              sample g2) as [Hsub Hlens]; [lia|lia|done|].
  exists sample, g2, out. split_and!; [|done|].
  - unfold main_author_diverse_stratified_sample, sample_with_selection,
      selection_stage.
    rewrite Hout. cbn. rewrite Ha. cbn. rewrite Hpass. cbn. by rewrite Hr.
  - by eapply submseteq_NoDup_fmap.
Qed.
End few_places.

(** X22: when the population has more strata than the requested size,
    every quota ends at 1, one entry per stratum is selected and the global
    trim cuts the selection down: both sampling functions return exactly
    [target_size] entries, no two of them from the same stratum (for the
    author-diverse function, on entries with distinct ids). *)
Theorem fewer_places_than_strata `{PyRandom} (round_quota : Z → Z → Z → Z)
    (population : list Script.RepoEntry)
    (population' : list DistinctAuthors.RepoEntry)
    (target_size : Z) (g : rng_state) :
  NoDup (DistinctAuthors.entry_id <$> population') →
  1 ≤ target_size →
  target_size < len (bucket_entries Script.system population) →
  target_size < len (bucket_entries DistinctAuthors.system population') →
  (∃ sample g' out,
     Script.stratified_sample round_quota population target_size g
     = Return (sample, g', out)
     ∧ len sample = target_size ∧ NoDup (Script.system <$> sample))
  ∧ (∃ sample g' out,
       DistinctAuthors.main_author_diverse_stratified_sample round_quota
         population' target_size g
       = Return (sample, g', out)
       ∧ len sample = target_size
       ∧ NoDup (DistinctAuthors.system <$> sample)).
Proof.
  intros Hids Ht HL HL'. split.
  - by apply stratified_sample_few_places.
  - apply diverse_sample_few_places; [|done..]. by eapply NoDup_fmap_1.
Qed.

Lemma fewer_places_than_strata_witness :
  (∃ sample g' out,
     Script.stratified_sample exact_round_quota orca_population 2 (Random 0)
     = Return (sample, g', out)
     ∧ len sample = 2 ∧ NoDup (Script.system <$> sample))
  ∧ (∃ sample g' out,
       DistinctAuthors.main_author_diverse_stratified_sample exact_round_quota
         authored_population 2 (Random 0)
       = Return (sample, g', out)
       ∧ len sample = 2 ∧ NoDup (DistinctAuthors.system <$> sample)).
Proof.
  assert (NoDup (DistinctAuthors.entry_id <$> authored_population)) as H1
    by (apply (bool_decide_unpack _); vm_compute; exact I).
  assert (1 ≤ 2) as H2 by lia.
  assert (2 < len (bucket_entries Script.system orca_population)) as H3
    by (vm_compute; reflexivity).
  assert (2 < len (bucket_entries DistinctAuthors.system authored_population))
    as H4 by (vm_compute; reflexivity).
  exact (fewer_places_than_strata exact_round_quota orca_population
           authored_population 2 (Random 0) H1 H2 H3 H4).
Defined.

(** ** Two calls with the same seed *)

Lemma same_result_of {E G} (h1 h2 : list (list E))
    (run1 run2 : outcome (loc * G * list notice) * list (list E))
    (value : outcome (list E * G * list notice)) :
  store_run_of h1 run1 value → store_run_of h2 run2 value →
  same_result run1 run2.
Proof.
  unfold store_run_of, same_result.
  destruct value as [[[sample g] out]|e|]; intros [_ H1] [_ H2].
  - destruct H1 as (r1 & -> & Hr1), H2 as (r2 & -> & Hr2). eauto.
  - by rewrite H1, H2.
  - by rewrite H1, H2.
Qed.

Lemma called_again_of {E G} (h : list (list E))
    (run1 again : outcome (loc * G * list notice) * list (list E))
    (value : outcome (list E * G * list notice)) :
  store_run_of h run1 value → store_run_of run1.2 again value →
  (∀ r g out, again.1 = Return (r, g, out) → (length run1.2 ≤ r)%nat) →
  called_again run1 again.
Proof.
  intros Hrun1 Hagain Hfresh. split; [by eapply same_result_of|].
  intros r1 g out Hr1. destruct Hrun1 as [_ Hrun1], Hagain as [Hprefix Hagain].
  destruct value as [[[sample g0] out0]|e|];
    [|rewrite Hrun1 in Hr1; done..].
  destruct Hrun1 as (r & Hr & Hsample), Hagain as (r2 & Hr2 & Hsample2).
  rewrite Hr in Hr1. injection Hr1 as -> -> ->.
  exists r2, sample. split_and!; [done| |done| |done].
  - apply Hfresh in Hr2. apply lookup_lt_Some in Hsample. lia.
  - by eapply prefix_lookup_Some.
Qed.

(** C2: two calls with the same entries in the same order, the same target
    and generators freshly seeded with the same seed end alike: they
    return lists with the same contents in the same order, print the same
    and leave their generators in the same state (or raise the same
    exception).  This holds of calls in any two stores, whatever else the
    stores hold and wherever the list of entries is, and in particular of
    a call repeated in the store the first call left behind: the repeated
    call returns a new list and leaves the list of the first call as it
    was. *)
Theorem sampling_deterministic `{PyRandom} (round_quota : Z → Z → Z → Z)
    (h1 h2 : list (list Script.RepoEntry))
    (h1' h2' : list (list DistinctAuthors.RepoEntry))
    (entries1 entries2 entries1' entries2' : loc)
    (population : list Script.RepoEntry)
    (population' : list DistinctAuthors.RepoEntry)
    (target_size seed : Z) :
  h1 !! entries1 = Some population → h2 !! entries2 = Some population →
  h1' !! entries1' = Some population' → h2' !! entries2' = Some population' →
  let call := λ entries h,
    stratified_sample_in_store Script.entry_id Script.system round_quota
      entries target_size (Random seed) h in
  let call' := λ entries h,
    main_author_diverse_stratified_sample_in_store DistinctAuthors.entry_id
      DistinctAuthors.system DistinctAuthors.main_author round_quota entries
      target_size (Random seed) h in
  (same_result (call entries1 h1) (call entries2 h2)
   ∧ called_again (call entries1 h1) (call entries1 (call entries1 h1).2))
  ∧ (same_result (call' entries1' h1') (call' entries2' h2')
     ∧ called_again (call' entries1' h1')
         (call' entries1' (call' entries1' h1').2)).
Proof.
  intros Hes1 Hes2 Hes1' Hes2' call call'.
  pose proof (stratified_sample_in_store_spec Script.entry_id Script.system
                round_quota h1 entries1 population target_size (Random seed)
                Hes1) as Hrun1.
  pose proof (stratified_sample_in_store_spec Script.entry_id Script.system
                round_quota h2 entries2 population target_size (Random seed)
                Hes2) as Hrun2.
  pose proof (main_author_diverse_stratified_sample_in_store_spec
                DistinctAuthors.entry_id DistinctAuthors.system
                DistinctAuthors.main_author round_quota h1' entries1'
                population' target_size (Random seed) Hes1') as Hrun1'.
  pose proof (main_author_diverse_stratified_sample_in_store_spec
                DistinctAuthors.entry_id DistinctAuthors.system
                DistinctAuthors.main_author round_quota h2' entries2'
                population' target_size (Random seed) Hes2') as Hrun2'.
  fold (call entries1 h1) in Hrun1. fold (call entries2 h2) in Hrun2.
  fold (call' entries1' h1') in Hrun1'. fold (call' entries2' h2') in Hrun2'.
  split; split.
  - by eapply same_result_of.
  - eapply called_again_of; [exact Hrun1| |].
    + apply stratified_sample_in_store_spec.
      by eapply prefix_lookup_Some; [|apply Hrun1].
    + intros r g out Hr.
      destruct (call entries1 (call entries1 h1).2) as [o hr] eqn:Heq.
      cbn in Hr. subst o.
      by eapply stratified_sample_in_store_fresh.
  - by eapply same_result_of.
  - eapply called_again_of; [exact Hrun1'| |].
    + apply main_author_diverse_stratified_sample_in_store_spec.
      by eapply prefix_lookup_Some; [|apply Hrun1'].
    + intros r g out Hr.
      destruct (call' entries1' (call' entries1' h1').2) as [o hr] eqn:Heq.
      cbn in Hr. subst o.
      by eapply main_author_diverse_stratified_sample_in_store_fresh.
Qed.

Lemma sampling_deterministic_witness :
  let call := λ entries h,
    stratified_sample_in_store Script.entry_id Script.system
      exact_round_quota entries 3 (Random 123456) h in
  let call' := λ entries h,
    main_author_diverse_stratified_sample_in_store DistinctAuthors.entry_id
      DistinctAuthors.system DistinctAuthors.main_author exact_round_quota
      entries 3 (Random 123456) h in
  (same_result (call 1%nat callers_store) (call 0%nat [orca_population])
   ∧ called_again (call 1%nat callers_store)
       (call 1%nat (call 1%nat callers_store).2))
  ∧ (same_result (call' 0%nat [authored_population])
       (call' 1%nat [[]; authored_population])
     ∧ called_again (call' 0%nat [authored_population])
         (call' 0%nat (call' 0%nat [authored_population]).2)).
Proof.
  assert (callers_store !! 1%nat = Some orca_population) as H1 by reflexivity.
  assert ([orca_population] !! 0%nat = Some orca_population) as H2
    by reflexivity.
  assert ([authored_population] !! 0%nat = Some authored_population) as H3
    by reflexivity.
  assert ([[]; authored_population] !! 1%nat = Some authored_population) as H4
    by reflexivity.
  exact (sampling_deterministic exact_round_quota callers_store
           [orca_population] [authored_population] [[]; authored_population]
           1%nat 0%nat 0%nat 1%nat orca_population authored_population
           3 123456 H1 H2 H3 H4).
Defined.
